(** * lcd_sound_lcd: the Ki-alternate mask engine and its gradient map

    A shallow embedding of
      - [ki_alternate_algorithm.py]            (static, exhaustive search),
      - [src/effect_engine/ki_alt.py]          (class [KiAlt], animated mask),
      - [src/effect_engine/gradient_overlay_simple.py] (class
        [GradientOverlaySimple], colour stops and the 256-entry table),
    followed by the properties of the specification that concern them.

    Conventions of the embedding.
      - Python [int] is [Z]; [//] and [%] are floor division and its
        remainder, which is what [Z.div] and [Z.modulo] compute.  A division
        whose divisor is not a literal goes through [Py.floordiv], which
        raises [ZeroDivisionError] as Python does.
      - A Python call that can raise returns a [Py.result].
      - The numpy integer arrays of [ki_alt.py] hold [int64] values; their
        arithmetic is embedded with its wrap-around ([np_add], [np_sub],
        [np_mul], [np_abs]).  A Python integer combined with such an array
        has to fit in [int64]: numpy raises [OverflowError] otherwise.
      - The floats of the see-saw blend of [ki_alt.py] are binary64, the
        kernel's primitive floats ([float_of_Z], [float_trunc]).
      - The floats of the gradient interpolation are embedded as the
        rationals [Q].  The statements proved below about the colour at a
        gradient stop only exercise operations that are exact in binary64
        as well ([x - x], [d / d], [1 * c], [0 * c], sums of small
        integers); the statements about the lookup table relate two
        results of the same interpolation, or hold of any table of 8-bit
        rows.  Elsewhere a row of the table can differ from the one
        binary64 gives where rounding moves a value across an integer. *)

From Stdlib Require Import Ascii String.
From Stdlib Require Import ZArith List Bool Lia Lqa QArith Qround Finite Sorted.
From Stdlib Require PrimFloat SpecFloat FloatOps Uint63.
Import PrimFloat.PrimFloatNotations.
Import ListNotations.
Open Scope Z_scope.

(* ===================================================================== *)
(** ** Python values and control                                          *)
(* ===================================================================== *)

Module Py.

Inductive exn : Type :=
| ZeroDivisionError
| IndexError
| ValueError
| OverflowError
| Cv2Error      (* cv2.error *)
| OtherError.

Inductive result (A : Type) : Type :=
| Ok (a : A)
| Raise (e : exn).
Arguments Ok {A} a.
Arguments Raise {A} e.

Definition bind {A B} (c : result A) (k : A -> result B) : result B :=
  match c with
  | Ok a => k a
  | Raise e => Raise e
  end.

(** [try: body except Exception: handler]. *)
Definition try_except {A} (body : result A) (handler : exn -> result A)
  : result A :=
  match body with
  | Ok a => Ok a
  | Raise e => handler e
  end.

(** [a // b] on Python integers. *)
Definition floordiv (a b : Z) : result Z :=
  if b =? 0 then Raise ZeroDivisionError else Ok (a / b).

(** [range(lo, hi)]. *)
Definition range (lo hi : Z) : list Z :=
  map (fun k => lo + Z.of_nat k) (seq 0 (Z.to_nat (hi - lo))).

(** A loop whose body may raise, collecting one value per iteration. *)
Fixpoint mapM {A B} (f : A -> result B) (l : list A) : result (list B) :=
  match l with
  | [] => Ok []
  | a :: l' =>
      bind (f a) (fun b => bind (mapM f l') (fun bs => Ok (b :: bs)))
  end.

(** [a % b] on Python integers. *)
Definition pymod (a b : Z) : result Z :=
  if b =? 0 then Raise ZeroDivisionError else Ok (a mod b).

(** [seq[i]]: a negative index counts from the end. *)
Definition getitem {A} (l : list A) (i : Z) : result A :=
  let j := if i <? 0 then i + Z.of_nat (length l) else i in
  if j <? 0 then Raise IndexError
  else match nth_error l (Z.to_nat j) with
       | Some a => Ok a
       | None => Raise IndexError
       end.

(** [ord(c)]. *)
Definition ord (c : ascii) : Z := Z.of_N (N_of_ascii c).

End Py.

Import Py.

Declare Scope py_scope.
Delimit Scope py_scope with py.
Notation "x <- c ;; k" := (Py.bind c (fun x => k))
  (at level 61, c at next level, right associativity) : py_scope.
Open Scope py_scope.

(** A boolean mask of shape (height, width): a list of rows. *)
Definition mask : Type := list (list bool).

(** [np.zeros((height, width), dtype=bool)]; numpy rejects a negative
    dimension with [ValueError]. *)
Definition np_zeros (height width : Z) : result mask :=
  if (height <? 0) || (width <? 0) then Raise ValueError
  else Ok (repeat (repeat false (Z.to_nat width)) (Z.to_nat height)).

(** numpy integer arrays hold [int64] values ([np.arange] on the
    platforms the effect runs on): the result of an arithmetic operation
    on them is reduced into [-2^63, 2^63). *)
Definition np_int64 (z : Z) : Z := (z + 2 ^ 63) mod 2 ^ 64 - 2 ^ 63.

Definition np_add (a b : Z) : Z := np_int64 (a + b).
Definition np_sub (a b : Z) : Z := np_int64 (a - b).
Definition np_mul (a b : Z) : Z := np_int64 (a * b).
Definition np_abs (a : Z) : Z := np_int64 (Z.abs a).

(** [a // b] on an integer array: floor division, 0 (and a warning)
    where the divisor is 0. *)
Definition np_floor_divide (a b : Z) : Z :=
  if b =? 0 then 0 else np_int64 (a / b).

(** [mask[y, x]] for an in-range position. *)
Definition mask_at (m : mask) (y x : Z) : option bool :=
  match nth_error m (Z.to_nat y) with
  | Some row => nth_error row (Z.to_nat x)
  | None => None
  end.

(** A lattice centre and the Manhattan distance of a pixel to it:
    [abs(x - center_x) + abs(y - center_y)]. *)
Definition center : Type := (Z * Z)%type.

Definition manhattan (x y : Z) (c : center) : Z :=
  Z.abs (x - fst c) + Z.abs (y - snd c).

(* ===================================================================== *)
(** ** ki_alternate_algorithm.py                                          *)
(* ===================================================================== *)

Module ki_alternate_algorithm.

(** The two nested loops over [grid_y], [grid_x] in
    [range(-1, max_grid + 1)], appending
    [(k grid_x * q, k grid_y * q)]. *)
Definition grid_loop (coord : Z -> Z) (max_grid_x max_grid_y : Z)
  : list center :=
  flat_map
    (fun grid_y =>
       map (fun grid_x => (coord grid_x, coord grid_y))
           (range (-1) (max_grid_x + 1)))
    (range (-1) (max_grid_y + 1)).

(** [possible_centers] once both pairs of loops have run. *)
Definition possible_centers (q max_grid_x max_grid_y : Z) : list center :=
  grid_loop (fun g => 2 * g * q) max_grid_x max_grid_y
  ++ grid_loop (fun g => (2 * g + 1) * q) max_grid_x max_grid_y.

(** State of the scan: [min_distance] ([None] is [float('inf')]) and
    [nearest_centers]. *)
Definition scan_state : Type := (option Z * list center)%type.

Definition scan_step (x y : Z) (st : scan_state) (c : center)
  : scan_state :=
  let distance := manhattan x y c in
  match fst st with
  | None => (Some distance, [c])
  | Some min_distance =>
      if distance <? min_distance then (Some distance, [c])
      else if distance =? min_distance then (fst st, snd st ++ [c])
      else st
  end.

Definition scan (x y : Z) (centers : list center) : scan_state :=
  fold_left (scan_step x y) centers (None, []).

(** [max_grid = image_size // (2 * q) + 2 if q > 0 else 2]. *)
Definition max_grid (image_size q : Z) : result Z :=
  if q >? 0 then (d <- floordiv image_size (2 * q) ;; Ok (d + 2))
  else Ok 2.

(** [find_nearest_center]: [Ok None] is Python's [None] (a tie). *)
Definition find_nearest_center
  (x y pixel_width image_width image_height : Z)
  : result (option center) :=
  let p := pixel_width in
  let q := (p - 1) / 2 in
  max_grid_x <- max_grid image_width q ;;
  max_grid_y <- max_grid image_height q ;;
  let nearest_centers :=
    snd (scan x y (possible_centers q max_grid_x max_grid_y)) in
  if (1 <? Z.of_nat (length nearest_centers)) then Ok None
  else match nearest_centers with
       | c :: _ => Ok (Some c)
       | [] => Ok (Some (0, 0))
       end.

(** [(center_x // q) % 2 == 1 and (center_y // q) % 2 == 1]; [and]
    evaluates its right operand only when the left one holds. *)
Definition is_type2_center (c : center) (q : Z) : result bool :=
  a <- floordiv (fst c) q ;;
  if a mod 2 =? 1
  then (b <- floordiv (snd c) q ;; Ok (b mod 2 =? 1))
  else Ok false.

Definition should_invert_pixel
  (x y time pixel_width image_width image_height : Z) : result bool :=
  c <- find_nearest_center x y pixel_width image_width image_height ;;
  match c with
  | None => Ok false
  | Some c =>
      let distance := manhattan x y c in
      let threshold := time / 2 in
      let is_invert := distance <=? threshold in
      let q := (pixel_width - 1) / 2 in
      if q >? 0 then
        (t2 <- is_type2_center c q ;;
         Ok (if t2 then negb is_invert else is_invert))
      else Ok is_invert
  end.

(** [generate_mask]: allocate, then fill row by row. *)
Definition generate_mask (width height time pixel_width : Z)
  : result mask :=
  _ <- np_zeros height width ;;
  mapM (fun y =>
          mapM (fun x =>
                  should_invert_pixel x y time pixel_width width height)
               (range 0 width))
       (range 0 height).

End ki_alternate_algorithm.

(* ===================================================================== *)
(** ** src/effect_engine/gradient_overlay_simple.py                       *)
(* ===================================================================== *)

(** A pixel or a colour: its channels, 8-bit each. *)
Definition pixel : Type := list Z.

(** Truncation towards zero: [int(v)] on a float, and the conversion of a
    float to an 8-bit channel. *)
Definition Qtrunc (v : Q) : Z := Z.quot (Qnum v) (Zpos (Qden v)).

Definition Qltb (a b : Q) : bool := negb (Qle_bool b a).

(** The low eight bits: the value of an arithmetic result stored in a
    [uint8] array. *)
Definition to_uint8 (v : Z) : Z := v mod 256.

(** [array[i] = v] for a Python integer [v] and a [uint8] array: numpy
    raises [OverflowError] when [v] is not in [0, 255]. *)
Definition store_uint8 (v : Z) : result Z :=
  if (0 <=? v) && (v <=? 255) then Ok v else Raise OverflowError.

(** [float(z)] in binary64: exact below 2^53, rounded to nearest even
    beyond. *)
Definition float_of_Z (z : Z) : PrimFloat.float :=
  if (0 <=? z) && (z <? 2 ^ 53) then PrimFloat.of_uint63 (Uint63.of_Z z)
  else FloatOps.SF2Prim (SpecFloat.binary_normalize 53 1024 z 0 false).

(** The conversion of a finite binary64 value [(-1)^s * m * 2^e] to an
    integer: truncation towards zero. *)
Definition float_trunc (x : PrimFloat.float) : Z :=
  match FloatOps.Prim2SF x with
  | SpecFloat.S754_finite s m e =>
      let v := Z.shiftl (Z.pos m) e in
      if s then - v else v
  | _ => 0
  end.

Module GradientOverlaySimple.

(** One entry of a gradient's ['stops']: [{'position': .., 'color': ..}]. *)
Record color_stop : Type := mk_stop {
  position : Q;
  color : list Z
}.

(** A gradient file: only ['stops'] is read by the code embedded here. *)
Record gradient : Type := mk_gradient {
  stops : list color_stop
}.

(** A lookup table: 256 rows [b; g; r]. *)
Definition lut : Type := list pixel.

Record t : Type := mk {
  active : bool;
  opacity : Z;
  current_gradient_index : Z;
  gradients : list gradient;
  current_gradient_lut : option lut
}.

(** [max(0.0, min(1.0, position))]: Python's [min] and [max] return
    their first argument unless a later one is strictly smaller,
    respectively larger. *)
Definition clamp01 (position : Q) : Q :=
  let m := if Qltb position 1 then position else 1%Q in
  if Qltb 0 m then m else 0%Q.

(** [np.clip(v, 0, 255)]. *)
Definition clip_0_255 (v : Q) : Q :=
  if Qltb v 0 then 0%Q else if Qltb 255 v then 255%Q else v.

(** The inner loop [for j in range(3)]. *)
Definition interpolate_channels (stop1 stop2 : color_stop) (t : Q)
  : result (list Z) :=
  mapM (fun j =>
          c1 <- getitem (color stop1) j ;;
          c2 <- getitem (color stop2) j ;;
          let interpolated := (inject_Z c1 + t * inject_Z (c2 - c1))%Q in
          Ok (Qtrunc (clip_0_255 interpolated)))
       (range 0 3).

(** The loop [for i in range(len(stops) - 1)] over the pairs
    [stops[i], stops[i + 1]]; [Ok None] when it ends without
    returning. *)
Fixpoint find_surrounding (stops : list color_stop) (position : Q)
  : result (option (list Z)) :=
  match stops with
  | stop1 :: ((stop2 :: _) as rest) =>
      if Qle_bool position (GradientOverlaySimple.position stop2) then
        if Qeq_bool (GradientOverlaySimple.position stop1)
                    (GradientOverlaySimple.position stop2)
        then Ok (Some (color stop1))
        else
          let t := ((position - GradientOverlaySimple.position stop1)
                    / (GradientOverlaySimple.position stop2
                       - GradientOverlaySimple.position stop1))%Q in
          c <- interpolate_channels stop1 stop2 t ;;
          Ok (Some c)
      else find_surrounding rest position
  | _ => Ok None
  end.

Definition _interpolate_gradient_color
  (stops : list color_stop) (position : Q) : result (list Z) :=
  let position := clamp01 position in
  r <- find_surrounding stops position ;;
  match r with
  | Some c => Ok c
  | None =>
      last_stop <- getitem stops (-1) ;;
      Ok (firstn 3 (color last_stop))
  end.

(** The table [_generate_current_lut] builds from a stop list: one
    iteration per [i in range(256)], the three stores and the final
    [np.column_stack((b_lut, g_lut, r_lut))]. *)
Definition build_lut (stops : list color_stop) : result lut :=
  mapM (fun i =>
          let luminance := (inject_Z i / 255)%Q in
          color <- _interpolate_gradient_color stops luminance ;;
          b <- getitem color 2 ;;
          b <- store_uint8 b ;;
          g <- getitem color 1 ;;
          g <- store_uint8 g ;;
          r <- getitem color 0 ;;
          r <- store_uint8 r ;;
          Ok [b; g; r])
       (range 0 256).

(** [_generate_current_lut]: nothing is assigned when it raises. *)
Definition _generate_current_lut (self : t) : result t :=
  match gradients self with
  | [] => Ok self
  | _ =>
      gradient <- getitem (gradients self) (current_gradient_index self) ;;
      table <- build_lut (stops gradient) ;;
      Ok (mk (active self) (opacity self) (current_gradient_index self)
             (gradients self) (Some table))
  end.

(** [__init__] followed by [_load_gradients], given the gradients the
    folder holds; a failure while loading is caught and printed. *)
Definition init (loaded : list gradient) : t :=
  let self := mk true 50 0 loaded None in
  match _generate_current_lut self with
  | Ok self' => self'
  | Raise _ => self
  end.

Definition set_index (self : t) (i : Z) : t :=
  mk (active self) (opacity self) i (gradients self)
     (current_gradient_lut self).

End GradientOverlaySimple.

(* ===================================================================== *)
(** ** src/effect_engine/ki_alt.py                                        *)
(* ===================================================================== *)

(** A frame of shape (height, width, 3): rows of pixels. *)
Definition frame : Type := list (list pixel).

(** [frame.shape[:2]]. *)
Definition shape_of (f : frame) : Z * Z :=
  (Z.of_nat (length f),
   match f with
   | [] => 0
   | row :: _ => Z.of_nat (length row)
   end).

(** [frame.size == 0]: no row, or rows without pixels; [cv2.cvtColor]
    raises [cv2.error] on such a frame. *)
Definition empty (f : frame) : bool :=
  (fst (shape_of f) =? 0) || (snd (shape_of f) =? 0).

(** The argument [value: Any] of [set_parameter]. *)
Inductive pyval : Type :=
| VBool (b : bool)
| VInt (n : Z).

(** [bool(value)] and [int(value)]. *)
Definition py_bool (v : pyval) : bool :=
  match v with
  | VBool b => b
  | VInt n => negb (n =? 0)
  end.

Definition py_int (v : pyval) : Z :=
  match v with
  | VBool b => if b then 1 else 0
  | VInt n => n
  end.

Module KiAlt.

Record t : Type := mk {
  active : bool;
  global_frame_counter : Z;
  pixel_width : Z;
  min_pixel_width : Z;
  max_pixel_width : Z;
  time_multiplier : Z;
  gradient_opacity : Z;
  invert_mask : option mask;
  cached_frame_size : option (Z * Z);
  gradient_system : GradientOverlaySimple.t
}.

(** [__init__], given the gradients found on disk. *)
Definition init (loaded : list GradientOverlaySimple.gradient) : t :=
  mk true 0 19 9 199 1 100 None None (GradientOverlaySimple.init loaded).

(** Field updates. *)
Definition set_active (s : t) (v : bool) : t :=
  mk v (global_frame_counter s) (pixel_width s) (min_pixel_width s)
     (max_pixel_width s) (time_multiplier s) (gradient_opacity s)
     (invert_mask s) (cached_frame_size s) (gradient_system s).
Definition set_global_frame_counter (s : t) (v : Z) : t :=
  mk (active s) v (pixel_width s) (min_pixel_width s)
     (max_pixel_width s) (time_multiplier s) (gradient_opacity s)
     (invert_mask s) (cached_frame_size s) (gradient_system s).
Definition set_pixel_width (s : t) (v : Z) : t :=
  mk (active s) (global_frame_counter s) v (min_pixel_width s)
     (max_pixel_width s) (time_multiplier s) (gradient_opacity s)
     (invert_mask s) (cached_frame_size s) (gradient_system s).
Definition set_time_multiplier (s : t) (v : Z) : t :=
  mk (active s) (global_frame_counter s) (pixel_width s)
     (min_pixel_width s) (max_pixel_width s) v (gradient_opacity s)
     (invert_mask s) (cached_frame_size s) (gradient_system s).
Definition set_gradient_opacity (s : t) (v : Z) : t :=
  mk (active s) (global_frame_counter s) (pixel_width s)
     (min_pixel_width s) (max_pixel_width s) (time_multiplier s) v
     (invert_mask s) (cached_frame_size s) (gradient_system s).
Definition set_invert_mask (s : t) (v : option mask) : t :=
  mk (active s) (global_frame_counter s) (pixel_width s)
     (min_pixel_width s) (max_pixel_width s) (time_multiplier s)
     (gradient_opacity s) v (cached_frame_size s) (gradient_system s).
Definition set_cached_frame_size (s : t) (v : option (Z * Z)) : t :=
  mk (active s) (global_frame_counter s) (pixel_width s)
     (min_pixel_width s) (max_pixel_width s) (time_multiplier s)
     (gradient_opacity s) (invert_mask s) v (gradient_system s).
Definition set_gradient_system (s : t) (v : GradientOverlaySimple.t) : t :=
  mk (active s) (global_frame_counter s) (pixel_width s)
     (min_pixel_width s) (max_pixel_width s) (time_multiplier s)
     (gradient_opacity s) (invert_mask s) (cached_frame_size s) v.

(** *** The exhaustive search kept in the class *)

(** [_find_nearest_center]: returns [(0, 0)] for a degenerate pitch and
    whenever [nearest_centers] does not hold exactly one centre. *)
Definition _find_nearest_center
  (x y pixel_width image_width image_height : Z) : result center :=
  let p := pixel_width in
  let q := (p - 1) / 2 in
  if q <=? 0 then Ok (0, 0)
  else
    dx <- floordiv image_width (2 * q) ;;
    let max_grid_x := dx + 2 in
    dy <- floordiv image_height (2 * q) ;;
    let max_grid_y := dy + 2 in
    let nearest_centers :=
      snd (ki_alternate_algorithm.scan x y
             (ki_alternate_algorithm.possible_centers
                q max_grid_x max_grid_y)) in
    match nearest_centers with
    | [c] => Ok c
    | _ => Ok (0, 0)
    end.

(** [_should_invert_pixel]: [_find_nearest_center] never returns
    [None], so the test [center is None] is passed over; any exception
    becomes [False]. *)
Definition _should_invert_pixel
  (x y time_param pixel_width image_width image_height : Z)
  : result bool :=
  try_except
    (c <- _find_nearest_center x y pixel_width image_width image_height ;;
     let distance := manhattan x y c in
     let threshold := time_param / 2 in
     let is_invert := distance <=? threshold in
     let q := (pixel_width - 1) / 2 in
     if q >? 0 then
       (t2 <- ki_alternate_algorithm.is_type2_center c q ;;
        Ok (if t2 then negb is_invert else is_invert))
     else Ok is_invert)
    (fun _ => Ok false).

(** *** The direct O(1) mask *)

(** The array computation at one pixel [(X, Y)].  Of the Python
    integers that divide, multiply or are compared with the arrays,
    [2 * q] is the largest; [mask_direct_body] raises where it does not
    fit in [int64]. *)

(** [np.abs(X - center_x) + np.abs(Y - center_y)]. *)
Definition np_manhattan (X Y : Z) (c : center) : Z :=
  np_add (np_abs (np_sub X (fst c))) (np_abs (np_sub Y (snd c))).

(** [cell_x = X // (2 * q)], [cell_y = Y // (2 * q)]. *)
Definition cell (q X : Z) : Z := np_floor_divide X (2 * q).

(** [(center1_x, center1_y)] to [(center5_x, center5_y)]. *)
Definition center1 (q X Y : Z) : center :=
  (np_mul (cell q X) (2 * q), np_mul (cell q Y) (2 * q)).

Definition center2 (q X Y : Z) : center :=
  (np_mul (np_add (cell q X) 1) (2 * q), np_mul (cell q Y) (2 * q)).

Definition center3 (q X Y : Z) : center :=
  (np_mul (cell q X) (2 * q), np_mul (np_add (cell q Y) 1) (2 * q)).

Definition center4 (q X Y : Z) : center :=
  (np_mul (np_add (cell q X) 1) (2 * q),
   np_mul (np_add (cell q Y) 1) (2 * q)).

Definition center5 (q X Y : Z) : center :=
  (np_mul (np_add (np_mul (cell q X) 2) 1) q,
   np_mul (np_add (np_mul (cell q Y) 2) 1) q).

Definition five_candidates (q X Y : Z) : list center :=
  [center1 q X Y; center2 q X Y; center3 q X Y; center4 q X Y;
   center5 q X Y].

Definition dist5 (q X Y : Z) : Z := np_manhattan X Y (center5 q X Y).

(** [np.minimum(np.minimum(np.minimum(dist1, dist2),
    np.minimum(dist3, dist4)), dist5)]. *)
Definition min_dist (q X Y : Z) : Z :=
  let dist1 := np_manhattan X Y (center1 q X Y) in
  let dist2 := np_manhattan X Y (center2 q X Y) in
  let dist3 := np_manhattan X Y (center3 q X Y) in
  let dist4 := np_manhattan X Y (center4 q X Y) in
  Z.min (Z.min (Z.min dist1 dist2) (Z.min dist3 dist4)) (dist5 q X Y).

(** [is_type2_nearest = (dist5 == min_dist)]. *)
Definition is_type2_nearest (q X Y : Z) : bool :=
  dist5 q X Y =? min_dist q X Y.

(** [pattern_mask] at one pixel, before the cycle flip. *)
Definition pattern_pixel (q time_param pixel_width X Y : Z) : bool :=
  let effective_time := time_param mod pixel_width in
  let threshold := effective_time / 2 in
  let base_invert := min_dist q X Y <=? threshold in
  if is_type2_nearest q X Y then negb base_invert else base_invert.

(** The whole array: [Y, X = np.meshgrid(np.arange(height),
    np.arange(width), indexing='ij')]. *)
Definition pattern_mask (q time_param pixel_width height width : Z)
  : mask :=
  map (fun Y =>
         map (fun X => pattern_pixel q time_param pixel_width X Y)
             (range 0 width))
      (range 0 height).

(** [~pattern_mask]. *)
Definition invert (m : mask) : mask := map (map negb) m.

(** The statements under [try:]. *)
Definition mask_direct_body
  (self : t) (frame_shape : Z * Z)
  (time_param pixel_width frame_counter : Z) : result t :=
  let '(height, width) := frame_shape in
  if (pixel_width <=? 0) || (time_param <? 0) then
    (z <- np_zeros height width ;; Ok (set_invert_mask self (Some z)))
  else
    let q := (pixel_width - 1) / 2 in
    if q <=? 0 then
      (z <- np_zeros height width ;; Ok (set_invert_mask self (Some z)))
    else if 2 ^ 63 <=? 2 * q then
      (* cell_x = X // (2 * q) *)
      Raise OverflowError
    else
      let pattern := pattern_mask q time_param pixel_width height width in
      let cycle_number := frame_counter / pixel_width in
      let pattern :=
        if cycle_number mod 2 =? 1 then invert pattern else pattern in
      Ok (set_cached_frame_size
            (set_invert_mask self (Some pattern)) (Some frame_shape)).

(** The statements under [except Exception:]. *)
Definition mask_direct_handler (self : t) (frame_shape : Z * Z)
  : result t :=
  let '(height, width) := frame_shape in
  z <- np_zeros height width ;;
  Ok (set_cached_frame_size
        (set_invert_mask self (Some z)) (Some frame_shape)).

(** The [try]/[except] of [_generate_ki_alternate_mask_direct], for a
    given outcome of the statements under [try:]. *)
Definition mask_direct_guarded
  (outcome : result t) (self : t) (frame_shape : Z * Z) : result t :=
  try_except outcome (fun _ => mask_direct_handler self frame_shape).

Definition _generate_ki_alternate_mask_direct
  (self : t) (frame_shape : Z * Z)
  (time_param pixel_width frame_counter : Z) : result t :=
  mask_direct_guarded
    (mask_direct_body self frame_shape time_param pixel_width frame_counter)
    self frame_shape.

(** *** Compositing *)

(** [(1.0 - opacity) * original + opacity * gradient], channel by
    channel in binary64, stored back into the 8-bit frame. *)
Definition blend (opacity : PrimFloat.float) (original gradient_px : pixel)
  : pixel :=
  map (fun og =>
         to_uint8
           (float_trunc ((float_of_Z 1 - opacity) * float_of_Z (fst og)
                         + opacity * float_of_Z (snd og))%float))
      (combine original gradient_px).

(** [np.clip(a, lo, hi)]. *)
Definition np_clip (a lo hi : Z) : Z := Z.min (Z.max a lo) hi.

Section Compositing.

(** [cv2.cvtColor(result, cv2.COLOR_BGR2GRAY)] at one pixel. *)
Variable cvtColor_BGR2GRAY : pixel -> Z.

(** The mask generator [process_frame] calls. *)
Variable generate : t -> Z * Z -> Z -> Z -> Z -> result t.

(** The see-saw branch at one pixel: [np.where(mask)] selects the
    pixels blended with [i_opacity], [np.where(~mask)] those blended
    with [o_opacity]; [gray] is computed before either store. *)
Definition seesaw_pixel (table : GradientOverlaySimple.lut)
  (i_opacity o_opacity : PrimFloat.float) (px : pixel) (m : bool)
  : result pixel :=
  let luminance :=
    np_clip (cvtColor_BGR2GRAY px) 0 (Z.of_nat (length table) - 1) in
  gradient_px <- getitem table luminance ;;
  Ok (blend (if m then i_opacity else o_opacity) px gradient_px).

(** The fallback branch at one pixel: [255 - channel] where the mask
    holds. *)
Definition invert_pixel (px : pixel) (m : bool) : pixel :=
  if m then map (fun c => to_uint8 (255 - c)) px else px.

(** The part of [process_frame] after the mask has been generated.
    The mask has the shape of the frame, so pairing rows and pixels
    with [combine] loses nothing.  [cv2.cvtColor] raises [cv2.error] on
    an empty frame. *)
Definition composite (self : t) (f : frame) : result frame :=
  match invert_mask self,
        GradientOverlaySimple.current_gradient_lut (gradient_system self)
  with
  | Some m, Some table =>
      if empty f then Raise Cv2Error
      else
        let abs_opacity := Z.abs (gradient_opacity self) in
        let i_opacity := (float_of_Z abs_opacity / float_of_Z 100)%float in
        let o_opacity :=
          (float_of_Z (100 - abs_opacity) / float_of_Z 100)%float in
        mapM (fun rm =>
                mapM (fun pm =>
                        seesaw_pixel table i_opacity o_opacity
                                     (fst pm) (snd pm))
                     (combine (fst rm) (snd rm)))
             (combine f m)
  | Some m, None =>
      Ok (map (fun rm =>
                 map (fun pm => invert_pixel (fst pm) (snd pm))
                     (combine (fst rm) (snd rm)))
              (combine f m))
  | None, _ => Ok f
  end.

(** [process_frame]: the new state of the effect and what the call
    returns or raises.  [None] is Python's [None] frame. *)
Definition process_frame_with (self : t) (fr : option frame)
  : t * result (option frame) :=
  match fr with
  | None => (self, Ok None)
  | Some f =>
      if negb (active self) then (self, Ok (Some f))
      else
        let self :=
          set_global_frame_counter self (global_frame_counter self + 1) in
        let clock := global_frame_counter self * time_multiplier self in
        match pymod clock (pixel_width self) with
        | Raise e => (self, Raise e)
        | Ok time =>
            match generate self (shape_of f) time (pixel_width self) clock
            with
            | Raise e => (self, Raise e)
            | Ok self' =>
                (self', r <- composite self' f ;; Ok (Some r))
            end
        end
  end.

End Compositing.

(** [process_frame] as the class defines it. *)
Definition process_frame (cvtColor_BGR2GRAY : pixel -> Z)
  : t -> option frame -> t * result (option frame) :=
  process_frame_with cvtColor_BGR2GRAY _generate_ki_alternate_mask_direct.

(** [process_frame] when the statements under [try:] of the mask
    generator raise [e]. *)
Definition process_frame_faulting (cvtColor_BGR2GRAY : pixel -> Z)
  (e : exn) : t -> option frame -> t * result (option frame) :=
  process_frame_with cvtColor_BGR2GRAY
    (fun self frame_shape _ _ _ =>
       mask_direct_guarded (Raise e) self frame_shape).

(** *** Controls *)

(** [set_parameter]; ['toggle'] calls itself with ['active']. *)
Definition set_parameter (self : t) (name : string) (value : pyval)
  : t * bool :=
  if String.eqb name "active"%string then
    (set_active self (py_bool value), true)
  else if String.eqb name "toggle"%string then
    (set_active self (py_bool (VBool (negb (active self)))), true)
  else if String.eqb name "reset_counter"%string then
    (set_global_frame_counter self 0, true)
  else if String.eqb name "pixel_width"%string then
    let new_value :=
      Z.max (min_pixel_width self)
            (Z.min (max_pixel_width self) (py_int value)) in
    (if negb (new_value =? pixel_width self)
     then set_pixel_width self new_value else self, true)
  else (self, false).

(** Keys 2 and 3: step the gradient index and rebuild the table.  The
    index is already stored when the rebuild raises. *)
Definition step_gradient (self : t) (delta : Z) : t * result bool :=
  let gs := gradient_system self in
  match GradientOverlaySimple.gradients gs with
  | [] => (self, Ok true)
  | _ =>
      let n := Z.of_nat (length (GradientOverlaySimple.gradients gs)) in
      let gs' :=
        GradientOverlaySimple.set_index gs
          ((GradientOverlaySimple.current_gradient_index gs + delta)
             mod n) in
      match GradientOverlaySimple._generate_current_lut gs' with
      | Ok gs'' => (set_gradient_system self gs'', Ok true)
      | Raise e => (set_gradient_system self gs', Raise e)
      end
  end.

Definition handle_key_press (self : t) (key : Z) : t * result bool :=
  if key =? ord "s"%char then
    (fst (set_parameter self "toggle"%string (VBool true)), Ok true)
  else if key =? ord "r"%char then
    (fst (set_parameter self "reset_counter"%string (VBool true)), Ok true)
  else if key =? 0 then
    let new_width := pixel_width self + 10 in
    (fst (set_parameter self "pixel_width"%string (VInt new_width)), Ok true)
  else if key =? 1 then
    let new_width := pixel_width self - 10 in
    (fst (set_parameter self "pixel_width"%string (VInt new_width)), Ok true)
  else if key =? 2 then step_gradient self (-1)
  else if key =? 3 then step_gradient self 1
  else if (key =? ord "+"%char) || (key =? ord "="%char) then
    (set_time_multiplier self (time_multiplier self + 1), Ok true)
  else if key =? ord "-"%char then
    (set_time_multiplier self (Z.max 1 (time_multiplier self - 1)), Ok true)
  else if key =? ord "]"%char then
    let self := set_gradient_opacity self (gradient_opacity self + 1) in
    let self :=
      if gradient_opacity self >? 100
      then set_gradient_opacity self (-100) else self in
    (self, Ok true)
  else if key =? ord "["%char then
    let self := set_gradient_opacity self (gradient_opacity self - 1) in
    let self :=
      if gradient_opacity self <? -100
      then set_gradient_opacity self 100 else self in
    (self, Ok true)
  else (self, Ok false).

(** [reset]. *)
Definition reset (self : t) : t :=
  mk (active self) 0 19 (min_pixel_width self) (max_pixel_width self)
     1 100 None None (gradient_system self).

(** What the application does to the effect between frames. *)
Inductive control : Type :=
| KeyPress (key : Z)
| Reset.

Definition apply_control (self : t) (c : control) : t :=
  match c with
  | KeyPress key => fst (handle_key_press self key)
  | Reset => reset self
  end.

Definition apply_controls (self : t) (cs : list control) : t :=
  fold_left apply_control cs self.

End KiAlt.

(* ===================================================================== *)
(** ** Vocabulary of the statements                                       *)
(* ===================================================================== *)

(** The lattice of the specification in exact integers: the five
    candidate centres of the cell of [(X, Y)], the distance to the cell
    centre and the least of the five distances. *)
Module Lattice.

Definition five_candidates (q X Y : Z) : list center :=
  let cell_x := X / (2 * q) in
  let cell_y := Y / (2 * q) in
  [ (cell_x * (2 * q), cell_y * (2 * q));
    ((cell_x + 1) * (2 * q), cell_y * (2 * q));
    (cell_x * (2 * q), (cell_y + 1) * (2 * q));
    ((cell_x + 1) * (2 * q), (cell_y + 1) * (2 * q));
    ((cell_x * 2 + 1) * q, (cell_y * 2 + 1) * q) ].

Definition dist5 (q X Y : Z) : Z :=
  let cell_x := X / (2 * q) in
  let cell_y := Y / (2 * q) in
  manhattan X Y ((cell_x * 2 + 1) * q, (cell_y * 2 + 1) * q).

Definition min_dist (q X Y : Z) : Z :=
  let cell_x := X / (2 * q) in
  let cell_y := Y / (2 * q) in
  let dist1 := manhattan X Y (cell_x * (2 * q), cell_y * (2 * q)) in
  let dist2 := manhattan X Y ((cell_x + 1) * (2 * q), cell_y * (2 * q)) in
  let dist3 := manhattan X Y (cell_x * (2 * q), (cell_y + 1) * (2 * q)) in
  let dist4 :=
    manhattan X Y ((cell_x + 1) * (2 * q), (cell_y + 1) * (2 * q)) in
  Z.min (Z.min (Z.min dist1 dist2) (Z.min dist3 dist4)) (dist5 q X Y).

End Lattice.

(** The centres of [cs] at distance [m] from the pixel [(x, y)], in scan
    order. *)
Definition at_distance (x y m : Z) (cs : list center) : list center :=
  filter (fun c => manhattan x y c =? m) cs.

(** What the scan of [ki_alternate_algorithm] has established once it has
    gone through [seen]: the least distance and the centres attaining it. *)
Definition scanned (x y : Z) (seen : list center)
  (st : ki_alternate_algorithm.scan_state) : Prop :=
  exists m,
    st = (Some m, at_distance x y m seen)
    /\ (forall c, In c seen -> m <= manhattan x y c)
    /\ (exists c, In c seen /\ manhattan x y c = m).

(** The value of [max_grid_x] and [max_grid_y] in the exhaustive search. *)
Definition grid_bound (image_size q : Z) : Z :=
  if q >? 0 then image_size / (2 * q) + 2 else 2.

(** The entry [y, x] of the mask [_generate_ki_alternate_mask_direct]
    stores, and of the mask [generate_mask] returns; [None] when the call
    raises or the position is outside the mask. *)
Definition animated_at (self : KiAlt.t)
  (width height t p frame_counter y x : Z) : option bool :=
  match KiAlt._generate_ki_alternate_mask_direct
          self (height, width) t p frame_counter with
  | Ok self' =>
      match KiAlt.invert_mask self' with
      | Some m => mask_at m y x
      | None => None
      end
  | Raise _ => None
  end.

Definition static_at (width height t p y x : Z) : option bool :=
  match ki_alternate_algorithm.generate_mask width height t p with
  | Ok m => mask_at m y x
  | Raise _ => None
  end.

(** The list the exhaustive search scans for a frame and a pitch. *)
Definition centers_of (pixel_width image_width image_height : Z)
  : list center :=
  let q := (pixel_width - 1) / 2 in
  ki_alternate_algorithm.possible_centers
    q (grid_bound image_width q) (grid_bound image_height q).

(** The value [should_invert_pixel] returns. *)
Definition evaluate (x y time pixel_width image_width image_height : Z)
  : bool :=
  match ki_alternate_algorithm.should_invert_pixel
          x y time pixel_width image_width image_height
  with
  | Ok b => b
  | Raise _ => false
  end.

(** What every control leaves true of the effect. *)
Definition controls_inv (self : KiAlt.t) : Prop :=
  KiAlt.min_pixel_width self = 9
  /\ KiAlt.max_pixel_width self = 199
  /\ KiAlt.pixel_width self mod 10 = 9
  /\ 9 <= KiAlt.pixel_width self <= 199
  /\ -100 <= KiAlt.gradient_opacity self <= 100.

(** A colour as the gradient files hold it: at least the three channels
    R, G, B, every channel an 8-bit value. *)
Definition valid_color (c : list Z) : Prop :=
  (3 <= length c)%nat /\ Forall (fun v => 0 <= v <= 255) c.

(** A stop with its position in [0, 1] and a valid colour. *)
Definition valid_stop (s : GradientOverlaySimple.color_stop) : Prop :=
  (0 <= GradientOverlaySimple.position s <= 1)%Q
  /\ valid_color (GradientOverlaySimple.color s).

(** The two orders on stops: strictly increasing and non-decreasing
    positions. *)
Definition strictly_before (a b : GradientOverlaySimple.color_stop) : Prop :=
  (GradientOverlaySimple.position a < GradientOverlaySimple.position b)%Q.

Definition not_after (a b : GradientOverlaySimple.color_stop) : Prop :=
  (GradientOverlaySimple.position a <= GradientOverlaySimple.position b)%Q.

(** A colour whose first three channels exist and are 8-bit values. *)
Definition rgb_in_range (c : list Z) : Prop :=
  exists r g b tl,
    c = r :: g :: b :: tl
    /\ 0 <= r <= 255 /\ 0 <= g <= 255 /\ 0 <= b <= 255.

(** A pixel of a frame: three 8-bit channels. *)
Definition valid_pixel (px : pixel) : Prop :=
  length px = 3%nat /\ Forall (fun c => 0 <= c <= 255) px.

(** A frame all of whose rows have the width [shape_of] reports. *)
Definition rectangular (f : frame) : Prop :=
  Forall (fun row => Z.of_nat (length row) = snd (shape_of f)) f.

(** A table [process_frame] can index: not empty, rows of three
    channels. *)
Definition valid_table (table : GradientOverlaySimple.lut) : Prop :=
  table <> [] /\ Forall (fun row => length row = 3%nat) table.

(** Gradients used as concrete inputs below. *)
Definition rgb_stops : list GradientOverlaySimple.color_stop :=
  [GradientOverlaySimple.mk_stop 0 [255; 0; 0; 255];
   GradientOverlaySimple.mk_stop (1 # 2) [0; 255; 0; 255];
   GradientOverlaySimple.mk_stop 1 [0; 0; 255; 255]].

Definition repeated_stops : list GradientOverlaySimple.color_stop :=
  [GradientOverlaySimple.mk_stop 0 [255; 0; 0; 255];
   GradientOverlaySimple.mk_stop (1 # 2) [0; 255; 0; 255];
   GradientOverlaySimple.mk_stop (1 # 2) [0; 0; 255; 255]].

Definition red_gradient : GradientOverlaySimple.gradient :=
  GradientOverlaySimple.mk_gradient
    [GradientOverlaySimple.mk_stop 0 [255; 0; 0; 255];
     GradientOverlaySimple.mk_stop 1 [255; 0; 0; 255]].

Definition flat_gradient : GradientOverlaySimple.gradient :=
  GradientOverlaySimple.mk_gradient
    [GradientOverlaySimple.mk_stop 0 [10; 20; 30; 255];
     GradientOverlaySimple.mk_stop 1 [10; 20; 30; 255]].

(* ===================================================================== *)
(** ** The rest of the effects' code                                      *)
(* ===================================================================== *)

(** *** gradient_overlay_simple.py: controls and frame processing *)

Module GradientOverlay.

Import GradientOverlaySimple.

Definition set_active (self : t) (v : bool) : t :=
  mk v (opacity self) (current_gradient_index self) (gradients self)
     (current_gradient_lut self).

Definition set_opacity (self : t) (v : Z) : t :=
  mk (active self) v (current_gradient_index self) (gradients self)
     (current_gradient_lut self).

(** The branches ['next_gradient'] and ['prev_gradient'] of
    [set_parameter]: the index is stored before the table is rebuilt, so
    it stays stored when the rebuild raises.  The gradient's ['name'],
    read after the rebuild for the message only, is taken to be present,
    as in the files gradient_creator.py writes; the state does not depend
    on it. *)
Definition step_gradient (self : t) (delta : Z) : t * result bool :=
  match gradients self with
  | [] => (self, Ok true)
  | _ =>
      let n := Z.of_nat (length (gradients self)) in
      let self1 :=
        set_index self ((current_gradient_index self + delta) mod n) in
      match _generate_current_lut self1 with
      | Ok self2 => (self2, Ok true)
      | Raise e => (self1, Raise e)
      end
  end.

(** [set_parameter]. *)
Definition set_parameter (self : t) (name : string) (value : pyval)
  : t * result bool :=
  if String.eqb name "active"%string then
    (set_active self (py_bool value), Ok true)
  else if String.eqb name "opacity"%string then
    (set_opacity self (Z.max 0 (Z.min 100 (py_int value))), Ok true)
  else if String.eqb name "toggle"%string then
    (set_active self (py_bool (VBool (negb (active self)))), Ok true)
  else if String.eqb name "next_gradient"%string then
    step_gradient self 1
  else if String.eqb name "prev_gradient"%string then
    step_gradient self (-1)
  else if String.eqb name "increase_opacity"%string then
    let new_opacity := Z.min 100 (opacity self + 5) in
    (if negb (new_opacity =? opacity self)
     then set_opacity self new_opacity else self, Ok true)
  else if String.eqb name "decrease_opacity"%string then
    let new_opacity := Z.max 0 (opacity self - 5) in
    (if negb (new_opacity =? opacity self)
     then set_opacity self new_opacity else self, Ok true)
  else (self, Ok false).

(** [self.set_parameter(name, True); return True]. *)
Definition forward (self : t) (name : string) : t * result bool :=
  let sr := set_parameter self name (VBool true) in
  (fst sr, _ <- snd sr ;; Ok true).

(** [handle_key_press]. *)
Definition handle_key_press (self : t) (key : Z) : t * result bool :=
  if key =? ord "s"%char then forward self "toggle"%string
  else if key =? 2 then forward self "prev_gradient"%string
  else if key =? 3 then forward self "next_gradient"%string
  else if key =? 0 then forward self "increase_opacity"%string
  else if key =? 1 then forward self "decrease_opacity"%string
  else (self, Ok false).

Section ProcessFrame.

(** [cv2.cvtColor(frame, cv2.COLOR_BGR2GRAY)] at one pixel and
    [cv2.addWeighted(src1, alpha, src2, beta, gamma)]. *)
Variable cvtColor_BGR2GRAY : pixel -> Z.
Variable addWeighted :
  frame -> PrimFloat.float -> frame -> PrimFloat.float -> Z -> frame.

(** [self.current_gradient_lut[gray]]. *)
Definition apply_lut (table : lut) (f : frame) : result frame :=
  mapM (fun row => mapM (fun px => getitem table (cvtColor_BGR2GRAY px)) row)
       f.

(** [process_frame]; the effect's state is left as it is. *)
Definition process_frame (self : t) (fr : option frame)
  : result (option frame) :=
  match fr with
  | None => Ok None
  | Some f =>
      match current_gradient_lut self with
      | None => Ok (Some f)
      | Some table =>
          if negb (active self) then Ok (Some f)
          else if empty f then Raise Cv2Error
          else
            gradient_frame <- apply_lut table f ;;
            if opacity self <? 100 then
              let alpha :=
                (float_of_Z (opacity self) / float_of_Z 100)%float in
              Ok (Some (addWeighted f (float_of_Z 1 - alpha)%float
                          gradient_frame alpha 0))
            else Ok (Some gradient_frame)
      end
  end.

End ProcessFrame.

(** What a caller can do to the effect between frames. *)
Inductive call : Type :=
| SetParameter (name : string) (value : pyval)
| KeyPress (key : Z).

Definition apply_call (self : t) (c : call) : t :=
  match c with
  | SetParameter name value => fst (set_parameter self name value)
  | KeyPress key => fst (handle_key_press self key)
  end.

Definition apply_calls (self : t) (cs : list call) : t :=
  fold_left apply_call cs self.

End GradientOverlay.

(** *** ki_alt.py: every entry point of the effect *)

Module KiAltApi.

(** [cleanup]. *)
Definition cleanup (self : KiAlt.t) : KiAlt.t :=
  KiAlt.set_invert_mask self None.

Inductive call : Type :=
| KeyPress (key : Z)
| SetParameter (name : string) (value : pyval)
| Reset
| Cleanup
| ProcessFrame (fr : option frame).

Definition apply_call (cvtColor_BGR2GRAY : pixel -> Z)
  (self : KiAlt.t) (c : call) : KiAlt.t :=
  match c with
  | KeyPress key => fst (KiAlt.handle_key_press self key)
  | SetParameter name value => fst (KiAlt.set_parameter self name value)
  | Reset => KiAlt.reset self
  | Cleanup => cleanup self
  | ProcessFrame fr => fst (KiAlt.process_frame cvtColor_BGR2GRAY self fr)
  end.

Definition apply_calls (cvtColor_BGR2GRAY : pixel -> Z)
  (self : KiAlt.t) (cs : list call) : KiAlt.t :=
  fold_left (apply_call cvtColor_BGR2GRAY) cs self.

End KiAltApi.

(** *** test_ki_alt_pattern.py *)

Module test_ki_alt_pattern.

(** [generate_ki_alt_mask]: the array computation of
    [KiAlt._generate_ki_alternate_mask_direct] with its own cycle, one
    flip every [2 * pixel_width] steps of [time_param], and without the
    guards on [pixel_width] and [time_param]; nothing catches the
    [OverflowError] of a pitch beyond [int64]. *)
Definition generate_ki_alt_mask (width height time_param pixel_width : Z)
  : result mask :=
  let q := (pixel_width - 1) / 2 in
  if q <=? 0 then np_zeros height width
  else if 2 ^ 63 <=? 2 * q then Raise OverflowError
  else
    let pattern_mask :=
      KiAlt.pattern_mask q time_param pixel_width height width in
    let cycle_number := time_param / (2 * pixel_width) in
    Ok (if cycle_number mod 2 =? 1
        then KiAlt.invert pattern_mask else pattern_mask).

End test_ki_alt_pattern.

(** *** Vocabulary for the rest of the code *)

(** A mask of [height] rows of [width] entries. *)
Definition mask_shape (m : mask) (height width : Z) : Prop :=
  length m = Z.to_nat height
  /\ Forall (fun row => length row = Z.to_nat width) m.

(** A frame of valid pixels whose rows all have the same length. *)
Definition valid_frame (f : frame) : Prop :=
  rectangular f /\ Forall (Forall valid_pixel) f.

(** A frame and a mask traversed together, [g] computing each pixel of
    the result from the pixel and its mask entry. *)
Definition zip_frame (g : pixel -> bool -> pixel) (f : frame) (m : mask)
  : frame :=
  map (fun rm =>
         map (fun pm => g (fst pm) (snd pm)) (combine (fst rm) (snd rm)))
      (combine f m).

(** The pixel the see-saw branch of [KiAlt.process_frame] stores. *)
Definition seesaw_value (gray : pixel -> Z)
  (table : GradientOverlaySimple.lut)
  (i_opacity o_opacity : PrimFloat.float)
  (px : pixel) (b : bool) : pixel :=
  KiAlt.blend (if b then i_opacity else o_opacity) px
    (nth (Z.to_nat (KiAlt.np_clip (gray px) 0
                      (Z.of_nat (length table) - 1))) table []).

(** A gradient [_generate_current_lut] can build a table from: at least
    one stop, every colour with three 8-bit channels or more. *)
Definition valid_gradient (g : GradientOverlaySimple.gradient) : Prop :=
  GradientOverlaySimple.stops g <> []
  /\ Forall (fun s => valid_color (GradientOverlaySimple.color s))
            (GradientOverlaySimple.stops g).

(** The table of a gradient system is the table of the gradient its
    index selects (no table when no gradient is loaded). *)
Definition lut_in_sync (gs : GradientOverlaySimple.t) : Prop :=
  match GradientOverlaySimple.gradients gs with
  | [] => GradientOverlaySimple.current_gradient_lut gs = None
  | _ :: _ =>
      0 <= GradientOverlaySimple.current_gradient_index gs
        < Z.of_nat (length (GradientOverlaySimple.gradients gs))
      /\ exists g table,
           nth_error (GradientOverlaySimple.gradients gs)
             (Z.to_nat (GradientOverlaySimple.current_gradient_index gs))
           = Some g
           /\ GradientOverlaySimple.build_lut (GradientOverlaySimple.stops g)
              = Ok table
           /\ GradientOverlaySimple.current_gradient_lut gs = Some table
  end.

(** What every call of [KiAlt] leaves true of the effect. *)
Definition api_inv (self : KiAlt.t) : Prop :=
  KiAlt.min_pixel_width self = 9
  /\ KiAlt.max_pixel_width self = 199
  /\ 9 <= KiAlt.pixel_width self <= 199
  /\ 1 <= KiAlt.time_multiplier self
  /\ -100 <= KiAlt.gradient_opacity self <= 100
  /\ 0 <= KiAlt.global_frame_counter self.

(** *** Vocabulary for the see-saw blend *)

(** The weight [k / 100.0]. *)
Definition percent (k : Z) : PrimFloat.float :=
  (float_of_Z k / float_of_Z 100)%float.

(** One channel of a blend of weight [w], written out: the value of
    [(1.0 - w) * c + w * g] in binary64, truncated into the 8-bit
    frame. *)
Definition blended_channel (w : PrimFloat.float) (c g : Z) : Z :=
  to_uint8
    (float_trunc
       ((float_of_Z 1 - w) * float_of_Z c + w * float_of_Z g)%float).

(** The row of the table a pixel selects: its grey value, clipped to the
    table. *)
Definition table_row (gray : pixel -> Z)
  (table : GradientOverlaySimple.lut) (px : pixel) : pixel :=
  nth (Z.to_nat (KiAlt.np_clip (gray px) 0 (Z.of_nat (length table) - 1)))
      table [].

(** A frame every pixel of which is blended towards the row of the table
    it selects, with weight [w]. *)
Definition recoloured (gray : pixel -> Z)
  (table : GradientOverlaySimple.lut) (w : PrimFloat.float) (f : frame)
  : frame :=
  map (map (fun px =>
              map (fun cg => blended_channel w (fst cg) (snd cg))
                  (combine px (table_row gray table px))))
      f.

(* ===================================================================== *)
(** ** Lists, ranges and loops                                            *)
(* ===================================================================== *)

Section PyFacts.

Lemma in_range (lo hi k : Z) : In k (range lo hi) <-> lo <= k < hi.
Proof.
  unfold range. rewrite in_map_iff. split.
  - intros (n & <- & Hn). apply in_seq in Hn. lia.
  - intros Hk. exists (Z.to_nat (k - lo)). split; [lia|].
    apply in_seq. lia.
Qed.

Lemma range_NoDup (lo hi : Z) : NoDup (range lo hi).
Proof.
  unfold range. apply Injective_map_NoDup_in; [|apply seq_NoDup].
  intros a b _ _ E. lia.
Qed.

Lemma range_length (lo hi : Z) : length (range lo hi) = Z.to_nat (hi - lo).
Proof. unfold range. now rewrite length_map, length_seq. Qed.

Lemma range_nth (hi k : Z) :
  0 <= k < hi -> nth_error (range 0 hi) (Z.to_nat k) = Some k.
Proof.
  intros Hk. unfold range.
  rewrite nth_error_map, nth_error_seq.
  destruct (Nat.ltb_spec (Z.to_nat k) (Z.to_nat (hi - 0))); simpl.
  - f_equal. lia.
  - lia.
Qed.

(** A loop none of whose iterations raises returns the list of their
    values. *)
Lemma mapM_pure {A B} (f : A -> result B) (g : A -> B) (l : list A) :
  (forall a, In a l -> f a = Ok (g a)) -> mapM f l = Ok (map g l).
Proof.
  induction l as [|a l IH]; intros H; simpl; [reflexivity|].
  rewrite (H a (or_introl eq_refl)). simpl.
  rewrite IH; [reflexivity|]. intros b Hb. apply H. now right.
Qed.

Lemma mapM_ok_length {A B} (f : A -> result B) (l : list A) (r : list B) :
  mapM f l = Ok r -> length r = length l.
Proof.
  revert r. induction l as [|a l IH]; simpl; intros r E.
  - now inversion E.
  - destruct (f a); simpl in E; [|discriminate].
    destruct (mapM f l); simpl in E; [|discriminate].
    inversion E. simpl. f_equal. now apply IH.
Qed.

Lemma mapM_ok_nth {A B} (f : A -> result B) (l : list A) (r : list B)
  (n : nat) (a : A) :
  mapM f l = Ok r -> nth_error l n = Some a ->
  exists b, nth_error r n = Some b /\ f a = Ok b.
Proof.
  revert r n. induction l as [|a0 l IH]; simpl; intros r n E Hn.
  - destruct n; discriminate.
  - destruct (f a0) eqn:Ea; simpl in E; [|discriminate].
    destruct (mapM f l) eqn:El; simpl in E; [|discriminate].
    inversion E; subst r. destruct n; simpl in *.
    + inversion Hn; subst. eauto.
    + eapply IH; eauto.
Qed.

Lemma store_uint8_ok (v : Z) : 0 <= v <= 255 -> store_uint8 v = Ok v.
Proof.
  intros H. unfold store_uint8.
  destruct (Z.leb_spec 0 v); [|lia]. destruct (Z.leb_spec v 255); [|lia].
  reflexivity.
Qed.

Lemma np_zeros_ok (height width : Z) :
  0 <= height -> 0 <= width ->
  np_zeros height width
  = Ok (repeat (repeat false (Z.to_nat width)) (Z.to_nat height)).
Proof.
  intros Hh Hw. unfold np_zeros.
  destruct (Z.ltb_spec height 0); [lia|].
  destruct (Z.ltb_spec width 0); [lia|]. reflexivity.
Qed.

Lemma mask_at_zeros (height width y x : Z) :
  0 <= y < height -> 0 <= x < width ->
  mask_at (repeat (repeat false (Z.to_nat width)) (Z.to_nat height)) y x
  = Some false.
Proof.
  intros Hy Hx. unfold mask_at.
  rewrite nth_error_repeat by lia.
  now rewrite nth_error_repeat by lia.
Qed.

Lemma mask_at_grid (g : Z -> Z -> bool) (height width y x : Z) :
  0 <= y < height -> 0 <= x < width ->
  mask_at (map (fun Y => map (fun X => g X Y) (range 0 width))
               (range 0 height)) y x
  = Some (g x y).
Proof.
  intros Hy Hx. unfold mask_at.
  rewrite nth_error_map, (range_nth height y Hy). simpl.
  now rewrite nth_error_map, (range_nth width x Hx).
Qed.

Lemma mask_at_invert (m : mask) (y x : Z) :
  mask_at (KiAlt.invert m) y x = option_map negb (mask_at m y x).
Proof.
  unfold mask_at, KiAlt.invert. rewrite nth_error_map.
  destruct (nth_error m (Z.to_nat y)); simpl; [|reflexivity].
  now rewrite nth_error_map.
Qed.

End PyFacts.

(* ===================================================================== *)
(** ** The scan for the nearest centres                                   *)
(* ===================================================================== *)

Import ki_alternate_algorithm.

Section Scan.

Variables x y : Z.

Lemma at_distance_none (m : Z) (cs : list center) :
  (forall c, In c cs -> m < manhattan x y c) -> at_distance x y m cs = [].
Proof.
  induction cs as [|c cs IH]; intros H; simpl; [reflexivity|].
  destruct (Z.eqb_spec (manhattan x y c) m) as [E|_].
  - specialize (H c (or_introl eq_refl)). lia.
  - apply IH. intros c' Hc'. apply H. now right.
Qed.

Lemma scanned_first (c : center) :
  scanned x y [c] (scan_step x y (None, []) c).
Proof.
  exists (manhattan x y c). unfold scan_step, at_distance; simpl.
  rewrite Z.eqb_refl. split; [reflexivity|]. split.
  - intros c' [<-|[]]. lia.
  - exists c. split; [now left|reflexivity].
Qed.

Lemma scanned_step (seen : list center) (st : scan_state) (c : center) :
  scanned x y seen st -> scanned x y (seen ++ [c]) (scan_step x y st c).
Proof.
  intros (m & -> & Hmin & c0 & Hc0 & Ec0).
  unfold scan_step; simpl.
  destruct (Z.ltb_spec (manhattan x y c) m) as [Hlt|Hge].
  - exists (manhattan x y c). unfold at_distance.
    rewrite filter_app; simpl. rewrite Z.eqb_refl.
    fold (at_distance x y (manhattan x y c) seen).
    rewrite at_distance_none.
    + split; [reflexivity|]. split.
      * intros c' Hc'. apply in_app_or in Hc' as [Hc'|[<-|[]]]; [|lia].
        specialize (Hmin c' Hc'). lia.
      * exists c. split; [apply in_or_app; right; now left|reflexivity].
    + intros c' Hc'. specialize (Hmin c' Hc'). lia.
  - destruct (Z.eqb_spec (manhattan x y c) m) as [E|N].
    + exists m. unfold at_distance. rewrite filter_app; simpl.
      destruct (Z.eqb_spec (manhattan x y c) m); [|contradiction].
      split; [reflexivity|]. split.
      * intros c' Hc'. apply in_app_or in Hc' as [Hc'|[<-|[]]]; [|lia].
        now apply Hmin.
      * exists c0. split; [apply in_or_app; now left|assumption].
    + exists m. unfold at_distance. rewrite filter_app; simpl.
      destruct (Z.eqb_spec (manhattan x y c) m); [contradiction|].
      rewrite app_nil_r. split; [reflexivity|]. split.
      * intros c' Hc'. apply in_app_or in Hc' as [Hc'|[<-|[]]]; [|lia].
        now apply Hmin.
      * exists c0. split; [apply in_or_app; now left|assumption].
Qed.

Lemma scanned_fold (cs seen : list center) (st : scan_state) :
  scanned x y seen st ->
  scanned x y (seen ++ cs) (fold_left (scan_step x y) cs st).
Proof.
  revert seen st. induction cs as [|c cs IH]; intros seen st H; simpl.
  - now rewrite app_nil_r.
  - replace (seen ++ c :: cs) with ((seen ++ [c]) ++ cs)
      by (now rewrite <- app_assoc).
    apply IH. now apply scanned_step.
Qed.

(** The scan of a non-empty list ends with the least distance and with
    the centres that attain it. *)
Lemma scan_spec (cs : list center) :
  cs <> [] -> scanned x y cs (scan x y cs).
Proof.
  destruct cs as [|c cs]; [congruence|]. intros _.
  unfold scan. simpl fold_left.
  change (c :: cs) with ([c] ++ cs).
  apply scanned_fold. apply scanned_first.
Qed.

Lemma scan_nil : scan x y [] = (None, []).
Proof. reflexivity. Qed.

(** Two entries of the list at the least distance make the scan keep at
    least two centres. *)
Lemma at_distance_two (m : Z) (l1 l2 l3 : list center) (c1 c2 : center) :
  manhattan x y c1 = m -> manhattan x y c2 = m ->
  (2 <= length (at_distance x y m (l1 ++ c1 :: l2 ++ c2 :: l3)))%nat.
Proof.
  intros E1 E2. unfold at_distance.
  rewrite filter_app; simpl. rewrite E1, Z.eqb_refl.
  rewrite filter_app; simpl. rewrite E2, Z.eqb_refl.
  rewrite length_app; simpl. rewrite length_app; simpl. lia.
Qed.

(** Conversely, two kept centres are two entries of the list. *)
Lemma at_distance_split (m : Z) (cs : list center) (c1 c2 : center)
  (rest : list center) :
  at_distance x y m cs = c1 :: c2 :: rest ->
  exists l1 l2 l3,
    cs = l1 ++ c1 :: l2 ++ c2 :: l3
    /\ manhattan x y c1 = m /\ manhattan x y c2 = m.
Proof.
  unfold at_distance.
  induction cs as [|c cs IH]; simpl; [discriminate|].
  destruct (Z.eqb_spec (manhattan x y c) m) as [E|N].
  - intros H. inversion H; subst c1. clear H.
    assert (exists l2 l3, cs = l2 ++ c2 :: l3 /\ manhattan x y c2 = m)
      as (l2 & l3 & -> & E2).
    { clear IH E. revert H2. induction cs as [|c' cs IH]; simpl;
        [discriminate|].
      destruct (Z.eqb_spec (manhattan x y c') m) as [E'|N'].
      - intros H. inversion H; subst. exists [], cs. now split.
      - intros H. destruct (IH H) as (l2 & l3 & -> & E2).
        exists (c' :: l2), l3. now split. }
    exists [], l2, l3. now repeat split.
  - intros H. destruct (IH H) as (l1 & l2 & l3 & -> & E1 & E2).
    exists (c :: l1), l2, l3. now repeat split.
Qed.

End Scan.

(* ===================================================================== *)
(** ** The static evaluation never raises                                 *)
(* ===================================================================== *)

Section StaticTotal.

Lemma max_grid_ok (image_size q : Z) :
  max_grid image_size q = Ok (grid_bound image_size q).
Proof.
  unfold max_grid, grid_bound, floordiv.
  destruct (Z.gtb_spec q 0) as [Hq|Hq]; [|reflexivity].
  destruct (Z.eqb_spec (2 * q) 0); [lia|reflexivity].
Qed.

(** [find_nearest_center] in one expression. *)
Lemma find_nearest_center_eq (x y pixel_width image_width image_height : Z) :
  find_nearest_center x y pixel_width image_width image_height
  = Ok (match snd (scan x y
                     (centers_of pixel_width image_width image_height)) with
        | [] => Some (0, 0)
        | [c] => Some c
        | _ :: _ :: _ => None
        end).
Proof.
  unfold find_nearest_center, centers_of.
  rewrite !max_grid_ok. simpl bind.
  destruct (snd (scan x y _)) as [|c [|c' l]]; try reflexivity.
  destruct (Z.ltb_spec 1 (Z.of_nat (length (c :: c' :: l)))) as [_|H];
    [reflexivity|]. simpl length in H. lia.
Qed.

Lemma is_type2_center_ok (c : center) (q : Z) :
  0 < q ->
  is_type2_center c q
  = Ok (((fst c / q) mod 2 =? 1) && ((snd c / q) mod 2 =? 1)).
Proof.
  intros Hq. unfold is_type2_center, floordiv.
  destruct (Z.eqb_spec q 0); [lia|]. simpl.
  now destruct ((fst c / q) mod 2 =? 1).
Qed.

(** Every call of [should_invert_pixel] returns a boolean. *)
Lemma should_invert_pixel_returns
  (x y time pixel_width image_width image_height : Z) :
  exists b,
    should_invert_pixel x y time pixel_width image_width image_height = Ok b.
Proof.
  unfold should_invert_pixel. rewrite find_nearest_center_eq. simpl bind.
  destruct (match snd (scan x y _) with
            | [] => Some (0, 0) | [c] => Some c | _ :: _ :: _ => None
            end) as [c|]; [|eauto].
  destruct (Z.gtb_spec ((pixel_width - 1) / 2) 0) as [Hq|Hq]; [|eauto].
  rewrite is_type2_center_ok by lia. simpl. eauto.
Qed.

End StaticTotal.

Lemma should_invert_pixel_evaluate
  (x y time pixel_width image_width image_height : Z) :
  should_invert_pixel x y time pixel_width image_width image_height
  = Ok (evaluate x y time pixel_width image_width image_height).
Proof.
  unfold evaluate.
  destruct (should_invert_pixel_returns
              x y time pixel_width image_width image_height) as [b ->].
  reflexivity.
Qed.

(** [generate_mask] returns the grid of the per-pixel decisions. *)
Lemma generate_mask_ok (width height time pixel_width : Z) :
  0 <= width -> 0 <= height ->
  generate_mask width height time pixel_width
  = Ok (map (fun y =>
               map (fun x => evaluate x y time pixel_width width height)
                   (range 0 width))
            (range 0 height)).
Proof.
  intros Hw Hh. unfold generate_mask.
  rewrite np_zeros_ok by assumption. simpl bind.
  apply mapM_pure. intros y _.
  apply mapM_pure. intros x _.
  apply should_invert_pixel_evaluate.
Qed.

(** C8.  For a pitch with [q = (p - 1) // 2 > 0], a pixel of the frame and
    a non-negative time, [should_invert_pixel] returns a boolean: none of
    its divisions is by zero and no other statement of it raises; and the
    value depends on the arguments only, so two evaluations on equal
    arguments agree. *)
Theorem should_invert_pixel_total_deterministic
  (x y t p width height : Z) :
  0 < (p - 1) / 2 ->
  0 <= x < width -> 0 <= y < height -> 0 <= t ->
  (exists b : bool, should_invert_pixel x y t p width height = Ok b)
  /\ (forall x' y' t' p' width' height',
         (x', y', t', p', width', height') = (x, y, t, p, width, height) ->
         should_invert_pixel x' y' t' p' width' height'
         = should_invert_pixel x y t p width height).
Proof.
  intros _ _ _ _. split.
  - apply should_invert_pixel_returns.
  - intros x' y' t' p' w' h' E. now inversion E.
Qed.

Lemma should_invert_pixel_total_deterministic_witness :
  exists b : bool, should_invert_pixel 3 5 7 9 10 10 = Ok b.
Proof.
  apply (should_invert_pixel_total_deterministic 3 5 7 9 10 10);
    [reflexivity | lia | lia | lia].
Defined.

(* ===================================================================== *)
(** ** Geometry of the lattice                                            *)
(* ===================================================================== *)

Section Lattice.
Variable q : Z.
Hypothesis Hq : 0 < q.

Lemma cell_offset (X : Z) :
  0 <= X - X / (2 * q) * (2 * q) < 2 * q.
Proof.
  pose proof (Z.div_mod X (2 * q) ltac:(lia)) as E.
  pose proof (Z.mod_pos_bound X (2 * q) ltac:(lia)) as B.
  lia.
Qed.

Lemma type1_axis (X i : Z) :
  Z.min (Z.abs (X - X / (2 * q) * (2 * q)))
        (Z.abs (X - (X / (2 * q) + 1) * (2 * q)))
  <= Z.abs (X - 2 * i * q).
Proof.
  pose proof (cell_offset X) as B.
  destruct (Z_le_gt_dec i (X / (2 * q))) as [L|G].
  - assert (i * q <= X / (2 * q) * q) by nia. lia.
  - assert ((X / (2 * q) + 1) * q <= i * q) by nia. lia.
Qed.

Lemma type2_axis (X i : Z) :
  Z.abs (X - (X / (2 * q) * 2 + 1) * q) <= Z.abs (X - (2 * i + 1) * q).
Proof.
  pose proof (cell_offset X) as B.
  destruct (Z.lt_trichotomy i (X / (2 * q))) as [L|[E|G]].
  - assert (i * q + q <= X / (2 * q) * q) by nia. lia.
  - subst i. apply Z.eq_le_incl. f_equal. ring.
  - assert (X / (2 * q) * q + q <= i * q) by nia. lia.
Qed.

Lemma close_type1_unique (X i i' : Z) :
  Z.abs (X - 2 * i * q) < q -> Z.abs (X - 2 * i' * q) < q -> i = i'.
Proof.
  intros H1 H2.
  destruct (Z.lt_trichotomy i i') as [L|[E|G]]; [|assumption|].
  - assert (i * q + q <= i' * q) by nia. lia.
  - assert (i' * q + q <= i * q) by nia. lia.
Qed.

End Lattice.

Section Lattice2.
Variable q : Z.
Hypothesis Hq : 0 < q.

Lemma min_dist_le_type1 (X Y i j : Z) :
  Lattice.min_dist q X Y <= manhattan X Y (2 * i * q, 2 * j * q).
Proof.
  pose proof (type1_axis q Hq X i). pose proof (type1_axis q Hq Y j).
  unfold Lattice.min_dist, Lattice.dist5, manhattan; cbn [fst snd]. lia.
Qed.

Lemma dist5_le_type2 (X Y i j : Z) :
  Lattice.dist5 q X Y <= manhattan X Y ((2 * i + 1) * q, (2 * j + 1) * q).
Proof.
  pose proof (type2_axis q Hq X i). pose proof (type2_axis q Hq Y j).
  unfold Lattice.dist5, manhattan; cbn [fst snd]. lia.
Qed.

Lemma min_dist_le_dist5 (X Y : Z) :
  Lattice.min_dist q X Y <= Lattice.dist5 q X Y.
Proof. unfold Lattice.min_dist. lia. Qed.

Lemma min_dist_attained (X Y : Z) :
  exists c, In c (Lattice.five_candidates q X Y)
            /\ manhattan X Y c = Lattice.min_dist q X Y.
Proof.
  unfold Lattice.five_candidates, Lattice.min_dist, Lattice.dist5.
  set (cx := X / (2 * q)). set (cy := Y / (2 * q)).
  set (d1 := manhattan X Y (cx * (2 * q), cy * (2 * q))).
  set (d2 := manhattan X Y ((cx + 1) * (2 * q), cy * (2 * q))).
  set (d3 := manhattan X Y (cx * (2 * q), (cy + 1) * (2 * q))).
  set (d4 := manhattan X Y ((cx + 1) * (2 * q), (cy + 1) * (2 * q))).
  set (d5 := manhattan X Y ((cx * 2 + 1) * q, (cy * 2 + 1) * q)).
  assert (Z.min (Z.min (Z.min d1 d2) (Z.min d3 d4)) d5 = d1
          \/ Z.min (Z.min (Z.min d1 d2) (Z.min d3 d4)) d5 = d2
          \/ Z.min (Z.min (Z.min d1 d2) (Z.min d3 d4)) d5 = d3
          \/ Z.min (Z.min (Z.min d1 d2) (Z.min d3 d4)) d5 = d4
          \/ Z.min (Z.min (Z.min d1 d2) (Z.min d3 d4)) d5 = d5) as H by lia.
  destruct H as [H|[H|[H|[H|H]]]]; rewrite H; eexists; (split; [|reflexivity]);
    simpl; tauto.
Qed.

(** When the cell centre is not nearest, the least distance is below q. *)
Lemma min_dist_lt_q (X Y : Z) :
  Lattice.dist5 q X Y <> Lattice.min_dist q X Y -> Lattice.min_dist q X Y < q.
Proof.
  pose proof (cell_offset q Hq X). pose proof (cell_offset q Hq Y).
  unfold Lattice.min_dist, Lattice.dist5, manhattan; cbn [fst snd]. lia.
Qed.
End Lattice2.

Section Centers.

Lemma in_grid_loop (coord : Z -> Z) (mx my : Z) (c : center) :
  In c (grid_loop coord mx my)
  <-> exists gx gy,
        -1 <= gx <= mx /\ -1 <= gy <= my /\ c = (coord gx, coord gy).
Proof.
  unfold grid_loop. rewrite in_flat_map. split.
  - intros (gy & Hgy & Hc). apply in_map_iff in Hc as (gx & <- & Hgx).
    apply in_range in Hgy, Hgx. exists gx, gy. repeat split; lia.
  - intros (gx & gy & Hgx & Hgy & ->). exists gy. split.
    + apply in_range. lia.
    + apply in_map_iff. exists gx. split; [reflexivity|].
      apply in_range. lia.
Qed.

Lemma NoDup_flat_map {A B} (h : A -> list B) (l : list A) :
  NoDup l ->
  (forall a, In a l -> NoDup (h a)) ->
  (forall a a' b, In a l -> In a' l -> In b (h a) -> In b (h a') -> a = a') ->
  NoDup (flat_map h l).
Proof.
  induction 1 as [|a l Ha Hl IH]; intros Hin Hdis; simpl; [constructor|].
  apply NoDup_app.
  - apply Hin. now left.
  - apply IH.
    + intros a' Ha'. apply Hin. now right.
    + intros a1 a2 b H1 H2. apply Hdis; now right.
  - intros b Hb Hb'. apply in_flat_map in Hb' as (a' & Ha' & Hb').
    assert (a = a') by (apply (Hdis a a' b); auto; [now left|now right]).
    subst a'. contradiction.
Qed.

Lemma grid_loop_NoDup (coord : Z -> Z) (mx my : Z) :
  (forall g g', coord g = coord g' -> g = g') ->
  NoDup (grid_loop coord mx my).
Proof.
  intros Hinj. unfold grid_loop. apply NoDup_flat_map.
  - apply range_NoDup.
  - intros gy _. apply Injective_map_NoDup_in; [|apply range_NoDup].
    intros g g' _ _ E. inversion E. now apply Hinj.
  - intros gy gy' c _ _ H1 H2.
    apply in_map_iff in H1 as (g1 & <- & _).
    apply in_map_iff in H2 as (g2 & E & _).
    inversion E. symmetry. now apply Hinj.
Qed.

Lemma possible_centers_NoDup (q mx my : Z) :
  0 < q -> NoDup (possible_centers q mx my).
Proof.
  intros Hq. unfold possible_centers. apply NoDup_app.
  - apply grid_loop_NoDup. intros g g' E. nia.
  - apply grid_loop_NoDup. intros g g' E. nia.
  - intros c H1 H2.
    apply in_grid_loop in H1 as (gx & gy & _ & _ & ->).
    apply in_grid_loop in H2 as (gx' & gy' & _ & _ & E).
    assert (E1 := f_equal fst E). cbn [fst] in E1.
    assert ((2 * (gx - gx') - 1) * q = 0) as Z0 by lia.
    apply Z.mul_eq_0 in Z0. lia.
Qed.

(** Every centre the search scans is a lattice centre of one of the two
    types. *)
Lemma in_possible_centers (q mx my : Z) (c : center) :
  In c (possible_centers q mx my) ->
  (exists i j, c = (2 * i * q, 2 * j * q))
  \/ (exists i j, c = ((2 * i + 1) * q, (2 * j + 1) * q)).
Proof.
  unfold possible_centers. intros H. apply in_app_or in H as [H|H];
    apply in_grid_loop in H as (gx & gy & _ & _ & ->); eauto.
Qed.

(** The five candidates of a pixel of the frame are among the centres
    the search scans. *)
Lemma five_candidates_scanned (p width height X Y : Z) (c : center) :
  0 < (p - 1) / 2 -> 0 <= X < width -> 0 <= Y < height ->
  In c (Lattice.five_candidates ((p - 1) / 2) X Y) ->
  In c (centers_of p width height).
Proof.
  intros Hq HX HY. unfold centers_of, grid_bound.
  set (q := (p - 1) / 2) in *.
  destruct (Z.gtb_spec q 0) as [_|]; [|lia].
  assert (0 <= X / (2 * q) <= width / (2 * q)).
  { split; [apply Z.div_pos; lia|apply Z.div_le_mono; lia]. }
  assert (0 <= Y / (2 * q) <= height / (2 * q)).
  { split; [apply Z.div_pos; lia|apply Z.div_le_mono; lia]. }
  unfold Lattice.five_candidates, possible_centers.
  intros [<-|[<-|[<-|[<-|[<-|[]]]]]]; apply in_or_app.
  - left. apply in_grid_loop. exists (X / (2 * q)), (Y / (2 * q)).
    repeat split; try lia. f_equal; ring.
  - left. apply in_grid_loop. exists (X / (2 * q) + 1), (Y / (2 * q)).
    repeat split; try lia. f_equal; ring.
  - left. apply in_grid_loop. exists (X / (2 * q)), (Y / (2 * q) + 1).
    repeat split; try lia. f_equal; ring.
  - left. apply in_grid_loop. exists (X / (2 * q) + 1), (Y / (2 * q) + 1).
    repeat split; try lia. f_equal; ring.
  - right. apply in_grid_loop. exists (X / (2 * q)), (Y / (2 * q)).
    repeat split; try lia. f_equal; ring.
Qed.

End Centers.

(* ===================================================================== *)
(** ** The array arithmetic does not wrap on a frame                      *)
(* ===================================================================== *)

Section NoWrap.

Lemma np_int64_small (z : Z) : - 2 ^ 63 <= z < 2 ^ 63 -> np_int64 z = z.
Proof.
  unfold np_int64.
  change (2 ^ 63) with 9223372036854775808.
  change (2 ^ 64) with 18446744073709551616.
  intros H. rewrite Z.mod_small by lia. lia.
Qed.

Variables q X Y : Z.
Hypothesis Hq : 0 < q < 2 ^ 31.
Hypothesis HX : 0 <= X < 2 ^ 31.
Hypothesis HY : 0 <= Y < 2 ^ 31.

Lemma cell_exact (Z0 : Z) :
  0 <= Z0 < 2 ^ 31 ->
  KiAlt.cell q Z0 = Z0 / (2 * q)
  /\ 0 <= Z0 / (2 * q) * (2 * q) <= Z0
  /\ 0 <= Z0 / (2 * q) <= Z0.
Proof.
  change (2 ^ 31) with 2147483648 in *. intros H0.
  pose proof (Z.div_pos Z0 (2 * q) ltac:(lia) ltac:(lia)).
  pose proof (Z.mul_div_le Z0 (2 * q) ltac:(lia)).
  assert (Z0 / (2 * q) <= Z0)
    by (apply Z.div_le_upper_bound; [lia|nia]).
  unfold KiAlt.cell, np_floor_divide.
  destruct (Z.eqb_spec (2 * q) 0); [lia|].
  rewrite np_int64_small
    by (change (2 ^ 63) with 9223372036854775808; lia).
  repeat split; lia.
Qed.

Ltac small64 t :=
  rewrite !(np_int64_small t)
    by (change (2 ^ 63) with 9223372036854775808; nia).

Lemma five_candidates_exact :
  KiAlt.five_candidates q X Y = Lattice.five_candidates q X Y.
Proof.
  destruct (cell_exact X HX) as (EX & BX & CX).
  destruct (cell_exact Y HY) as (EY & BY & CY).
  change (2 ^ 31) with 2147483648 in *.
  unfold KiAlt.five_candidates, Lattice.five_candidates, KiAlt.center1,
    KiAlt.center2, KiAlt.center3, KiAlt.center4, KiAlt.center5.
  rewrite EX, EY.
  set (cx := X / (2 * q)) in *. set (cy := Y / (2 * q)) in *.
  unfold np_add, np_mul.
  small64 (cx + 1). small64 (cy + 1). small64 (cx * 2). small64 (cy * 2).
  small64 (cx * 2 + 1). small64 (cy * 2 + 1).
  small64 (cx * (2 * q)). small64 (cy * (2 * q)).
  small64 ((cx + 1) * (2 * q)). small64 ((cy + 1) * (2 * q)).
  small64 ((cx * 2 + 1) * q). small64 ((cy * 2 + 1) * q).
  reflexivity.
Qed.

Lemma np_manhattan_exact (c : center) :
  - 2 ^ 40 <= fst c <= 2 ^ 40 -> - 2 ^ 40 <= snd c <= 2 ^ 40 ->
  KiAlt.np_manhattan X Y c = manhattan X Y c.
Proof.
  change (2 ^ 31) with 2147483648 in *.
  change (2 ^ 40) with 1099511627776.
  intros H1 H2. unfold KiAlt.np_manhattan, manhattan.
  unfold np_add, np_sub, np_abs.
  rewrite !(np_int64_small (X - fst c))
    by (change (2 ^ 63) with 9223372036854775808; lia).
  rewrite !(np_int64_small (Y - snd c))
    by (change (2 ^ 63) with 9223372036854775808; lia).
  rewrite !(np_int64_small (Z.abs _))
    by (change (2 ^ 63) with 9223372036854775808; lia).
  apply np_int64_small.
  change (2 ^ 63) with 9223372036854775808. lia.
Qed.

Lemma candidates_bounded (c : center) :
  In c (Lattice.five_candidates q X Y) ->
  - 2 ^ 40 <= fst c <= 2 ^ 40 /\ - 2 ^ 40 <= snd c <= 2 ^ 40.
Proof.
  destruct (cell_exact X HX) as (_ & BX & CX).
  destruct (cell_exact Y HY) as (_ & BY & CY).
  change (2 ^ 31) with 2147483648 in *.
  change (2 ^ 40) with 1099511627776.
  unfold Lattice.five_candidates.
  set (cx := X / (2 * q)) in *. set (cy := Y / (2 * q)) in *.
  intros [<-|[<-|[<-|[<-|[<-|[]]]]]]; cbn [fst snd]; nia.
Qed.

Lemma min_dist_exact :
  KiAlt.dist5 q X Y = Lattice.dist5 q X Y
  /\ KiAlt.min_dist q X Y = Lattice.min_dist q X Y.
Proof.
  pose proof five_candidates_exact as E.
  unfold KiAlt.five_candidates, Lattice.five_candidates in E.
  assert (E1 := f_equal (fun l => nth 0 l (0, 0)) E).
  assert (E2 := f_equal (fun l => nth 1 l (0, 0)) E).
  assert (E3 := f_equal (fun l => nth 2 l (0, 0)) E).
  assert (E4 := f_equal (fun l => nth 3 l (0, 0)) E).
  assert (E5 := f_equal (fun l => nth 4 l (0, 0)) E).
  cbn [nth] in E1, E2, E3, E4, E5. clear E.
  pose proof candidates_bounded as B.
  unfold Lattice.five_candidates in B.
  unfold KiAlt.min_dist, Lattice.min_dist, KiAlt.dist5, Lattice.dist5.
  rewrite E1, E2, E3, E4, E5.
  rewrite !np_manhattan_exact by (apply B; simpl; tauto).
  split; reflexivity.
Qed.

End NoWrap.

(* ===================================================================== *)
(** ** The exhaustive search against the five candidates                  *)
(* ===================================================================== *)

Section StaticVsDirect.

Variables p q width height x y : Z.
Hypothesis Hqp : (p - 1) / 2 = q.
Hypothesis Hq : 0 < q.
Hypothesis Hx : 0 <= x < width.
Hypothesis Hy : 0 <= y < height.

Lemma centers_of_eq :
  centers_of p width height
  = possible_centers q (grid_bound width q) (grid_bound height q).
Proof. unfold centers_of. now rewrite Hqp. Qed.

Lemma five_scanned (c : center) :
  In c (Lattice.five_candidates q x y) -> In c (centers_of p width height).
Proof.
  intros H. apply five_candidates_scanned with (X := x) (Y := y);
    rewrite ?Hqp; assumption.
Qed.

Lemma min_dist_le_center (c : center) :
  In c (centers_of p width height) -> Lattice.min_dist q x y <= manhattan x y c.
Proof.
  intros Hc. rewrite centers_of_eq in Hc.
  apply in_possible_centers in Hc as [(i & j & ->)|(i & j & ->)].
  - now apply min_dist_le_type1.
  - pose proof (dist5_le_type2 q Hq x y i j).
    pose proof (min_dist_le_dist5 q x y). lia.
Qed.

(** A scanned centre at the least distance is of type 1 unless the cell
    centre attains it. *)
Lemma nearest_is_type1 (c : center) :
  In c (centers_of p width height) ->
  manhattan x y c = Lattice.min_dist q x y ->
  Lattice.dist5 q x y <> Lattice.min_dist q x y ->
  exists i j, c = (2 * i * q, 2 * j * q).
Proof.
  intros Hc E N. rewrite centers_of_eq in Hc.
  apply in_possible_centers in Hc as [H|(i & j & ->)]; [assumption|].
  pose proof (dist5_le_type2 q Hq x y i j).
  pose proof (min_dist_le_dist5 q x y). lia.
Qed.

(** The scan ends with the distance the five candidates give. *)
Lemma scan_centers :
  scan x y (centers_of p width height)
  = (Some (Lattice.min_dist q x y),
     at_distance x y (Lattice.min_dist q x y) (centers_of p width height)).
Proof.
  destruct (min_dist_attained q x y) as (c5 & H5 & E5).
  pose proof (five_scanned c5 H5) as Hin.
  destruct (scan_spec x y (centers_of p width height))
    as (m & -> & Hmin & c & Hc & Ec).
  { intros E. rewrite E in Hin. contradiction. }
  replace m with (Lattice.min_dist q x y); [reflexivity|].
  pose proof (Hmin c5 Hin). pose proof (min_dist_le_center c Hc). lia.
Qed.

(** A tie always involves the centre of the pixel's cell. *)
Lemma tie_involves_cell_center (c1 c2 : center) (rest : list center) :
  at_distance x y (Lattice.min_dist q x y) (centers_of p width height)
  = c1 :: c2 :: rest ->
  Lattice.dist5 q x y = Lattice.min_dist q x y.
Proof.
  intros T.
  destruct (Z.eq_dec (Lattice.dist5 q x y) (Lattice.min_dist q x y)) as [|N];
    [assumption|exfalso].
  apply at_distance_split in T as (l1 & l2 & l3 & E & E1 & E2).
  assert (In c1 (centers_of p width height)) as H1
    by (rewrite E; apply in_or_app; right; now left).
  assert (In c2 (centers_of p width height)) as H2
    by (rewrite E; apply in_or_app; right; right;
        apply in_or_app; right; now left).
  destruct (nearest_is_type1 c1 H1 E1 N) as (i & j & ->).
  destruct (nearest_is_type1 c2 H2 E2 N) as (i' & j' & ->).
  pose proof (min_dist_lt_q q Hq x y N) as Hlt.
  unfold manhattan in E1, E2; cbn [fst snd] in E1, E2.
  assert (i = i') by (apply (close_type1_unique q Hq x); lia).
  assert (j = j') by (apply (close_type1_unique q Hq y); lia).
  subst i' j'.
  pose proof (possible_centers_NoDup q (grid_bound width q)
                (grid_bound height q) Hq) as ND.
  rewrite <- centers_of_eq, E in ND.
  apply NoDup_remove_2 in ND. apply ND.
  apply in_or_app; right. apply in_or_app; right. now left.
Qed.

Lemma type2_check_cell_center :
  is_type2_center
    ((x / (2 * q) * 2 + 1) * q, (y / (2 * q) * 2 + 1) * q) q = Ok true.
Proof.
  rewrite is_type2_center_ok by assumption. cbn [fst snd].
  rewrite !Z.div_mul by lia.
  rewrite !(Z.add_comm _ 1), !Z.mod_add by lia. reflexivity.
Qed.

Lemma type2_check_type1 (i j : Z) :
  is_type2_center (2 * i * q, 2 * j * q) q = Ok false.
Proof.
  rewrite is_type2_center_ok by assumption. cbn [fst snd].
  rewrite !Z.div_mul by lia.
  rewrite (Z.mul_comm 2 i), Z.mod_mul by lia. reflexivity.
Qed.

(** The decision of the animated path in exact integers. *)
Lemma pattern_pixel_exact (t : Z) :
  q < 2 ^ 31 -> width <= 2 ^ 31 -> height <= 2 ^ 31 ->
  KiAlt.min_dist q x y = Lattice.min_dist q x y
  /\ KiAlt.pattern_pixel q t p x y
     = (if Lattice.dist5 q x y =? Lattice.min_dist q x y
        then negb (Lattice.min_dist q x y <=? (t mod p) / 2)
        else Lattice.min_dist q x y <=? (t mod p) / 2).
Proof.
  intros Bq Bw Bh.
  destruct (min_dist_exact q x y) as [E5 Em]; try lia.
  unfold KiAlt.pattern_pixel, KiAlt.is_type2_nearest.
  rewrite E5, Em. split; reflexivity.
Qed.

(** The static decision at a pixel of the frame, case by case on the
    centres the scan keeps. *)
Lemma static_vs_direct_pixel (t : Z) :
  q < 2 ^ 31 -> width <= 2 ^ 31 -> height <= 2 ^ 31 ->
  match find_nearest_center x y p width height with
  | Ok (Some _) =>
      should_invert_pixel x y (t mod p) p width height
      = Ok (KiAlt.pattern_pixel q t p x y)
  | Ok None =>
      should_invert_pixel x y (t mod p) p width height = Ok false
      /\ KiAlt.pattern_pixel q t p x y
         = negb (KiAlt.min_dist q x y <=? (t mod p) / 2)
  | Raise _ => False
  end.
Proof.
  intros Bq Bw Bh.
  destruct (pattern_pixel_exact t Bq Bw Bh) as [-> ->].
  unfold should_invert_pixel. rewrite find_nearest_center_eq.
  rewrite scan_centers. cbn [snd bind].
  destruct (min_dist_attained q x y) as (c5 & H5 & E5).
  pose proof (five_scanned c5 H5) as Hin.
  assert (In c5 (at_distance x y (Lattice.min_dist q x y)
                   (centers_of p width height))) as Hkept.
  { apply filter_In. split; [assumption|]. now apply Z.eqb_eq. }
  destruct (at_distance x y (Lattice.min_dist q x y)
              (centers_of p width height)) as [|c [|c' rest]] eqn:K.
  - contradiction.
  - destruct Hkept as [<-|[]].
    rewrite Hqp. destruct (Z.gtb_spec q 0) as [_|]; [|lia].
    rewrite E5.
    destruct (Z.eqb_spec (Lattice.dist5 q x y) (Lattice.min_dist q x y))
      as [E|N].
    + (* the cell centre is nearest, hence it is the kept centre *)
      set (cc := ((x / (2 * q) * 2 + 1) * q, (y / (2 * q) * 2 + 1) * q)).
      assert (In cc (at_distance x y (Lattice.min_dist q x y)
                       (centers_of p width height))) as Hcc.
      { apply filter_In. split.
        - apply five_scanned.
          unfold Lattice.five_candidates. fold cc. simpl. tauto.
        - apply Z.eqb_eq. exact E. }
      rewrite K in Hcc. destruct Hcc as [->|[]]. unfold cc.
      rewrite type2_check_cell_center. reflexivity.
    + destruct (nearest_is_type1 c) as (i & j & ->);
        [assumption|assumption|assumption|].
      rewrite type2_check_type1. reflexivity.
  - split; [reflexivity|].
    rewrite (tie_involves_cell_center c c' rest K), Z.eqb_refl.
    reflexivity.
Qed.

End StaticVsDirect.

(* ===================================================================== *)
(** ** The animated mask as a whole                                       *)
(* ===================================================================== *)

Section DirectMask.

Lemma direct_mask_ok (self : KiAlt.t)
  (width height p t frame_counter : Z) :
  0 < (p - 1) / 2 -> 2 * ((p - 1) / 2) < 2 ^ 63 -> 0 <= t ->
  KiAlt._generate_ki_alternate_mask_direct
    self (height, width) t p frame_counter
  = Ok (KiAlt.set_cached_frame_size
          (KiAlt.set_invert_mask self
             (Some (if (frame_counter / p) mod 2 =? 1
                    then KiAlt.invert
                           (KiAlt.pattern_mask ((p - 1) / 2) t p height width)
                    else KiAlt.pattern_mask ((p - 1) / 2) t p height width)))
          (Some (height, width))).
Proof.
  intros Hq Bq Ht.
  unfold KiAlt._generate_ki_alternate_mask_direct, KiAlt.mask_direct_guarded,
    KiAlt.mask_direct_body.
  assert (0 < p) as Hp.
  { destruct (Z_lt_le_dec 0 p) as [|L]; [assumption|].
    assert ((p - 1) / 2 < 0) by (apply Z.div_lt_upper_bound; lia). lia. }
  destruct (Z.leb_spec p 0); [lia|].
  destruct (Z.ltb_spec t 0); [lia|].
  destruct (Z.leb_spec ((p - 1) / 2) 0); [lia|].
  destruct (Z.leb_spec (2 ^ 63) (2 * ((p - 1) / 2))); [lia|].
  reflexivity.
Qed.

(** A pitch whose [2 * q] does not fit in [int64]: the statements under
    [try:] raise and the handler stores an all-false mask. *)
Lemma direct_mask_overflow (self : KiAlt.t)
  (width height p t frame_counter : Z) :
  2 ^ 63 <= 2 * ((p - 1) / 2) -> 0 <= t -> 0 <= width -> 0 <= height ->
  KiAlt._generate_ki_alternate_mask_direct
    self (height, width) t p frame_counter
  = Ok (KiAlt.set_cached_frame_size
          (KiAlt.set_invert_mask self
             (Some (repeat (repeat false (Z.to_nat width))
                           (Z.to_nat height))))
          (Some (height, width))).
Proof.
  intros Bq Ht Hw Hh.
  unfold KiAlt._generate_ki_alternate_mask_direct, KiAlt.mask_direct_guarded,
    KiAlt.mask_direct_body, KiAlt.mask_direct_handler.
  assert (0 < (p - 1) / 2) as Hq
    by (change (2 ^ 63) with 9223372036854775808 in Bq; lia).
  assert (0 < p) as Hp.
  { destruct (Z_lt_le_dec 0 p) as [|L]; [assumption|].
    assert ((p - 1) / 2 < 0) by (apply Z.div_lt_upper_bound; lia). lia. }
  destruct (Z.leb_spec p 0); [lia|].
  destruct (Z.ltb_spec t 0); [lia|].
  destruct (Z.leb_spec ((p - 1) / 2) 0); [lia|].
  destruct (Z.leb_spec (2 ^ 63) (2 * ((p - 1) / 2))); [|lia].
  cbn [orb try_except]. now rewrite np_zeros_ok by assumption.
Qed.

Lemma direct_mask_degenerate (self : KiAlt.t)
  (width height p t frame_counter : Z) :
  (p - 1) / 2 <= 0 -> 0 <= width -> 0 <= height ->
  KiAlt._generate_ki_alternate_mask_direct
    self (height, width) t p frame_counter
  = Ok (KiAlt.set_invert_mask self
          (Some (repeat (repeat false (Z.to_nat width))
                        (Z.to_nat height)))).
Proof.
  intros Hq Hw Hh.
  unfold KiAlt._generate_ki_alternate_mask_direct, KiAlt.mask_direct_guarded,
    KiAlt.mask_direct_body.
  rewrite np_zeros_ok by assumption.
  destruct ((p <=? 0) || (t <? 0)); [reflexivity|].
  destruct (Z.leb_spec ((p - 1) / 2) 0); [reflexivity|lia].
Qed.

End DirectMask.

(** C1 (as amended).  For a pitch with [q > 0], a non-negative time and an
    even cycle number, pitch and frame sizes being at most 2^31 (so that
    the 64-bit array arithmetic does not wrap): the mask of the animated
    generator and the mask of the static exhaustive search at time
    [t mod p] agree at every pixel of the frame that has a single nearest
    centre.  Where several centres tie, the static mask is false and the
    animated mask is the negation of [min_dist <= threshold].  In both
    cases the least distance over the five candidates is the least
    distance over all lattice centres of the plane, and one of the five
    attains it. *)
Theorem direct_mask_agrees_off_ties
  (self : KiAlt.t) (width height p t frame_counter x y : Z) :
  0 < (p - 1) / 2 -> 0 <= t -> (frame_counter / p) mod 2 <> 1 ->
  0 <= x < width -> 0 <= y < height ->
  p <= 2 ^ 31 -> width <= 2 ^ 31 -> height <= 2 ^ 31 ->
  exists bd bs,
    animated_at self width height t p frame_counter y x = Some bd
    /\ static_at width height (t mod p) p y x = Some bs
    /\ (forall i j,
           KiAlt.min_dist ((p - 1) / 2) x y
           <= manhattan x y (2 * i * ((p - 1) / 2), 2 * j * ((p - 1) / 2))
           /\ KiAlt.min_dist ((p - 1) / 2) x y
              <= manhattan x y ((2 * i + 1) * ((p - 1) / 2),
                                (2 * j + 1) * ((p - 1) / 2)))
    /\ (exists c, In c (KiAlt.five_candidates ((p - 1) / 2) x y)
                  /\ manhattan x y c = KiAlt.min_dist ((p - 1) / 2) x y)
    /\ match find_nearest_center x y p width height with
       | Ok (Some _) => bd = bs
       | Ok None =>
           bs = false
           /\ bd = negb (KiAlt.min_dist ((p - 1) / 2) x y <=? (t mod p) / 2)
       | Raise _ => False
       end.
Proof.
  intros Hq Ht Hcycle Hx Hy Bp Bw Bh.
  assert ((p - 1) / 2 < 2 ^ 31) as Bq.
  { change (2 ^ 31) with 2147483648 in *.
    apply Z.div_lt_upper_bound; lia. }
  destruct (min_dist_exact ((p - 1) / 2) x y) as [_ Em]; try lia.
  unfold animated_at, static_at.
  rewrite direct_mask_ok
    by (try assumption; change (2 ^ 31) with 2147483648 in Bq;
        change (2 ^ 63) with 9223372036854775808; lia).
  rewrite generate_mask_ok by lia. cbn [KiAlt.invert_mask
    KiAlt.set_cached_frame_size KiAlt.set_invert_mask].
  destruct (Z.eqb_spec ((frame_counter / p) mod 2) 1); [contradiction|].
  unfold KiAlt.pattern_mask.
  rewrite (mask_at_grid (KiAlt.pattern_pixel ((p - 1) / 2) t p))
    by assumption.
  rewrite (mask_at_grid (fun x y => evaluate x y (t mod p) p width height))
    by assumption.
  eexists _, _.
  split; [reflexivity|]. split; [reflexivity|].
  split.
  { intros i j. rewrite Em. split.
    - now apply min_dist_le_type1.
    - pose proof (dist5_le_type2 _ Hq x y i j).
      pose proof (min_dist_le_dist5 ((p - 1) / 2) x y). lia. }
  split.
  { rewrite Em, five_candidates_exact by lia. now apply min_dist_attained. }
  pose proof (static_vs_direct_pixel p ((p - 1) / 2) width height x y
                eq_refl Hq Hx Hy t Bq Bw Bh) as S.
  rewrite should_invert_pixel_evaluate in S.
  destruct (find_nearest_center x y p width height) as [[c|]|e].
  - now inversion S.
  - destruct S as [S1 S2]. split; [now inversion S1|assumption].
  - assumption.
Qed.

Lemma direct_mask_agrees_off_ties_witness :
  exists bd bs,
    animated_at (KiAlt.init []) 10 10 3 9 3 1 5 = Some bd
    /\ static_at 10 10 (3 mod 9) 9 1 5 = Some bs.
Proof.
  destruct (direct_mask_agrees_off_ties (KiAlt.init []) 10 10 9 3 3 5 1)
    as (bd & bs & A & B & _);
    [reflexivity | lia | vm_compute; discriminate | lia | lia
     | vm_compute; discriminate | vm_compute; discriminate
     | vm_compute; discriminate |].
  exists bd, bs. split; assumption.
Defined.

(** Beyond those sizes the array arithmetic wraps: with pitch 2^63 - 1
    the pixel (1, 0) of a 2 by 1 frame has the single nearest centre
    (0, 0), yet [min_dist] comes out negative and the two masks differ. *)
Lemma direct_mask_wraps_for_huge_pitch :
  find_nearest_center 1 0 (2 ^ 63 - 1) 2 1 = Ok (Some (0, 0))
  /\ KiAlt.min_dist ((2 ^ 63 - 1 - 1) / 2) 1 0 = -5
  /\ animated_at (KiAlt.init []) 2 1 0 (2 ^ 63 - 1) 0 0 1 = Some true
  /\ static_at 2 1 (0 mod (2 ^ 63 - 1)) (2 ^ 63 - 1) 0 1 = Some false.
Proof. repeat split; vm_compute; reflexivity. Qed.

(** C1 (as stated) fails: on a 10 by 10 frame with pitch 9 at time 0 and
    cycle 0, the pixel (2, 2) is at distance 4 from both (0, 0) and (4, 4);
    the animated mask inverts it and the static mask does not. *)
Lemma direct_mask_differs_at_tie :
  animated_at (KiAlt.init []) 10 10 0 9 0 2 2 = Some true
  /\ static_at 10 10 (0 mod 9) 9 2 2 = Some false.
Proof. split; vm_compute; reflexivity. Qed.

(* ===================================================================== *)
(** ** Periodicity in the animation clock                                 *)
(* ===================================================================== *)

Section Periodicity.

Lemma pattern_pixel_shift (q t p X Y : Z) :
  KiAlt.pattern_pixel q (t + p) p X Y = KiAlt.pattern_pixel q t p X Y.
Proof.
  unfold KiAlt.pattern_pixel.
  destruct (Z.eq_dec p 0) as [->|Hp].
  - now rewrite !Z.mod_0_r, Z.add_0_r.
  - replace (t + p) with (t + 1 * p) by ring.
    now rewrite Z.mod_add by assumption.
Qed.

Lemma pattern_mask_shift (q t p height width : Z) :
  KiAlt.pattern_mask q (t + p) p height width
  = KiAlt.pattern_mask q t p height width.
Proof.
  unfold KiAlt.pattern_mask.
  apply map_ext. intros Y. apply map_ext. intros X.
  apply pattern_pixel_shift.
Qed.

Lemma cycle_parity_shift (clock p : Z) :
  0 < p -> ((clock + 2 * p) / p) mod 2 = (clock / p) mod 2.
Proof.
  intros Hp. rewrite Z.div_add by lia.
  replace (clock / p + 2) with (clock / p + 1 * 2) by ring.
  now rewrite Z.mod_add by lia.
Qed.

Lemma cycle_parity_half (clock p : Z) :
  0 < p ->
  (((clock + p) / p) mod 2 =? 1) = negb ((clock / p) mod 2 =? 1).
Proof.
  intros Hp. replace (clock + p) with (clock + 1 * p) by ring.
  rewrite Z.div_add by lia.
  pose proof (Z.mod_pos_bound (clock / p) 2 ltac:(lia)).
  pose proof (Z.mod_pos_bound (clock / p + 1) 2 ltac:(lia)).
  pose proof (Z.div_mod (clock / p) 2 ltac:(lia)).
  pose proof (Z.div_mod (clock / p + 1) 2 ltac:(lia)).
  destruct (Z.eqb_spec ((clock / p + 1) mod 2) 1),
           (Z.eqb_spec ((clock / p) mod 2) 1); simpl; try reflexivity; lia.
Qed.

End Periodicity.

(** C2 (as amended).  For a pitch with [q > 0] that fits the int64
    arrays ([p <= 2^63]):
    the pattern computed before the cycle flip has period [p] in the time
    parameter, because the time is reduced modulo [p] before it drives the
    threshold; the mask [process_frame] asks for at clock value [n] (time
    [n mod p], frame counter [n]) has period [2 p] in [n], and a shift of
    [n] by [p] negates it at every pixel. *)
Theorem animated_mask_periodic
  (self : KiAlt.t) (width height p n x y : Z) :
  0 < (p - 1) / 2 -> p <= 2 ^ 63 -> 0 <= n ->
  KiAlt.pattern_mask ((p - 1) / 2) (n + p) p height width
  = KiAlt.pattern_mask ((p - 1) / 2) n p height width
  /\ KiAlt._generate_ki_alternate_mask_direct
       self (height, width) ((n + 2 * p) mod p) p (n + 2 * p)
     = KiAlt._generate_ki_alternate_mask_direct
         self (height, width) (n mod p) p n
  /\ animated_at self width height ((n + p) mod p) p (n + p) y x
     = option_map negb (animated_at self width height (n mod p) p n y x).
Proof.
  intros Hq Bp Hn.
  assert (0 < p) as Hp.
  { destruct (Z_lt_le_dec 0 p) as [|L]; [assumption|].
    assert ((p - 1) / 2 < 0) by (apply Z.div_lt_upper_bound; lia). lia. }
  assert (2 * ((p - 1) / 2) < 2 ^ 63) as Bq.
  { pose proof (Z.mul_div_le (p - 1) 2 ltac:(lia)). lia. }
  assert ((n + p) mod p = n mod p) as E1.
  { replace (n + p) with (n + 1 * p) by ring. apply Z.mod_add. lia. }
  assert ((n + 2 * p) mod p = n mod p) as E2 by (apply Z.mod_add; lia).
  pose proof (Z.mod_pos_bound n p Hp) as Hm.
  split; [apply pattern_mask_shift|].
  split.
  { rewrite E2, !direct_mask_ok by (try assumption; lia).
    now rewrite cycle_parity_shift by assumption. }
  unfold animated_at. rewrite E1, !direct_mask_ok by (try assumption; lia).
  cbn [KiAlt.invert_mask KiAlt.set_cached_frame_size
       KiAlt.set_invert_mask].
  rewrite cycle_parity_half by assumption.
  destruct ((n / p) mod 2 =? 1); cbn [negb]; rewrite mask_at_invert.
  - destruct (mask_at _ y x); simpl; [|reflexivity].
    now rewrite negb_involutive.
  - reflexivity.
Qed.

Lemma animated_mask_periodic_witness :
  KiAlt.pattern_mask ((9 - 1) / 2) (3 + 9) 9 10 10
  = KiAlt.pattern_mask ((9 - 1) / 2) 3 9 10 10.
Proof.
  apply (animated_mask_periodic (KiAlt.init []) 10 10 9 3 0 0);
    [reflexivity | vm_compute; discriminate | lia].
Defined.

(** C2 (as stated) fails for [should_invert_pixel], whose threshold is
    [time // 2] with no reduction of the time: with pitch 9 the pixel
    (1, 0), at distance 1 from the centre (0, 0), is not inverted at time 0
    and is inverted at time 0 + 9. *)
Lemma static_evaluate_not_periodic :
  0 < (9 - 1) / 2
  /\ should_invert_pixel 1 0 0 9 10 10 = Ok false
  /\ should_invert_pixel 1 0 (0 + 9) 9 10 10 = Ok true.
Proof. repeat split; vm_compute; reflexivity. Qed.

(* ===================================================================== *)
(** ** Ties in the exhaustive search                                      *)
(* ===================================================================== *)

Section Ties.

Lemma at_distance_all (x y m : Z) (cs : list center) :
  (forall c, In c cs -> manhattan x y c = m) -> at_distance x y m cs = cs.
Proof.
  induction cs as [|c cs IH]; intros H; simpl; [reflexivity|].
  rewrite (H c (or_introl eq_refl)), Z.eqb_refl. f_equal.
  apply IH. intros c' Hc'. apply H. now right.
Qed.

(** In [ki_alternate_algorithm.py], two entries of the scanned list at
    the least distance leave the pixel as it is, whatever the time and the
    pitch. *)
Lemma static_tie_remains_original
  (x y t p width height : Z) (l1 l2 l3 : list center) (c1 c2 : center) :
  centers_of p width height = l1 ++ c1 :: l2 ++ c2 :: l3 ->
  manhattan x y c1 = manhattan x y c2 ->
  (forall c, In c (centers_of p width height) ->
             manhattan x y c1 <= manhattan x y c) ->
  find_nearest_center x y p width height = Ok None
  /\ should_invert_pixel x y t p width height = Ok false.
Proof.
  intros E E12 Hmin.
  assert (find_nearest_center x y p width height = Ok None) as F.
  { rewrite find_nearest_center_eq.
    destruct (scan_spec x y (centers_of p width height))
      as (m & -> & Hm & c & Hc & Ec).
    { rewrite E. now destruct l1. }
    assert (In c1 (centers_of p width height)) as H1
      by (rewrite E; apply in_or_app; right; now left).
    assert (m = manhattan x y c1) as ->
      by (pose proof (Hm c1 H1); pose proof (Hmin c Hc); lia).
    cbn [snd]. rewrite E.
    pose proof (at_distance_two x y (manhattan x y c1) l1 l2 l3 c1 c2
                  eq_refl (eq_sym E12)) as L.
    destruct (at_distance x y (manhattan x y c1)
                (l1 ++ c1 :: l2 ++ c2 :: l3)) as [|a [|b l]];
      simpl in L; try lia. reflexivity. }
  split; [assumption|].
  unfold should_invert_pixel. now rewrite F.
Qed.

End Ties.

(** C3.  The claim holds of [ki_alternate_algorithm.py]
    ([static_tie_remains_original]); the copy of the search kept in
    [KiAlt] breaks it.  On a 10 by 10 frame with pitch 9 the pixel (2, 2)
    is at distance 4 from both (0, 0) and (4, 4): the reference search
    returns [None] and the reference decision is [False] at every time,
    while [KiAlt._find_nearest_center] returns [(0, 0)] and
    [KiAlt._should_invert_pixel] returns [True] at time 8. *)
Theorem KiAlt_tie_is_inverted :
  manhattan 2 2 (0, 0) = manhattan 2 2 (4, 4)
  /\ In (0, 0) (centers_of 9 10 10)
  /\ In (4, 4) (centers_of 9 10 10)
  /\ find_nearest_center 2 2 9 10 10 = Ok None
  /\ should_invert_pixel 2 2 8 9 10 10 = Ok false
  /\ KiAlt._find_nearest_center 2 2 9 10 10 = Ok (0, 0)
  /\ KiAlt._should_invert_pixel 2 2 8 9 10 10 = Ok true.
Proof.
  split; [reflexivity|].
  split; [vm_compute; tauto|].
  split; [vm_compute; tauto|].
  repeat split; vm_compute; reflexivity.
Qed.

(* ===================================================================== *)
(** ** Degenerate pitch                                                   *)
(* ===================================================================== *)

Section Degenerate.

(** With [q = 0] every scanned centre is the origin, 32 times over. *)
Lemma centers_of_degenerate (p width height : Z) :
  (p - 1) / 2 = 0 ->
  centers_of p width height = repeat (0, 0) 32.
Proof.
  intros Hq. unfold centers_of. rewrite Hq. reflexivity.
Qed.

Lemma should_invert_pixel_degenerate (x y t p width height : Z) :
  (p - 1) / 2 = 0 ->
  should_invert_pixel x y t p width height = Ok false.
Proof.
  intros Hq. unfold should_invert_pixel.
  rewrite find_nearest_center_eq, centers_of_degenerate by assumption.
  destruct (scan_spec x y (repeat (0, 0) 32))
    as (m & -> & Hm & c & Hc & Ec); [discriminate|].
  cbn [snd]. rewrite at_distance_all.
  - reflexivity.
  - intros c' Hc'. apply repeat_spec in Hc, Hc'. now subst.
Qed.

Lemma const_grid (b : bool) (width height : Z) :
  map (fun _ : Z => map (fun _ : Z => b) (range 0 width)) (range 0 height)
  = repeat (repeat b (Z.to_nat width)) (Z.to_nat height).
Proof.
  rewrite (map_const b (range 0 width)), map_const.
  now rewrite !range_length, !Z.sub_0_r.
Qed.

End Degenerate.

(** C4 (as amended).  For a degenerate pitch, [q = (p - 1) // 2 <= 0],
    the animated generator stores an all-false mask of the frame's shape,
    whatever the time and the frame counter, and does not raise; the
    static [generate_mask] returns the same all-false mask for a positive
    pitch, that is for [p = 1] and [p = 2]. *)
Theorem degenerate_pitch_never_inverts
  (self : KiAlt.t) (width height p t frame_counter : Z) :
  (p - 1) / 2 <= 0 -> 0 <= width -> 0 <= height -> 0 <= t ->
  (exists self',
      KiAlt._generate_ki_alternate_mask_direct
        self (height, width) t p frame_counter = Ok self'
      /\ KiAlt.invert_mask self'
         = Some (repeat (repeat false (Z.to_nat width)) (Z.to_nat height)))
  /\ (0 < p ->
      generate_mask width height t p
      = Ok (repeat (repeat false (Z.to_nat width)) (Z.to_nat height))).
Proof.
  intros Hq Hw Hh Ht. split.
  - eexists. split; [now apply direct_mask_degenerate|reflexivity].
  - intros Hp. rewrite generate_mask_ok by assumption. f_equal.
    assert ((p - 1) / 2 = 0) as Hq0.
    { pose proof (Z.div_pos (p - 1) 2 ltac:(lia) ltac:(lia)). lia. }
    rewrite <- const_grid.
    apply map_ext. intros y. apply map_ext. intros x. unfold evaluate.
    now rewrite should_invert_pixel_degenerate.
Qed.

Lemma degenerate_pitch_never_inverts_witness :
  generate_mask 3 2 5 1 = Ok [[false; false; false]; [false; false; false]].
Proof.
  apply (degenerate_pitch_never_inverts (KiAlt.init []) 3 2 1 5 5);
    [vm_compute; discriminate | lia | lia | lia | lia].
Defined.

(** C4 (as stated) fails for the static generator: the search has no
    guard for a pitch below 1.  With pitch 0 ([q = -1]) the centres are
    laid out with a negative step, the pixel (0, 0) has the single nearest
    centre (0, 0) at distance 0, and the type test is passed over, so at
    time 0 a 3 by 2 frame comes back with three pixels inverted. *)
Lemma static_mask_inverts_at_pitch_zero :
  (0 - 1) / 2 <= 0
  /\ generate_mask 3 2 0 0
     = Ok [[true; false; true]; [false; true; false]].
Proof. split; vm_compute; [discriminate|reflexivity]. Qed.

(* ===================================================================== *)
(** ** The controls of the effect                                         *)
(* ===================================================================== *)

Section Controls.

Ltac branch :=
  match goal with
  | |- context [if ?b then _ else _] => destruct b eqn:?
  | |- context [match ?l with [] => _ | _ :: _ => _ end] => destruct l eqn:?
  | |- context [match ?r with Ok _ => _ | Raise _ => _ end] =>
      destruct r eqn:?
  end.

Lemma clamp_keeps_residue (w : Z) :
  w mod 10 = 9 -> 9 <= w <= 199 ->
  Z.max 9 (Z.min 199 (w + 10)) mod 10 = 9
  /\ Z.max 9 (Z.min 199 (w - 10)) mod 10 = 9.
Proof.
  intros Hmod Hrange.
  assert ((w + 10) mod 10 = 9) as Hup.
  { replace (w + 10) with (w + 1 * 10) by ring.
    now rewrite Z.mod_add by lia. }
  assert ((w - 10) mod 10 = 9) as Hdown.
  { replace (w - 10) with (w + -1 * 10) by ring.
    now rewrite Z.mod_add by lia. }
  split.
  - destruct (Z_le_gt_dec (w + 10) 199).
    + now replace (Z.max 9 (Z.min 199 (w + 10))) with (w + 10) by lia.
    + now replace (Z.max 9 (Z.min 199 (w + 10))) with 199 by lia.
  - destruct (Z_le_gt_dec 9 (w - 10)).
    + now replace (Z.max 9 (Z.min 199 (w - 10))) with (w - 10) by lia.
    + now replace (Z.max 9 (Z.min 199 (w - 10))) with 9 by lia.
Qed.

Lemma controls_inv_init (loaded : list GradientOverlaySimple.gradient) :
  controls_inv (KiAlt.init loaded).
Proof. unfold controls_inv, KiAlt.init; simpl. repeat split; lia. Qed.

Lemma controls_inv_key (self : KiAlt.t) (key : Z) :
  controls_inv self -> controls_inv (fst (KiAlt.handle_key_press self key)).
Proof.
  intros (Hmin & Hmax & Hmod & Hrange & Hop).
  unfold KiAlt.handle_key_press, KiAlt.step_gradient, KiAlt.set_parameter.
  cbn [String.eqb Ascii.eqb Bool.eqb fst snd].
  repeat branch;
    unfold controls_inv;
    cbn [fst KiAlt.min_pixel_width KiAlt.max_pixel_width KiAlt.pixel_width
         KiAlt.gradient_opacity KiAlt.set_active KiAlt.set_pixel_width
         KiAlt.set_global_frame_counter KiAlt.set_time_multiplier
         KiAlt.set_gradient_opacity KiAlt.set_gradient_system py_int] in *;
    rewrite ?Hmin, ?Hmax;
    repeat split; try lia.
  all: destruct (clamp_keeps_residue (KiAlt.pixel_width self) Hmod Hrange);
    assumption.
Qed.

Lemma controls_inv_reset (self : KiAlt.t) :
  controls_inv self -> controls_inv (KiAlt.reset self).
Proof.
  intros (Hmin & Hmax & _). unfold controls_inv, KiAlt.reset; simpl.
  repeat split; try assumption; lia.
Qed.

Lemma controls_inv_run (cs : list KiAlt.control) (self : KiAlt.t) :
  controls_inv self -> controls_inv (KiAlt.apply_controls self cs).
Proof.
  unfold KiAlt.apply_controls. revert self.
  induction cs as [|c cs IH]; intros self H; simpl; [assumption|].
  apply IH. destruct c; simpl.
  - now apply controls_inv_key.
  - now apply controls_inv_reset.
Qed.

End Controls.

(** C9.  Pressing ']' with the see-saw opacity at 100 stores -100, pressing
    '[' with it at -100 stores 100; and after any sequence of key presses
    and resets from the initial state the opacity lies in [-100, 100]. *)
Theorem opacity_wraps_within_range :
  (forall self, KiAlt.gradient_opacity self = 100 ->
     KiAlt.gradient_opacity (fst (KiAlt.handle_key_press self (ord "]")))
     = -100)
  /\ (forall self, KiAlt.gradient_opacity self = -100 ->
        KiAlt.gradient_opacity (fst (KiAlt.handle_key_press self (ord "[")))
        = 100)
  /\ (forall loaded cs,
        -100 <= KiAlt.gradient_opacity
                  (KiAlt.apply_controls (KiAlt.init loaded) cs) <= 100).
Proof.
  split; [|split].
  - intros self H. unfold KiAlt.handle_key_press.
    change (ord "]") with 93. change (ord "s") with 115.
    change (ord "r") with 114. change (ord "+") with 43.
    change (ord "=") with 61. change (ord "-") with 45.
    cbn [Z.eqb Pos.eqb orb fst]. cbn [KiAlt.set_gradient_opacity
      KiAlt.gradient_opacity]. rewrite H. reflexivity.
  - intros self H. unfold KiAlt.handle_key_press.
    change (ord "]") with 93. change (ord "s") with 115.
    change (ord "r") with 114. change (ord "+") with 43.
    change (ord "=") with 61. change (ord "-") with 45.
    change (ord "[") with 91.
    cbn [Z.eqb Pos.eqb orb fst]. cbn [KiAlt.set_gradient_opacity
      KiAlt.gradient_opacity]. rewrite H. reflexivity.
  - intros loaded cs.
    apply (controls_inv_run cs (KiAlt.init loaded)
             (controls_inv_init loaded)).
Qed.

Lemma opacity_wraps_within_range_witness :
  KiAlt.gradient_opacity
    (fst (KiAlt.handle_key_press (KiAlt.init []) (ord "]"))) = -100
  /\ KiAlt.gradient_opacity
       (fst (KiAlt.handle_key_press
               (KiAlt.set_gradient_opacity (KiAlt.init []) (-100))
               (ord "["))) = 100.
Proof.
  destruct opacity_wraps_within_range as (Hup & Hdown & _).
  split; [apply Hup | apply Hdown]; reflexivity.
Defined.

(** C10.  From the initial pitch 19, after any sequence of key presses
    (among them the two arrows that change the pitch by 10) and resets,
    the pitch is odd, lies in [9, 199], the configured bounds being 9 and
    199, and its half-pitch [q = (p - 1) // 2] is positive. *)
Theorem pitch_stays_odd_and_clamped
  (loaded : list GradientOverlaySimple.gradient)
  (cs : list KiAlt.control) :
  KiAlt.pixel_width (KiAlt.init loaded) = 19
  /\ KiAlt.pixel_width (KiAlt.apply_controls (KiAlt.init loaded) cs) mod 2 = 1
  /\ KiAlt.min_pixel_width (KiAlt.apply_controls (KiAlt.init loaded) cs)
     <= KiAlt.pixel_width (KiAlt.apply_controls (KiAlt.init loaded) cs)
     <= KiAlt.max_pixel_width (KiAlt.apply_controls (KiAlt.init loaded) cs)
  /\ KiAlt.min_pixel_width (KiAlt.apply_controls (KiAlt.init loaded) cs) = 9
  /\ KiAlt.max_pixel_width (KiAlt.apply_controls (KiAlt.init loaded) cs)
     = 199
  /\ 0 < (KiAlt.pixel_width (KiAlt.apply_controls (KiAlt.init loaded) cs)
          - 1) / 2.
Proof.
  split; [reflexivity|].
  destruct (controls_inv_run cs (KiAlt.init loaded)
              (controls_inv_init loaded))
    as (Hmin & Hmax & Hmod & Hrange & _).
  set (w := KiAlt.pixel_width
              (KiAlt.apply_controls (KiAlt.init loaded) cs)) in *.
  rewrite Hmin, Hmax.
  pose proof (Z.div_mod w 10 ltac:(lia)).
  pose proof (Z.div_mod w 2 ltac:(lia)).
  pose proof (Z.mod_pos_bound w 2 ltac:(lia)).
  repeat split; try lia.
  apply Z.div_str_pos. lia.
Qed.

(* ===================================================================== *)
(** ** Rationals standing for floats                                      *)
(* ===================================================================== *)

Section QFacts.

Lemma Qltb_true (a b : Q) : Qltb a b = true <-> (a < b)%Q.
Proof.
  unfold Qltb. rewrite negb_true_iff. split.
  - intros H. apply Qnot_le_lt. intros L. apply Qle_bool_iff in L. congruence.
  - intros H. destruct (Qle_bool b a) eqn:E; [|reflexivity].
    apply Qle_bool_iff in E. exfalso. now apply (Qlt_not_le a b).
Qed.

Lemma Qltb_false (a b : Q) : Qltb a b = false <-> (b <= a)%Q.
Proof.
  unfold Qltb. rewrite negb_false_iff. apply Qle_bool_iff.
Qed.

Lemma Qtrunc_inject (v : Q) (c : Z) : (v == inject_Z c)%Q -> Qtrunc v = c.
Proof.
  unfold Qeq, Qtrunc; simpl. intros E. rewrite Z.mul_1_r in E. rewrite E.
  apply Z.quot_mul. discriminate.
Qed.

Lemma clip_inject (v : Q) (c : Z) :
  (v == inject_Z c)%Q -> 0 <= c <= 255 ->
  GradientOverlaySimple.clip_0_255 v = v.
Proof.
  intros E Hc. unfold GradientOverlaySimple.clip_0_255.
  assert (Qltb v 0 = false) as ->.
  { apply Qltb_false. rewrite E. change 0%Q with (inject_Z 0).
    rewrite <- Zle_Qle. lia. }
  assert (Qltb 255 v = false) as ->.
  { apply Qltb_false. rewrite E. change 255%Q with (inject_Z 255).
    rewrite <- Zle_Qle. lia. }
  reflexivity.
Qed.

Lemma clamp01_id (v : Q) :
  (0 <= v <= 1)%Q -> (GradientOverlaySimple.clamp01 v == v)%Q.
Proof.
  intros [H0 H1]. unfold GradientOverlaySimple.clamp01.
  destruct (Qltb v 1) eqn:E1.
  - destruct (Qltb 0 v) eqn:E0; [reflexivity|].
    apply Qltb_false in E0. now apply Qle_antisym.
  - apply Qltb_false in E1.
    assert (Qltb 0 1 = true) as -> by reflexivity.
    now apply Qle_antisym.
Qed.

Lemma lerp_at_0 (t : Q) (c1 c2 : Z) :
  (t == 0)%Q -> (inject_Z c1 + t * inject_Z (c2 - c1) == inject_Z c1)%Q.
Proof. intros ->. ring. Qed.

Lemma lerp_at_1 (t : Q) (c1 c2 : Z) :
  (t == 1)%Q -> (inject_Z c1 + t * inject_Z (c2 - c1) == inject_Z c2)%Q.
Proof.
  intros ->. unfold Z.sub. rewrite inject_Z_plus, inject_Z_opp. ring.
Qed.

End QFacts.

(* ===================================================================== *)
(** ** Gradient interpolation                                             *)
(* ===================================================================== *)

Section Interpolation.

Import GradientOverlaySimple.

Lemma valid_color_shape (c : list Z) :
  valid_color c ->
  exists r g b tl,
    c = r :: g :: b :: tl
    /\ 0 <= r <= 255 /\ 0 <= g <= 255 /\ 0 <= b <= 255.
Proof.
  intros [L F]. destruct c as [|r [|g [|b tl]]]; simpl in L; try lia.
  inversion F as [|? ? Hr F1]; subst.
  inversion F1 as [|? ? Hg F2]; subst.
  inversion F2 as [|? ? Hb F3]; subst.
  exists r, g, b, tl. repeat split; lia.
Qed.

Lemma getitem_rgb (r g b : Z) (tl : list Z) :
  getitem (r :: g :: b :: tl) 0 = Ok r
  /\ getitem (r :: g :: b :: tl) 1 = Ok g
  /\ getitem (r :: g :: b :: tl) 2 = Ok b.
Proof. repeat split. Qed.

Lemma interpolate_channels_shape (s1 s2 : color_stop) (t : Q)
  (r1 g1 b1 r2 g2 b2 : Z) (tl1 tl2 : list Z) :
  color s1 = r1 :: g1 :: b1 :: tl1 ->
  color s2 = r2 :: g2 :: b2 :: tl2 ->
  interpolate_channels s1 s2 t
  = Ok [Qtrunc (clip_0_255 (inject_Z r1 + t * inject_Z (r2 - r1))%Q);
        Qtrunc (clip_0_255 (inject_Z g1 + t * inject_Z (g2 - g1))%Q);
        Qtrunc (clip_0_255 (inject_Z b1 + t * inject_Z (b2 - b1))%Q)].
Proof.
  intros E1 E2. unfold interpolate_channels. rewrite E1, E2.
  change (range 0 3) with [0; 1; 2]. unfold mapM.
  destruct (getitem_rgb r1 g1 b1 tl1) as (-> & -> & ->).
  destruct (getitem_rgb r2 g2 b2 tl2) as (-> & -> & ->).
  reflexivity.
Qed.

Lemma interpolate_channels_at_0 (s1 s2 : color_stop) (t : Q) :
  (t == 0)%Q -> valid_color (color s1) -> valid_color (color s2) ->
  interpolate_channels s1 s2 t = Ok (firstn 3 (color s1)).
Proof.
  intros Ht V1 V2.
  destruct (valid_color_shape _ V1) as (r1 & g1 & b1 & tl1 & E1 & ? & ? & ?).
  destruct (valid_color_shape _ V2) as (r2 & g2 & b2 & tl2 & E2 & _).
  rewrite (interpolate_channels_shape s1 s2 t _ _ _ _ _ _ _ _ E1 E2), E1.
  assert (forall c1 c2, 0 <= c1 <= 255 ->
            Qtrunc (clip_0_255 (inject_Z c1 + t * inject_Z (c2 - c1))%Q) = c1)
    as HT.
  { intros c1 c2 Hc. rewrite (clip_inject _ c1); [|now apply lerp_at_0|lia].
    apply Qtrunc_inject. now apply lerp_at_0. }
  rewrite !HT by assumption. reflexivity.
Qed.

Lemma interpolate_channels_at_1 (s1 s2 : color_stop) (t : Q) :
  (t == 1)%Q -> valid_color (color s1) -> valid_color (color s2) ->
  interpolate_channels s1 s2 t = Ok (firstn 3 (color s2)).
Proof.
  intros Ht V1 V2.
  destruct (valid_color_shape _ V1) as (r1 & g1 & b1 & tl1 & E1 & _).
  destruct (valid_color_shape _ V2) as (r2 & g2 & b2 & tl2 & E2 & ? & ? & ?).
  rewrite (interpolate_channels_shape s1 s2 t _ _ _ _ _ _ _ _ E1 E2), E2.
  assert (forall c1 c2, 0 <= c2 <= 255 ->
            Qtrunc (clip_0_255 (inject_Z c1 + t * inject_Z (c2 - c1))%Q) = c2)
    as HT.
  { intros c1 c2 Hc. rewrite (clip_inject _ c2); [|now apply lerp_at_1|lia].
    apply Qtrunc_inject. now apply lerp_at_1. }
  rewrite !HT by assumption. reflexivity.
Qed.

End Interpolation.


Section RoundTrip.

Import GradientOverlaySimple.

Lemma strictly_before_neq (a b : color_stop) :
  strictly_before a b -> Qeq_bool (position a) (position b) = false.
Proof.
  unfold strictly_before. intros H.
  destruct (Qeq_bool (position a) (position b)) eqn:E; [|reflexivity].
  apply Qeq_bool_iff in E. rewrite E in H. now apply Qlt_irrefl in H.
Qed.

Lemma find_surrounding_later (stops : list color_stop)
  (s0 s : color_stop) (pos : Q) :
  StronglySorted strictly_before (s0 :: stops) ->
  Forall valid_stop (s0 :: stops) ->
  In s stops -> (pos == position s)%Q ->
  find_surrounding (s0 :: stops) pos = Ok (Some (firstn 3 (color s))).
Proof.
  revert s0. induction stops as [|s2 rest IH]; intros s0 HS HV Hin Hpos;
    [contradiction|].
  apply StronglySorted_inv in HS as [HS2 H0].
  inversion HV as [|? ? V0 HV2]; subst.
  cbn [find_surrounding].
  destruct Hin as [<-|Hin].
  - assert (strictly_before s0 s2) as B by (now inversion H0).
    assert (Qle_bool pos (position s2) = true) as ->.
    { apply Qle_bool_iff. rewrite Hpos. apply Qle_refl. }
    rewrite (strictly_before_neq _ _ B).
    rewrite interpolate_channels_at_1; [reflexivity| |apply V0|].
    + rewrite Hpos. unfold strictly_before in B. field.
      intros E.
      assert (position s2 == position s0)%Q as E'
        by (rewrite <- (Qplus_0_l (position s0)), <- E; ring).
      rewrite E' in B. exact (Qlt_irrefl _ B).
    + inversion HV2 as [|? ? V2 _]. apply V2.
  - assert (strictly_before s2 s) as B.
    { apply StronglySorted_inv in HS2 as [_ H2].
      rewrite Forall_forall in H2. now apply H2. }
    assert (Qle_bool pos (position s2) = false) as ->.
    { destruct (Qle_bool pos (position s2)) eqn:E; [|reflexivity].
      apply Qle_bool_iff in E. rewrite Hpos in E.
      exfalso. now apply (Qlt_not_le _ _ B). }
    now apply IH.
Qed.

End RoundTrip.

(** C5 (as amended).  For every stop list whose positions lie in [0, 1]
    and are strictly increasing, and whose colours hold at least three
    8-bit channels, interpolating at the position of any stop returns
    exactly the R, G, B channels of that stop. *)
Theorem gradient_round_trip_strict
  (stops : list GradientOverlaySimple.color_stop) (i : nat)
  (s : GradientOverlaySimple.color_stop) :
  StronglySorted strictly_before stops ->
  Forall valid_stop stops ->
  nth_error stops i = Some s ->
  GradientOverlaySimple._interpolate_gradient_color
    stops (GradientOverlaySimple.position s)
  = Ok (firstn 3 (GradientOverlaySimple.color s)).
Proof.
  intros HS HV Hi.
  assert (valid_stop s) as [Hpos Vs].
  { rewrite Forall_forall in HV. apply HV. eapply nth_error_In; eauto. }
  unfold GradientOverlaySimple._interpolate_gradient_color.
  pose proof (clamp01_id _ Hpos) as Hc.
  set (pos := GradientOverlaySimple.clamp01 _) in *.
  destruct stops as [|s0 rest]; [destruct i; discriminate|].
  destruct i as [|i]; simpl in Hi.
  - inversion Hi; subst s0. destruct rest as [|s2 rest].
    + reflexivity.
    + cbn [GradientOverlaySimple.find_surrounding].
      apply StronglySorted_inv in HS as [_ H0].
      assert (strictly_before s s2) as B by (now inversion H0).
      assert (Qle_bool pos (GradientOverlaySimple.position s2) = true) as ->.
      { apply Qle_bool_iff. rewrite Hc. now apply Qlt_le_weak. }
      rewrite (strictly_before_neq _ _ B).
      rewrite interpolate_channels_at_0; [reflexivity| |apply Vs|].
      * rewrite Hc. unfold Qdiv. ring.
      * inversion HV as [|? ? _ HV2]; subst.
        inversion HV2 as [|? ? V2 _]. apply V2.
  - rewrite (find_surrounding_later rest s0 s pos HS HV);
      [reflexivity| |exact Hc].
    eapply nth_error_In; eauto.
Qed.

Lemma gradient_round_trip_strict_witness :
  GradientOverlaySimple._interpolate_gradient_color rgb_stops (1 # 2)
  = Ok [0; 255; 0].
Proof.
  apply (gradient_round_trip_strict rgb_stops 1
           (GradientOverlaySimple.mk_stop (1 # 2) [0; 255; 0; 255])).
  - repeat constructor.
  - unfold rgb_stops, valid_stop, valid_color; cbn.
    repeat constructor; try lia; try discriminate.
  - reflexivity.
Defined.

(** C5 (as stated) fails when two stops share a position: the positions
    0, 1/2, 1/2 are non-decreasing and in [0, 1], and interpolating at the
    position of the third stop (blue) returns the colour of the second
    (green), the first pair whose right end reaches the position. *)
Lemma gradient_round_trip_fails_on_repeated_position :
  StronglySorted not_after repeated_stops
  /\ Forall valid_stop repeated_stops
  /\ nth_error repeated_stops 2
     = Some (GradientOverlaySimple.mk_stop (1 # 2) [0; 0; 255; 255])
  /\ GradientOverlaySimple._interpolate_gradient_color repeated_stops (1 # 2)
     = Ok [0; 255; 0]
  /\ firstn 3 [0; 0; 255; 255] <> [0; 255; 0].
Proof.
  split; [repeat constructor; discriminate|].
  split; [unfold repeated_stops, valid_stop, valid_color; cbn;
          repeat constructor; try lia; try discriminate|].
  split; [reflexivity|]. split; [reflexivity|discriminate].
Qed.

Section Lut.

Import GradientOverlaySimple.

Lemma Qtrunc_clip_range (v : Q) : 0 <= Qtrunc (clip_0_255 v) <= 255.
Proof.
  unfold clip_0_255.
  destruct (Qltb v 0) eqn:E0; [vm_compute; split; discriminate|].
  destruct (Qltb 255 v) eqn:E1; [vm_compute; split; discriminate|].
  apply Qltb_false in E0, E1. unfold Qtrunc.
  unfold Qle in E0, E1; simpl in E0, E1.
  rewrite Z.mul_1_r in E0, E1.
  rewrite Z.quot_div_nonneg by lia. split.
  - apply Z.div_pos; lia.
  - apply Z.div_le_upper_bound; lia.
Qed.

Lemma getitem_last {A} (l : list A) :
  l <> [] -> exists a, getitem l (-1) = Ok a /\ In a l.
Proof.
  intros Hl. destruct (exists_last Hl) as (l' & a & ->).
  exists a. split; [|apply in_or_app; right; now left].
  unfold getitem. cbn [Z.ltb Z.compare].
  rewrite length_app; simpl length.
  destruct (Z.ltb_spec (-1 + Z.of_nat (length l' + 1)) 0); [lia|].
  replace (Z.to_nat (-1 + Z.of_nat (length l' + 1))) with (length l' + 0)%nat
    by lia.
  now rewrite nth_error_app2, Nat.add_0_r, Nat.sub_diag by lia.
Qed.

Lemma find_surrounding_valid (stops : list color_stop) (pos : Q) :
  Forall (fun s => valid_color (color s)) stops ->
  find_surrounding stops pos = Ok None
  \/ exists c, find_surrounding stops pos = Ok (Some c) /\ rgb_in_range c.
Proof.
  induction stops as [|s1 [|s2 rest] IH]; intros HV; try (now left).
  inversion HV as [|? ? V1 HV2]; subst.
  inversion HV2 as [|? ? V2 _]; subst.
  cbn [find_surrounding].
  destruct (Qle_bool pos (position s2)); [|now apply IH].
  right. destruct (Qeq_bool (position s1) (position s2)).
  - exists (color s1). split; [reflexivity|]. now apply valid_color_shape.
  - destruct (valid_color_shape _ V1) as (r1 & g1 & b1 & tl1 & E1 & _).
    destruct (valid_color_shape _ V2) as (r2 & g2 & b2 & tl2 & E2 & _).
    rewrite (interpolate_channels_shape s1 s2 _ _ _ _ _ _ _ _ _ E1 E2).
    eexists. split; [reflexivity|].
    eexists _, _, _, _. split; [reflexivity|].
    repeat split; apply Qtrunc_clip_range.
Qed.

Lemma interpolate_valid (stops : list color_stop) (pos : Q) :
  stops <> [] ->
  Forall (fun s => valid_color (color s)) stops ->
  exists c, _interpolate_gradient_color stops pos = Ok c /\ rgb_in_range c.
Proof.
  intros Hne HV. unfold _interpolate_gradient_color.
  destruct (find_surrounding_valid stops (clamp01 pos) HV)
    as [->|(c & -> & Hc)]; cbn [bind].
  - destruct (getitem_last stops Hne) as (a & -> & Ha). cbn [bind].
    eexists. split; [reflexivity|].
    rewrite Forall_forall in HV.
    destruct (valid_color_shape _ (HV a Ha))
      as (r & g & b & tl & -> & ? & ? & ?).
    exists r, g, b, []. now repeat split.
  - eauto.
Qed.

End Lut.

(** C6 (as amended).  For a non-empty stop list whose colours hold at
    least three 8-bit channels, [_generate_current_lut] stores a table of
    256 rows, and row [k] holds the first three channels [r], [g], [b] of
    the colour [_interpolate_gradient_color stops (k / 255)] returns, in
    the order blue, green, red: [[b; g; r]].  A fourth channel, which the
    interpolation returns where it hands back a stop's own colour, is not
    stored. *)
Theorem lut_rows_are_reversed_interpolations
  (self : GradientOverlaySimple.t)
  (gradient : GradientOverlaySimple.gradient) :
  GradientOverlaySimple.gradients self <> [] ->
  getitem (GradientOverlaySimple.gradients self)
          (GradientOverlaySimple.current_gradient_index self)
  = Ok gradient ->
  GradientOverlaySimple.stops gradient <> [] ->
  Forall (fun s => valid_color (GradientOverlaySimple.color s))
         (GradientOverlaySimple.stops gradient) ->
  exists self' table,
    GradientOverlaySimple._generate_current_lut self = Ok self'
    /\ GradientOverlaySimple.current_gradient_lut self' = Some table
    /\ GradientOverlaySimple.build_lut (GradientOverlaySimple.stops gradient)
       = Ok table
    /\ length table = 256%nat
    /\ forall k, 0 <= k <= 255 ->
         exists r g b tl,
           GradientOverlaySimple._interpolate_gradient_color
             (GradientOverlaySimple.stops gradient) (inject_Z k / 255)
           = Ok (r :: g :: b :: tl)
           /\ 0 <= r <= 255 /\ 0 <= g <= 255 /\ 0 <= b <= 255
           /\ nth_error table (Z.to_nat k) = Some [b; g; r].
Proof.
  intros Hg Hidx Hne HV.
  set (stops := GradientOverlaySimple.stops gradient) in *.
  set (row := fun k : Z =>
         match GradientOverlaySimple._interpolate_gradient_color
                 stops (inject_Z k / 255) with
         | Ok (r :: g :: b :: _) => [b; g; r]
         | _ => []
         end).
  assert (GradientOverlaySimple.build_lut stops
          = Ok (map row (range 0 256))) as Hb.
  { unfold GradientOverlaySimple.build_lut. apply mapM_pure.
    intros k _. unfold row.
    destruct (interpolate_valid stops (inject_Z k / 255) Hne HV)
      as (c & -> & r & g & b & tl & -> & Hr & Hgr & Hbl).
    cbn [bind]. destruct (getitem_rgb r g b tl) as (-> & -> & ->).
    cbn [bind]. now rewrite !store_uint8_ok by lia. }
  exists (GradientOverlaySimple.mk
            (GradientOverlaySimple.active self)
            (GradientOverlaySimple.opacity self)
            (GradientOverlaySimple.current_gradient_index self)
            (GradientOverlaySimple.gradients self)
            (Some (map row (range 0 256)))),
         (map row (range 0 256)).
  split.
  { unfold GradientOverlaySimple._generate_current_lut.
    destruct (GradientOverlaySimple.gradients self) eqn:G; [congruence|].
    rewrite Hidx. cbn [bind]. fold stops. rewrite Hb. reflexivity. }
  split; [reflexivity|]. split; [exact Hb|].
  split; [now rewrite length_map, range_length|].
  intros k Hk.
  destruct (interpolate_valid stops (inject_Z k / 255) Hne HV)
    as (c & E & r & g & b & tl & -> & Hr & Hgr & Hbl).
  exists r, g, b, tl. split; [exact E|]. repeat split; try lia.
  rewrite nth_error_map, range_nth by lia. cbn [option_map].
  unfold row. now rewrite E.
Qed.

Lemma lut_rows_are_reversed_interpolations_witness :
  exists self' table,
    GradientOverlaySimple._generate_current_lut
      (GradientOverlaySimple.mk true 50 0 [red_gradient] None) = Ok self'
    /\ GradientOverlaySimple.current_gradient_lut self' = Some table
    /\ length table = 256%nat.
Proof.
  destruct (lut_rows_are_reversed_interpolations
              (GradientOverlaySimple.mk true 50 0 [red_gradient] None)
              red_gradient)
    as (self' & table & G & L & _ & N & _).
  - discriminate.
  - reflexivity.
  - discriminate.
  - unfold red_gradient, valid_color; cbn.
    repeat constructor; try lia; try discriminate.
  - exists self', table. now repeat split.
Defined.

(** C6 (as stated) fails: for a gradient that is red at both ends, the
    interpolation at 0 / 255 returns the triple [255; 0; 0] and row 0 of
    the table is [0; 0; 255]. *)
Lemma lut_row_is_not_rgb :
  exists table,
    GradientOverlaySimple.build_lut
      (GradientOverlaySimple.stops red_gradient) = Ok table
    /\ nth_error table 0 = Some [0; 0; 255]
    /\ GradientOverlaySimple._interpolate_gradient_color
         (GradientOverlaySimple.stops red_gradient) (inject_Z 0 / 255)
       = Ok [255; 0; 0].
Proof.
  eexists. split; [vm_compute; reflexivity|]. split; reflexivity.
Qed.

(* ===================================================================== *)
(** ** The mask has the shape of the frame                                *)
(* ===================================================================== *)

Section MaskShape.

Lemma mask_shape_zeros (height width : Z) :
  mask_shape (repeat (repeat false (Z.to_nat width)) (Z.to_nat height))
             height width.
Proof.
  split; [apply repeat_length|].
  apply Forall_forall. intros row H. apply repeat_spec in H. subst.
  apply repeat_length.
Qed.

Lemma mask_shape_grid (g : Z -> Z -> bool) (height width : Z) :
  mask_shape (map (fun Y => map (fun X => g X Y) (range 0 width))
                  (range 0 height)) height width.
Proof.
  split.
  - now rewrite length_map, range_length, Z.sub_0_r.
  - apply Forall_forall. intros row H. apply in_map_iff in H as (Y & <- & _).
    now rewrite length_map, range_length, Z.sub_0_r.
Qed.

Lemma mask_shape_invert (m : mask) (height width : Z) :
  mask_shape m height width -> mask_shape (KiAlt.invert m) height width.
Proof.
  intros [L R]. unfold KiAlt.invert. split.
  - now rewrite length_map.
  - apply Forall_forall. intros row H. apply in_map_iff in H as (r & <- & Hr).
    rewrite length_map. rewrite Forall_forall in R. now apply R.
Qed.

End MaskShape.

(** What a call of the mask generator leaves behind. *)
Lemma direct_mask_outcome
  (self : KiAlt.t) (height width t p frame_counter : Z) :
  0 <= height -> 0 <= width ->
  exists self' m,
    KiAlt._generate_ki_alternate_mask_direct
      self (height, width) t p frame_counter = Ok self'
    /\ KiAlt.invert_mask self' = Some m
    /\ mask_shape m height width
    /\ KiAlt.active self' = KiAlt.active self
    /\ KiAlt.global_frame_counter self' = KiAlt.global_frame_counter self
    /\ KiAlt.pixel_width self' = KiAlt.pixel_width self
    /\ KiAlt.min_pixel_width self' = KiAlt.min_pixel_width self
    /\ KiAlt.max_pixel_width self' = KiAlt.max_pixel_width self
    /\ KiAlt.time_multiplier self' = KiAlt.time_multiplier self
    /\ KiAlt.gradient_opacity self' = KiAlt.gradient_opacity self
    /\ KiAlt.gradient_system self' = KiAlt.gradient_system self.
Proof.
  intros Hh Hw.
  unfold KiAlt._generate_ki_alternate_mask_direct, KiAlt.mask_direct_guarded,
    KiAlt.mask_direct_body.
  rewrite np_zeros_ok by assumption. cbn [bind try_except].
  destruct ((p <=? 0) || (t <? 0)).
  { eexists _, _. split; [reflexivity|]. split; [reflexivity|].
    split; [apply mask_shape_zeros|]. repeat split. }
  destruct ((p - 1) / 2 <=? 0).
  { eexists _, _. split; [reflexivity|]. split; [reflexivity|].
    split; [apply mask_shape_zeros|]. repeat split. }
  destruct (2 ^ 63 <=? 2 * ((p - 1) / 2)).
  { unfold KiAlt.mask_direct_handler.
    rewrite np_zeros_ok by assumption. cbn [bind].
    eexists _, _. split; [reflexivity|]. split; [reflexivity|].
    split; [apply mask_shape_zeros|]. repeat split. }
  eexists _, _. split; [reflexivity|]. split; [reflexivity|].
  split; [|repeat split].
  destruct ((frame_counter / p) mod 2 =? 1).
  - apply mask_shape_invert. apply mask_shape_grid.
  - apply mask_shape_grid.
Qed.

(** X1.  For a frame shape with non-negative sides,
    [_generate_ki_alternate_mask_direct] never raises, whatever the time,
    the pitch and the frame counter: it stores a mask of [height] rows of
    [width] entries and leaves the controls, the counter and the gradient
    system of the effect as they were. *)
Theorem generated_mask_has_frame_shape
  (self : KiAlt.t) (height width t p frame_counter : Z) :
  0 <= height -> 0 <= width ->
  exists self' m,
    KiAlt._generate_ki_alternate_mask_direct
      self (height, width) t p frame_counter = Ok self'
    /\ KiAlt.invert_mask self' = Some m
    /\ mask_shape m height width
    /\ KiAlt.active self' = KiAlt.active self
    /\ KiAlt.global_frame_counter self' = KiAlt.global_frame_counter self
    /\ KiAlt.pixel_width self' = KiAlt.pixel_width self
    /\ KiAlt.min_pixel_width self' = KiAlt.min_pixel_width self
    /\ KiAlt.max_pixel_width self' = KiAlt.max_pixel_width self
    /\ KiAlt.time_multiplier self' = KiAlt.time_multiplier self
    /\ KiAlt.gradient_opacity self' = KiAlt.gradient_opacity self
    /\ KiAlt.gradient_system self' = KiAlt.gradient_system self.
Proof. apply direct_mask_outcome. Qed.

Lemma generated_mask_has_frame_shape_witness :
  exists self' m,
    KiAlt._generate_ki_alternate_mask_direct
      (KiAlt.init []) (2, 3) 5 9 14 = Ok self'
    /\ KiAlt.invert_mask self' = Some m
    /\ mask_shape m 2 3.
Proof.
  destruct (generated_mask_has_frame_shape (KiAlt.init []) 2 3 5 9 14)
    as (self' & m & G & M & S & _); [lia | lia |].
  exists self', m. exact (conj G (conj M S)).
Defined.

(* ===================================================================== *)
(** ** Compositing keeps frames well formed                               *)
(* ===================================================================== *)

Section Compositing.

Variable gray : pixel -> Z.

Lemma seesaw_pixel_ok (table : GradientOverlaySimple.lut)
  (i_opacity o_opacity : PrimFloat.float) (px : pixel) (b : bool) :
  table <> [] ->
  KiAlt.seesaw_pixel gray table i_opacity o_opacity px b
  = Ok (seesaw_value gray table i_opacity o_opacity px b)
  /\ In (nth (Z.to_nat (KiAlt.np_clip (gray px) 0
                          (Z.of_nat (length table) - 1))) table [])
        table.
Proof.
  intros Hne. unfold KiAlt.seesaw_pixel, seesaw_value.
  set (n := Z.of_nat (length table)).
  assert (0 < n) by (destruct table; [congruence|simpl in n; lia]).
  set (k := KiAlt.np_clip (gray px) 0 (n - 1)).
  assert (0 <= k < n) as Hk by (unfold k, KiAlt.np_clip; lia).
  unfold getitem. destruct (Z.ltb_spec k 0); [lia|].
  destruct (Z.ltb_spec k 0); [lia|].
  destruct (nth_error table (Z.to_nat k)) as [g|] eqn:E.
  - cbn [bind]. rewrite (nth_error_nth _ _ _ E). split; [reflexivity|].
    eapply nth_error_In; eauto.
  - apply nth_error_None in E. lia.
Qed.

Lemma composite_seesaw (self : KiAlt.t) (f : frame) (m : mask)
  (table : GradientOverlaySimple.lut) :
  KiAlt.invert_mask self = Some m ->
  GradientOverlaySimple.current_gradient_lut (KiAlt.gradient_system self)
  = Some table ->
  table <> [] ->
  empty f = false ->
  KiAlt.composite gray self f
  = Ok (zip_frame
          (seesaw_value gray table
             (percent (Z.abs (KiAlt.gradient_opacity self)))
             (percent (100 - Z.abs (KiAlt.gradient_opacity self))))
          f m).
Proof.
  intros Hm Ht Hne He. unfold KiAlt.composite. rewrite Hm, Ht, He.
  unfold zip_frame. apply mapM_pure. intros rm _.
  apply mapM_pure. intros pm _. now apply seesaw_pixel_ok.
Qed.

(** On an empty frame the see-saw branch raises, in [cv2.cvtColor]. *)
Lemma composite_empty (self : KiAlt.t) (f : frame) (m : mask)
  (table : GradientOverlaySimple.lut) :
  KiAlt.invert_mask self = Some m ->
  GradientOverlaySimple.current_gradient_lut (KiAlt.gradient_system self)
  = Some table ->
  empty f = true ->
  KiAlt.composite gray self f = Raise Cv2Error.
Proof.
  intros Hm Ht He. unfold KiAlt.composite. now rewrite Hm, Ht, He.
Qed.

Lemma composite_inversion (self : KiAlt.t) (f : frame) (m : mask) :
  KiAlt.invert_mask self = Some m ->
  GradientOverlaySimple.current_gradient_lut (KiAlt.gradient_system self)
  = None ->
  KiAlt.composite gray self f = Ok (zip_frame KiAlt.invert_pixel f m).
Proof.
  intros Hm Ht. unfold KiAlt.composite. now rewrite Hm, Ht.
Qed.

(** [zip_frame] on a mask of the frame's shape. *)
Lemma zip_frame_rows (g : pixel -> bool -> pixel) (f : frame) (m : mask) :
  rectangular f ->
  mask_shape m (fst (shape_of f)) (snd (shape_of f)) ->
  length (zip_frame g f m) = length f
  /\ forall k row,
       nth_error (zip_frame g f m) k = Some row ->
       exists frow mrow,
         nth_error f k = Some frow /\ nth_error m k = Some mrow
         /\ length mrow = length frow
         /\ row = map (fun pm => g (fst pm) (snd pm)) (combine frow mrow)
         /\ length row = length frow.
Proof.
  intros Hrect [Hlen Hrows]. unfold zip_frame.
  cbn [fst shape_of] in Hlen. rewrite Nat2Z.id in Hlen.
  split; [rewrite length_map, length_combine; lia|].
  intros k row Hk. rewrite nth_error_map in Hk.
  destruct (nth_error (combine f m) k) as [[frow mrow]|] eqn:E;
    [|discriminate].
  cbn in Hk. inversion Hk; subst row. clear Hk.
  assert (nth_error f k = Some frow /\ nth_error m k = Some mrow) as [Ef Em].
  { clear - E. revert m k E.
    induction f as [|a f IH]; intros [|b m] [|k] E; simpl in *;
      try discriminate.
    - inversion E. now split.
    - now apply IH. }
  assert (length mrow = length frow) as L.
  { unfold rectangular in Hrect. rewrite Forall_forall in Hrect, Hrows.
    pose proof (Hrect _ (nth_error_In _ _ Ef)).
    pose proof (Hrows _ (nth_error_In _ _ Em)). lia. }
  exists frow, mrow. repeat split; try assumption.
  rewrite length_map, length_combine. lia.
Qed.

End Compositing.

Section ZipFrame.

Variable g : pixel -> bool -> pixel.

Lemma zip_row_valid (frow : list pixel) (mrow : list bool) :
  length mrow = length frow ->
  (forall px b, valid_pixel px -> valid_pixel (g px b)) ->
  Forall valid_pixel frow ->
  length (map (fun pm => g (fst pm) (snd pm)) (combine frow mrow))
  = length frow
  /\ Forall valid_pixel
       (map (fun pm : pixel * bool => g (fst pm) (snd pm))
            (combine frow mrow)).
Proof.
  intros L Hg Hv. split.
  - rewrite length_map, length_combine. lia.
  - apply Forall_forall. intros px H.
    apply in_map_iff in H as ([p b] & <- & Hin).
    apply Hg. rewrite Forall_forall in Hv. apply Hv.
    now apply in_combine_l in Hin.
Qed.

Lemma zip_frame_width (W : nat) (f : frame) (m : mask) :
  length m = length f ->
  Forall (fun row => length row = W) f ->
  Forall (fun row => length row = W) m ->
  (forall px b, valid_pixel px -> valid_pixel (g px b)) ->
  Forall (Forall valid_pixel) f ->
  length (zip_frame g f m) = length f
  /\ Forall (fun row => length row = W) (zip_frame g f m)
  /\ Forall (Forall valid_pixel) (zip_frame g f m).
Proof.
  intros L Hf Hm Hg Hv. unfold zip_frame. revert m L Hm.
  induction f as [|frow f IH]; intros [|mrow m] L Hm; simpl in *;
    try discriminate; try (repeat split; constructor).
  inversion Hf as [|? ? Hf1 Hf2]; subst.
  inversion Hm as [|? ? Hm1 Hm2]; subst.
  inversion Hv as [|? ? Hv1 Hv2]; subst.
  destruct (IH Hf2 Hv2 m) as (IL & IW & IV); [lia|assumption|].
  destruct (zip_row_valid frow mrow) as [RL RV]; [lia|assumption|assumption|].
  repeat split.
  - simpl. f_equal. exact IL.
  - constructor; [lia|exact IW].
  - constructor; [exact RV|exact IV].
Qed.

(** Zipping a valid frame with a mask of its shape gives a valid frame
    of the same shape. *)
Lemma zip_frame_valid (f : frame) (m : mask) :
  valid_frame f ->
  mask_shape m (fst (shape_of f)) (snd (shape_of f)) ->
  (forall px b, valid_pixel px -> valid_pixel (g px b)) ->
  valid_frame (zip_frame g f m)
  /\ shape_of (zip_frame g f m) = shape_of f.
Proof.
  intros [Hrect Hv] [ML MR] Hg.
  cbn [fst shape_of] in ML. rewrite Nat2Z.id in ML.
  set (W := Z.to_nat (snd (shape_of f))) in *.
  assert (Forall (fun row => length row = W) f) as Hf.
  { unfold rectangular in Hrect. rewrite Forall_forall in *.
    intros row Hr. specialize (Hrect row Hr). unfold W. lia. }
  destruct (zip_frame_width W f m ML Hf MR Hg Hv) as (L & RW & RV).
  assert (shape_of (zip_frame g f m) = shape_of f) as Hs.
  { unfold shape_of. rewrite L. f_equal.
    destruct f as [|r f'], (zip_frame g (_) m) as [|r' z'] eqn:Z;
      simpl in L; try discriminate; try reflexivity.
    inversion RW; subst. inversion Hf; subst. congruence. }
  split; [|exact Hs]. split; [|exact RV].
  unfold rectangular. rewrite Hs. apply Forall_forall.
  intros row Hr. rewrite Forall_forall in RW. specialize (RW row Hr).
  destruct f as [|r f'].
  - simpl in L. destruct (zip_frame g [] m); [contradiction|discriminate].
  - cbn [snd shape_of]. inversion Hf; subst. lia.
Qed.

End ZipFrame.

Section PixelValidity.

Lemma to_uint8_range (v : Z) : 0 <= to_uint8 v <= 255.
Proof. unfold to_uint8. pose proof (Z.mod_pos_bound v 256). lia. Qed.

Lemma invert_pixel_valid (px : pixel) (b : bool) :
  valid_pixel px -> valid_pixel (KiAlt.invert_pixel px b).
Proof.
  intros [L V]. destruct b; simpl; [|now split].
  split; [now rewrite length_map|].
  apply Forall_forall. intros c H. apply in_map_iff in H as (c0 & <- & _).
  apply to_uint8_range.
Qed.

Lemma blend_valid (w : PrimFloat.float) (px g : pixel) :
  length px = 3%nat -> length g = 3%nat -> valid_pixel (KiAlt.blend w px g).
Proof.
  intros L1 L2. unfold KiAlt.blend. split.
  - rewrite length_map, length_combine. lia.
  - apply Forall_forall. intros c H. apply in_map_iff in H as (og & <- & _).
    apply to_uint8_range.
Qed.

Lemma seesaw_value_valid (gray : pixel -> Z)
  (table : GradientOverlaySimple.lut) (i o : PrimFloat.float)
  (px : pixel) (b : bool) :
  valid_table table -> valid_pixel px ->
  valid_pixel (seesaw_value gray table i o px b).
Proof.
  intros [Hne Hrows] [L _]. unfold seesaw_value.
  apply blend_valid; [assumption|].
  rewrite Forall_forall in Hrows. apply Hrows.
  apply (seesaw_pixel_ok gray table i o px b Hne).
Qed.

End PixelValidity.

(** A frame through an active effect. *)
Lemma process_frame_valid
  (gray : pixel -> Z) (self : KiAlt.t) (f : frame) :
  KiAlt.active self = true ->
  KiAlt.pixel_width self <> 0 ->
  valid_frame f -> empty f = false ->
  (forall table,
      GradientOverlaySimple.current_gradient_lut (KiAlt.gradient_system self)
      = Some table -> valid_table table) ->
  exists out,
    snd (KiAlt.process_frame gray self (Some f)) = Ok (Some out)
    /\ valid_frame out
    /\ shape_of out = shape_of f
    /\ KiAlt.global_frame_counter (fst (KiAlt.process_frame gray self (Some f)))
       = KiAlt.global_frame_counter self + 1.
Proof.
  intros Hact Hpw Hvalid Hne Htable.
  unfold KiAlt.process_frame, KiAlt.process_frame_with.
  rewrite Hact. cbn [negb]. unfold pymod.
  cbn [KiAlt.pixel_width KiAlt.set_global_frame_counter
       KiAlt.global_frame_counter KiAlt.time_multiplier].
  destruct (Z.eqb_spec (KiAlt.pixel_width self) 0); [contradiction|].
  set (self1 := KiAlt.set_global_frame_counter self
                  (KiAlt.global_frame_counter self + 1)).
  destruct (shape_of f) as [height width] eqn:Hshape.
  assert (0 <= height /\ 0 <= width) as [Hh Hw].
  { unfold shape_of in Hshape. inversion Hshape. destruct f; lia. }
  destruct (direct_mask_outcome self1 height width
              (((KiAlt.global_frame_counter self + 1)
                * KiAlt.time_multiplier self) mod KiAlt.pixel_width self)
              (KiAlt.pixel_width self)
              ((KiAlt.global_frame_counter self + 1)
               * KiAlt.time_multiplier self) Hh Hw)
    as (self' & m & G & M & S & _ & C & _ & _ & _ & _ & OP & GS).
  rewrite G. cbn [fst snd].
  assert (mask_shape m (fst (shape_of f)) (snd (shape_of f))) as S'
    by (now rewrite Hshape).
  destruct (GradientOverlaySimple.current_gradient_lut
              (KiAlt.gradient_system self')) as [table|] eqn:T.
  - assert (valid_table table) as VT
      by (apply Htable; rewrite GS in T; exact T).
    rewrite (composite_seesaw gray self' f m table M T (proj1 VT) Hne).
    cbn [bind]. eexists. split; [reflexivity|].
    destruct (zip_frame_valid
                (seesaw_value gray table
                   (percent (Z.abs (KiAlt.gradient_opacity self')))
                   (percent (100 - Z.abs (KiAlt.gradient_opacity self'))))
                f m Hvalid S') as [V E].
    { intros px b. now apply seesaw_value_valid. }
    rewrite <- Hshape. repeat split; try apply V; try exact E. exact C.
  - rewrite (composite_inversion gray self' f m M T).
    cbn [bind]. eexists. split; [reflexivity|].
    destruct (zip_frame_valid KiAlt.invert_pixel f m Hvalid S') as [V E].
    { intros px b. apply invert_pixel_valid. }
    rewrite <- Hshape. repeat split; try apply V; try exact E. exact C.
Qed.

(** A frame without pixels through an active effect with a table. *)
Lemma process_frame_empty
  (gray : pixel -> Z) (self : KiAlt.t) (f : frame)
  (table : GradientOverlaySimple.lut) :
  KiAlt.active self = true ->
  KiAlt.pixel_width self <> 0 ->
  GradientOverlaySimple.current_gradient_lut (KiAlt.gradient_system self)
  = Some table ->
  empty f = true ->
  snd (KiAlt.process_frame gray self (Some f)) = Raise Cv2Error.
Proof.
  intros Hact Hpw Ht He.
  unfold KiAlt.process_frame, KiAlt.process_frame_with.
  rewrite Hact. cbn [negb]. unfold pymod.
  cbn [KiAlt.pixel_width KiAlt.set_global_frame_counter
       KiAlt.global_frame_counter KiAlt.time_multiplier].
  destruct (Z.eqb_spec (KiAlt.pixel_width self) 0); [contradiction|].
  destruct (shape_of f) as [height width] eqn:Hshape.
  assert (0 <= height /\ 0 <= width) as [Hh Hw].
  { unfold shape_of in Hshape. inversion Hshape. destruct f; lia. }
  destruct (direct_mask_outcome
              (KiAlt.set_global_frame_counter self
                 (KiAlt.global_frame_counter self + 1)) height width
              (((KiAlt.global_frame_counter self + 1)
                * KiAlt.time_multiplier self) mod KiAlt.pixel_width self)
              (KiAlt.pixel_width self)
              ((KiAlt.global_frame_counter self + 1)
               * KiAlt.time_multiplier self) Hh Hw)
    as (self' & m & G & M & _ & _ & _ & _ & _ & _ & _ & _ & GS).
  rewrite G. cbn [snd].
  rewrite (composite_empty gray self' f m table M); try assumption.
  - reflexivity.
  - rewrite GS. exact Ht.
Qed.

(** X2.  [KiAlt.process_frame] on an active effect with a non-zero pitch
    maps a well-formed frame (a rectangle of pixels with three 8-bit
    channels) that holds at least one pixel to a well-formed frame of the
    same shape, without raising, and advances the frame counter by one;
    the gradient table, when one is loaded, has rows of three channels.
    On a frame without pixels it raises, in [cv2.cvtColor], once a table is
    loaded. *)
Theorem process_frame_keeps_frames_valid
  (gray : pixel -> Z) (self : KiAlt.t) (f : frame) :
  KiAlt.active self = true ->
  KiAlt.pixel_width self <> 0 ->
  valid_frame f ->
  (forall table,
      GradientOverlaySimple.current_gradient_lut (KiAlt.gradient_system self)
      = Some table -> valid_table table) ->
  (empty f = false ->
   exists out,
     snd (KiAlt.process_frame gray self (Some f)) = Ok (Some out)
     /\ valid_frame out
     /\ shape_of out = shape_of f
     /\ KiAlt.global_frame_counter
          (fst (KiAlt.process_frame gray self (Some f)))
        = KiAlt.global_frame_counter self + 1)
  /\ (empty f = true ->
      GradientOverlaySimple.current_gradient_lut (KiAlt.gradient_system self)
      <> None ->
      snd (KiAlt.process_frame gray self (Some f)) = Raise Cv2Error).
Proof.
  intros Hact Hpw Hvalid Htable. split.
  - intros He. now apply process_frame_valid.
  - intros He Ht.
    destruct (GradientOverlaySimple.current_gradient_lut
                (KiAlt.gradient_system self)) as [table|] eqn:T;
      [|congruence].
    now apply (process_frame_empty gray self f table).
Qed.

Lemma process_frame_keeps_frames_valid_witness :
  exists out,
    snd (KiAlt.process_frame (fun _ => 0) (KiAlt.init [flat_gradient])
           (Some [[[7; 8; 9]; [0; 0; 0]]])) = Ok (Some out)
    /\ shape_of out = (1, 2).
Proof.
  destruct (process_frame_keeps_frames_valid
              (fun _ => 0) (KiAlt.init [flat_gradient])
              [[[7; 8; 9]; [0; 0; 0]]])
    as [H _].
  - reflexivity.
  - discriminate.
  - split; repeat constructor; discriminate.
  - intros table H. vm_compute in H. inversion H; subst table.
    split; [discriminate|]. repeat constructor.
  - destruct (H eq_refl) as (out & R & _ & S & _).
    exists out. split; [exact R|exact S].
Defined.

(* ===================================================================== *)
(** ** The two compositing branches                                       *)
(* ===================================================================== *)

Section Inversion.

Lemma invert_channel_twice (c : Z) :
  0 <= c <= 255 -> to_uint8 (255 - to_uint8 (255 - c)) = c.
Proof.
  intros H. unfold to_uint8.
  rewrite (Z.mod_small (255 - c)) by lia. rewrite Z.mod_small by lia. lia.
Qed.

Lemma invert_pixel_twice (px : pixel) (b : bool) :
  valid_pixel px ->
  KiAlt.invert_pixel (KiAlt.invert_pixel px b) b = px.
Proof.
  intros [_ V]. destruct b; simpl; [|reflexivity].
  rewrite map_map. rewrite <- (map_id px) at 2.
  apply map_ext_in. intros c Hc. apply invert_channel_twice.
  rewrite Forall_forall in V. now apply V.
Qed.

Lemma zip_row_twice (g : pixel -> bool -> pixel)
  (frow : list pixel) (mrow : list bool) :
  length mrow = length frow ->
  (forall px b, In px frow -> g (g px b) b = px) ->
  map (fun pm => g (fst pm) (snd pm))
      (combine (map (fun pm : pixel * bool => g (fst pm) (snd pm))
                    (combine frow mrow)) mrow)
  = frow.
Proof.
  revert mrow. induction frow as [|px frow IH]; intros [|b mrow] L Hg;
    simpl in *; try discriminate; [reflexivity|].
  f_equal; [apply Hg; now left|].
  apply IH; [lia|]. intros. apply Hg. now right.
Qed.

Lemma zip_frame_twice (g : pixel -> bool -> pixel) (f : frame) (m : mask) :
  length m = length f ->
  (forall k frow mrow, nth_error f k = Some frow ->
                       nth_error m k = Some mrow ->
                       length mrow = length frow) ->
  (forall frow px b, In frow f -> In px frow -> g (g px b) b = px) ->
  zip_frame g (zip_frame g f m) m = f.
Proof.
  unfold zip_frame. revert m.
  induction f as [|frow f IH]; intros [|mrow m] L Hrows Hg;
    simpl in *; try discriminate; [reflexivity|].
  f_equal.
  - apply zip_row_twice; [apply (Hrows 0%nat); reflexivity|].
    intros px b Hpx. apply (Hg frow); [now left|assumption].
  - apply IH; [lia| |].
    + intros k fr mr Hf Hm. apply (Hrows (S k)); assumption.
    + intros fr px b Hfr Hpx. apply (Hg fr); [now right|assumption].
Qed.

End Inversion.

(** X3.  Without a gradient table the compositing step of
    [KiAlt.process_frame] complements the pixels where the mask holds and
    leaves the others: on a well-formed frame and a mask of its shape it
    never raises, and applying it twice with the same mask gives the
    frame back. *)
Theorem inversion_branch_is_involutive
  (gray : pixel -> Z) (self : KiAlt.t) (f : frame) (m : mask) :
  valid_frame f ->
  KiAlt.invert_mask self = Some m ->
  mask_shape m (fst (shape_of f)) (snd (shape_of f)) ->
  GradientOverlaySimple.current_gradient_lut (KiAlt.gradient_system self)
  = None ->
  KiAlt.composite gray self f = Ok (zip_frame KiAlt.invert_pixel f m)
  /\ KiAlt.composite gray self (zip_frame KiAlt.invert_pixel f m) = Ok f.
Proof.
  intros [Hrect Hv] Hm [ML MR] Ht.
  rewrite !(composite_inversion gray self _ m Hm Ht).
  split; [reflexivity|]. f_equal.
  cbn [fst shape_of] in ML. rewrite Nat2Z.id in ML.
  apply zip_frame_twice; [exact ML| |].
  - intros k frow mrow Hf Hk.
    unfold rectangular in Hrect. rewrite Forall_forall in Hrect, MR.
    pose proof (Hrect _ (nth_error_In _ _ Hf)).
    pose proof (MR _ (nth_error_In _ _ Hk)). lia.
  - intros frow px b Hfr Hpx. apply invert_pixel_twice.
    rewrite Forall_forall in Hv. specialize (Hv _ Hfr).
    rewrite Forall_forall in Hv. now apply Hv.
Qed.

Lemma inversion_branch_is_involutive_witness :
  KiAlt.composite (fun _ => 0)
    (KiAlt.set_invert_mask (KiAlt.init []) (Some [[true; false]]))
    (zip_frame KiAlt.invert_pixel [[[7; 8; 9]; [0; 0; 0]]] [[true; false]])
  = Ok [[[7; 8; 9]; [0; 0; 0]]].
Proof.
  apply (inversion_branch_is_involutive (fun _ => 0)
           (KiAlt.set_invert_mask (KiAlt.init []) (Some [[true; false]]))
           [[[7; 8; 9]; [0; 0; 0]]] [[true; false]]).
  - split; repeat constructor; discriminate.
  - reflexivity.
  - split; [reflexivity|]. repeat constructor.
  - reflexivity.
Defined.

(* ===================================================================== *)
(** ** The see-saw blend in binary64                                      *)
(* ===================================================================== *)

Section SeeSaw.

Lemma blend_spelled (w : PrimFloat.float) (px g : pixel) :
  KiAlt.blend w px g
  = map (fun cg => blended_channel w (fst cg) (snd cg)) (combine px g).
Proof. reflexivity. Qed.

(** Weight 0 keeps the original channel and weight 1 takes the gradient's
    channel, exactly; both by evaluation over the 8-bit channels. *)
Lemma blended_keeps (c g : Z) :
  0 <= c <= 255 -> 0 <= g <= 255 -> blended_channel (percent 0) c g = c.
Proof.
  intros Hc Hg.
  assert (forallb (fun c =>
            forallb (fun g => blended_channel (percent 0) c g =? c)
                    (range 0 256))
            (range 0 256) = true) as H by (vm_compute; reflexivity).
  rewrite forallb_forall in H.
  specialize (H c (proj2 (in_range 0 256 c) ltac:(lia))).
  rewrite forallb_forall in H. apply Z.eqb_eq, H, in_range. lia.
Qed.

Lemma blended_takes (c g : Z) :
  0 <= c <= 255 -> 0 <= g <= 255 -> blended_channel (percent 100) c g = g.
Proof.
  intros Hc Hg.
  assert (forallb (fun c =>
            forallb (fun g => blended_channel (percent 100) c g =? g)
                    (range 0 256))
            (range 0 256) = true) as H by (vm_compute; reflexivity).
  rewrite forallb_forall in H.
  specialize (H c (proj2 (in_range 0 256 c) ltac:(lia))).
  rewrite forallb_forall in H. apply Z.eqb_eq, H, in_range. lia.
Qed.



Lemma blend_keeps (px g : pixel) :
  (length px <= length g)%nat ->
  Forall (fun c => 0 <= c <= 255) px ->
  Forall (fun c => 0 <= c <= 255) g ->
  KiAlt.blend (percent 0) px g = px.
Proof.
  rewrite blend_spelled. revert g.
  induction px as [|c px IH]; intros [|d g] L Vp Vg; simpl in *;
    try reflexivity; try lia.
  inversion Vp; inversion Vg; subst. f_equal.
  - now apply blended_keeps.
  - apply IH; [lia|assumption|assumption].
Qed.

Lemma blend_takes (px g : pixel) :
  (length g <= length px)%nat ->
  Forall (fun c => 0 <= c <= 255) px ->
  Forall (fun c => 0 <= c <= 255) g ->
  KiAlt.blend (percent 100) px g = g.
Proof.
  rewrite blend_spelled. revert g.
  induction px as [|c px IH]; intros [|d g] L Vp Vg; simpl in *;
    try reflexivity; try lia.
  inversion Vp; inversion Vg; subst. f_equal.
  - now apply blended_takes.
  - apply IH; [lia|assumption|assumption].
Qed.

End SeeSaw.



(* ===================================================================== *)
(** ** A faulting mask computation                                        *)
(* ===================================================================== *)

Section FailOpen.

Variable gray : pixel -> Z.

Lemma zip_row_all_false (g : pixel -> bool -> pixel)
  (row : list pixel) (W : nat) :
  (length row <= W)%nat ->
  map (fun pm => g (fst pm) (snd pm)) (combine row (repeat false W))
  = map (fun px => g px false) row.
Proof.
  revert W. induction row as [|px row IH]; intros [|W] L; simpl in *;
    try reflexivity; try lia.
  f_equal. apply IH. lia.
Qed.

Lemma zip_rows_all_false (g : pixel -> bool -> pixel)
  (f : frame) (W H : nat) :
  Forall (fun row => (length row <= W)%nat) f ->
  (length f <= H)%nat ->
  zip_frame g f (repeat (repeat false W) H)
  = map (map (fun px => g px false)) f.
Proof.
  unfold zip_frame. revert H.
  induction f as [|row f IH]; intros [|H] V L; simpl in *;
    try reflexivity; try lia.
  inversion V; subst. f_equal.
  - now apply zip_row_all_false.
  - apply IH; [assumption|lia].
Qed.

Lemma zip_frame_all_false (g : pixel -> bool -> pixel) (f : frame) :
  rectangular f ->
  zip_frame g f
    (repeat (repeat false (Z.to_nat (snd (shape_of f))))
            (Z.to_nat (fst (shape_of f))))
  = map (map (fun px => g px false)) f.
Proof.
  intros Hrect. apply zip_rows_all_false.
  - unfold rectangular in Hrect. rewrite Forall_forall in *.
    intros row Hr. specialize (Hrect row Hr). lia.
  - cbn [fst shape_of]. lia.
Qed.

Lemma table_row_in (table : GradientOverlaySimple.lut) (px : pixel) :
  table <> [] -> In (table_row gray table px) table.
Proof.
  intros Hne. unfold table_row.
  apply (seesaw_pixel_ok gray table (percent 0) (percent 0) px false Hne).
Qed.

(** What compositing with an all-false mask of the frame's shape
    stores. *)
Lemma composite_all_false (self : KiAlt.t) (f : frame) :
  rectangular f ->
  empty f = false ->
  KiAlt.invert_mask self
  = Some (repeat (repeat false (Z.to_nat (snd (shape_of f))))
                 (Z.to_nat (fst (shape_of f)))) ->
  (forall table,
      GradientOverlaySimple.current_gradient_lut (KiAlt.gradient_system self)
      = Some table -> table <> []) ->
  KiAlt.composite gray self f
  = Ok (match GradientOverlaySimple.current_gradient_lut
                (KiAlt.gradient_system self) with
        | Some table =>
            recoloured gray table
              (percent (100 - Z.abs (KiAlt.gradient_opacity self))) f
        | None => f
        end).
Proof.
  intros Hrect He Hm Ht.
  destruct (GradientOverlaySimple.current_gradient_lut
              (KiAlt.gradient_system self)) as [table|] eqn:T.
  - rewrite (composite_seesaw gray self f _ table Hm T (Ht table eq_refl) He).
    f_equal. now rewrite zip_frame_all_false.
  - rewrite (composite_inversion gray self f _ Hm T).
    f_equal. rewrite zip_frame_all_false by assumption.
    rewrite <- (map_id f) at 2. apply map_ext. intros row.
    apply map_id.
Qed.

Lemma recoloured_keeps (table : GradientOverlaySimple.lut) (f : frame) :
  table <> [] -> Forall valid_pixel table ->
  Forall (Forall valid_pixel) f ->
  recoloured gray table (percent 0) f = f.
Proof.
  intros Hne Vt Vf. unfold recoloured.
  rewrite <- (map_id f) at 2. apply map_ext_in. intros row Hrow.
  rewrite <- (map_id row) at 2. apply map_ext_in. intros px Hpx.
  rewrite Forall_forall in Vf. specialize (Vf row Hrow).
  rewrite Forall_forall in Vf, Vt.
  destruct (Vf px Hpx) as [Lp Vp].
  destruct (Vt _ (table_row_in table px Hne)) as [Lr Vr].
  rewrite <- blend_spelled. apply blend_keeps; [lia|assumption|assumption].
Qed.

Lemma recoloured_takes (table : GradientOverlaySimple.lut) (f : frame) :
  table <> [] -> Forall valid_pixel table ->
  Forall (Forall valid_pixel) f ->
  recoloured gray table (percent 100) f = map (map (table_row gray table)) f.
Proof.
  intros Hne Vt Vf. unfold recoloured.
  apply map_ext_in. intros row Hrow. apply map_ext_in. intros px Hpx.
  rewrite Forall_forall in Vf. specialize (Vf row Hrow).
  rewrite Forall_forall in Vf, Vt.
  destruct (Vf px Hpx) as [Lp Vp].
  destruct (Vt _ (table_row_in table px Hne)) as [Lr Vr].
  rewrite <- blend_spelled. apply blend_takes; [lia|assumption|assumption].
Qed.

Lemma faulting_frame (e : exn) (self : KiAlt.t) (f : frame) :
  KiAlt.pixel_width self <> 0 ->
  rectangular f -> empty f = false ->
  (forall table,
      GradientOverlaySimple.current_gradient_lut (KiAlt.gradient_system self)
      = Some table -> table <> []) ->
  snd (KiAlt.process_frame_faulting gray e self (Some f))
  = Ok (Some (if KiAlt.active self
              then match GradientOverlaySimple.current_gradient_lut
                           (KiAlt.gradient_system self) with
                   | Some table =>
                       recoloured gray table
                         (percent
                            (100 - Z.abs (KiAlt.gradient_opacity self))) f
                   | None => f
                   end
              else f)).
Proof.
  intros Hpw Hrect He Ht.
  unfold KiAlt.process_frame_faulting, KiAlt.process_frame_with.
  destruct (KiAlt.active self); [|reflexivity]. cbn [negb].
  unfold pymod.
  cbn [KiAlt.pixel_width KiAlt.set_global_frame_counter].
  destruct (Z.eqb_spec (KiAlt.pixel_width self) 0); [contradiction|].
  unfold KiAlt.mask_direct_guarded, try_except, KiAlt.mask_direct_handler.
  destruct (shape_of f) as [height width] eqn:Hshape.
  assert (height = Z.of_nat (length f)) as Hh
    by (unfold shape_of in Hshape; now inversion Hshape).
  assert (0 <= width) as Hw
    by (unfold shape_of in Hshape; inversion Hshape; destruct f; lia).
  rewrite np_zeros_ok by lia. cbn [bind snd].
  rewrite composite_all_false; try assumption.
  - reflexivity.
  - now rewrite Hshape.
Qed.

(** The fault the code itself can meet: a pitch whose [2 * q] does not
    fit in [int64] makes [X // (2 * q)] raise under [try:]. *)
Lemma huge_pitch_faults (self : KiAlt.t) (fr : option frame) :
  2 ^ 63 <= 2 * ((KiAlt.pixel_width self - 1) / 2) ->
  KiAlt.process_frame gray self fr
  = KiAlt.process_frame_faulting gray OverflowError self fr.
Proof.
  intros Bq.
  unfold KiAlt.process_frame, KiAlt.process_frame_faulting,
    KiAlt.process_frame_with.
  destruct fr as [f|]; [|reflexivity].
  destruct (KiAlt.active self); [|reflexivity]. cbn [negb].
  unfold pymod.
  cbn [KiAlt.pixel_width KiAlt.set_global_frame_counter
       KiAlt.global_frame_counter KiAlt.time_multiplier].
  set (p := KiAlt.pixel_width self) in *.
  assert (0 < (p - 1) / 2) as Hq
    by (change (2 ^ 63) with 9223372036854775808 in Bq; lia).
  assert (0 < p) as Hp.
  { destruct (Z_lt_le_dec 0 p) as [|L]; [assumption|].
    assert ((p - 1) / 2 < 0) by (apply Z.div_lt_upper_bound; lia). lia. }
  destruct (Z.eqb_spec p 0); [lia|].
  set (clock := (KiAlt.global_frame_counter self + 1)
                * KiAlt.time_multiplier self).
  pose proof (Z.mod_pos_bound clock p Hp) as Hm.
  unfold KiAlt._generate_ki_alternate_mask_direct, KiAlt.mask_direct_body.
  destruct (shape_of f) as [height width].
  destruct (Z.leb_spec p 0); [lia|].
  destruct (Z.ltb_spec (clock mod p) 0); [lia|].
  destruct (Z.leb_spec ((p - 1) / 2) 0); [lia|].
  destruct (Z.leb_spec (2 ^ 63) (2 * ((p - 1) / 2))); [|lia].
  reflexivity.
Qed.

End FailOpen.

(** C7 (as amended).  When the statements under [try:] of the mask
    generator raise, [process_frame] does not raise on a frame of 8-bit
    pixels that holds at least one pixel (the pitch is not 0): the handler
    stores an all-false mask and the frame is composited with it.  With a
    gradient table loaded, every channel of every pixel is blended towards
    the row of the table the pixel selects, with weight
    [(100 - |opacity|) / 100.0]: the value of
    [(1.0 - w) * c + w * g] in binary64, truncated.  So the frame is
    returned unchanged when no table is loaded (inversion branch) or when
    the see-saw opacity is 100 or -100, and at opacity 0 every pixel is
    replaced by its row of the table.  The mask computation does fault so
    for a pitch beyond the range of [int64]. *)
Theorem faulting_mask_keeps_frame
  (cvtColor_BGR2GRAY : pixel -> Z) (e : exn) (self : KiAlt.t) (f : frame) :
  KiAlt.pixel_width self <> 0 ->
  valid_frame f -> empty f = false ->
  (forall table,
      GradientOverlaySimple.current_gradient_lut (KiAlt.gradient_system self)
      = Some table -> table <> [] /\ Forall valid_pixel table) ->
  exists out,
    snd (KiAlt.process_frame_faulting cvtColor_BGR2GRAY e self (Some f))
    = Ok (Some out)
    /\ out
       = (if KiAlt.active self
          then match GradientOverlaySimple.current_gradient_lut
                       (KiAlt.gradient_system self) with
               | Some table =>
                   recoloured cvtColor_BGR2GRAY table
                     (percent (100 - Z.abs (KiAlt.gradient_opacity self))) f
               | None => f
               end
          else f)
    /\ (Z.abs (KiAlt.gradient_opacity self) = 100 -> out = f)
    /\ (forall table,
           KiAlt.active self = true ->
           GradientOverlaySimple.current_gradient_lut
             (KiAlt.gradient_system self) = Some table ->
           KiAlt.gradient_opacity self = 0 ->
           out = map (map (table_row cvtColor_BGR2GRAY table)) f)
    /\ (2 ^ 63 <= 2 * ((KiAlt.pixel_width self - 1) / 2) ->
        KiAlt.process_frame cvtColor_BGR2GRAY self (Some f)
        = KiAlt.process_frame_faulting
            cvtColor_BGR2GRAY OverflowError self (Some f)).
Proof.
  intros Hpw [Hrect Hv] He Ht.
  eexists. split.
  { apply faulting_frame; try assumption.
    intros table T. apply (Ht table T). }
  split; [reflexivity|].
  split; [|split; [|apply huge_pitch_faults]].
  - intros Hop. destruct (KiAlt.active self); [|reflexivity].
    destruct (GradientOverlaySimple.current_gradient_lut
                (KiAlt.gradient_system self)) as [table|] eqn:T;
      [|reflexivity].
    rewrite Hop. change (100 - 100) with 0.
    destruct (Ht table eq_refl) as [Hne Vt].
    now apply recoloured_keeps.
  - intros table Hact T Hop. rewrite Hact, T, Hop.
    change (100 - Z.abs 0) with 100.
    destruct (Ht table T) as [Hne Vt].
    now apply recoloured_takes.
Qed.

Lemma faulting_mask_keeps_frame_witness :
  snd (KiAlt.process_frame_faulting
         (fun _ => 0) OtherError (KiAlt.init [flat_gradient])
         (Some [[[7; 8; 9]; [0; 0; 0]]]))
  = Ok (Some [[[7; 8; 9]; [0; 0; 0]]]).
Proof.
  destruct (faulting_mask_keeps_frame
              (fun _ => 0) OtherError (KiAlt.init [flat_gradient])
              [[[7; 8; 9]; [0; 0; 0]]])
    as (out & R & _ & K & _ & _).
  - discriminate.
  - split; repeat constructor; discriminate.
  - reflexivity.
  - intros table H. vm_compute in H. inversion H; subst table.
    split; [discriminate|].
    repeat (constructor; [split; [reflexivity|repeat constructor; lia]|]).
    constructor.
  - rewrite (K eq_refl) in R. exact R.
Defined.

(** C7 (as stated) fails: after a hundred presses of '[' the see-saw
    opacity is 0, the weight of the gradient on the pixels outside the mask
    is 1, and a faulting mask computation makes [process_frame] return the
    black pixel recoloured with the table's entry, not the input frame. *)
Lemma faulting_mask_recolours_frame :
  KiAlt.gradient_opacity
    (KiAlt.apply_controls (KiAlt.init [flat_gradient])
       (repeat (KiAlt.KeyPress (ord "[")) 100)) = 0
  /\ snd (KiAlt.process_frame_faulting
            (fun _ => 0) OtherError
            (KiAlt.apply_controls (KiAlt.init [flat_gradient])
               (repeat (KiAlt.KeyPress (ord "[")) 100))
            (Some [[[0; 0; 0]]]))
     = Ok (Some [[[30; 20; 10]]]).
Proof. split; vm_compute; reflexivity. Qed.


(* ===================================================================== *)
(** ** The table follows the selected gradient                            *)
(* ===================================================================== *)

Section TableInSync.

Import GradientOverlaySimple.

Lemma build_lut_total (stops : list color_stop) :
  stops <> [] ->
  Forall (fun s => valid_color (color s)) stops ->
  exists table,
    build_lut stops = Ok table
    /\ length table = 256%nat
    /\ Forall valid_pixel table.
Proof.
  intros Hne HV.
  set (row := fun k : Z =>
         match _interpolate_gradient_color stops (inject_Z k / 255) with
         | Ok (r :: g :: b :: _) => [b; g; r]
         | _ => []
         end).
  assert (forall k,
            (c <- _interpolate_gradient_color stops (inject_Z k / 255) ;;
             b <- getitem c 2 ;; b <- store_uint8 b ;;
             g <- getitem c 1 ;; g <- store_uint8 g ;;
             r <- getitem c 0 ;; r <- store_uint8 r ;;
             Ok [b; g; r]) = Ok (row k)
            /\ valid_pixel (row k)) as Hrow.
  { intros k. unfold row.
    destruct (interpolate_valid stops (inject_Z k / 255) Hne HV)
      as (c & -> & r & g & b & tl & -> & Hr & Hgr & Hbl).
    cbn [bind]. destruct (getitem_rgb r g b tl) as (-> & -> & ->).
    cbn [bind]. repeat (rewrite store_uint8_ok by lia; cbn [bind]).
    split; [reflexivity|]. split; [reflexivity|].
    repeat constructor; lia. }
  exists (map row (range 0 256)). split; [|split].
  - unfold build_lut. apply mapM_pure. intros k _. apply Hrow.
  - now rewrite length_map, range_length.
  - apply Forall_forall. intros r H. apply in_map_iff in H as (k & <- & _).
    apply Hrow.
Qed.

Lemma build_lut_valid_table (stops : list color_stop) (table : lut) :
  stops <> [] ->
  Forall (fun s => valid_color (color s)) stops ->
  build_lut stops = Ok table -> valid_table table /\ Forall valid_pixel table.
Proof.
  intros Hne HV E.
  destruct (build_lut_total stops Hne HV) as (table' & E' & L & V).
  rewrite E in E'. inversion E'; subst table'.
  split; [|exact V]. split.
  - intros ->. discriminate.
  - rewrite Forall_forall in *. intros r Hr. apply (V r Hr).
Qed.

Lemma getitem_nth {A} (l : list A) (i : Z) :
  0 <= i < Z.of_nat (length l) ->
  exists a, getitem l i = Ok a /\ nth_error l (Z.to_nat i) = Some a.
Proof.
  intros H. unfold getitem.
  destruct (Z.ltb_spec i 0); [lia|]. destruct (Z.ltb_spec i 0); [lia|].
  destruct (nth_error l (Z.to_nat i)) as [a|] eqn:E; [eauto|].
  apply nth_error_None in E. lia.
Qed.

(** Rebuilding the table for an index in range puts the system in
    sync. *)
Lemma generate_in_sync (gs : t) :
  Forall valid_gradient (gradients gs) ->
  0 <= current_gradient_index gs < Z.of_nat (length (gradients gs)) ->
  exists table,
    _generate_current_lut gs
    = Ok (mk (active gs) (opacity gs) (current_gradient_index gs)
             (gradients gs) (Some table))
    /\ lut_in_sync (mk (active gs) (opacity gs) (current_gradient_index gs)
                       (gradients gs) (Some table)).
Proof.
  intros HV Hidx. unfold _generate_current_lut.
  destruct (gradients gs) as [|g0 gl] eqn:G; [simpl in Hidx; lia|].
  destruct (getitem_nth (g0 :: gl) (current_gradient_index gs) Hidx)
    as (g & -> & Hg). cbn [bind].
  assert (valid_gradient g) as [Hne Hc].
  { rewrite Forall_forall in HV. apply HV. eapply nth_error_In; eauto. }
  destruct (build_lut_total (stops g) Hne Hc) as (table & E & _).
  rewrite E. cbn [bind]. exists table. split; [reflexivity|].
  unfold lut_in_sync. cbn [gradients current_gradient_index
                           current_gradient_lut].
  split; [exact Hidx|]. exists g, table. now repeat split.
Qed.

Lemma init_in_sync (loaded : list gradient) :
  Forall valid_gradient loaded ->
  lut_in_sync (init loaded) /\ gradients (init loaded) = loaded.
Proof.
  intros HV. unfold init.
  destruct loaded as [|g0 gl] eqn:L.
  - split; reflexivity.
  - destruct (generate_in_sync (mk true 50 0 (g0 :: gl) None)) as (table & E & S).
    + exact HV.
    + cbn [current_gradient_index gradients length]. lia.
    + rewrite E. cbn in *. split; [exact S|reflexivity].
Qed.

(** Stepping the index of a system keeps it in sync. *)
Lemma step_in_sync (gs : t) (delta : Z) :
  Forall valid_gradient (gradients gs) ->
  lut_in_sync gs ->
  let n := Z.of_nat (length (gradients gs)) in
  match gradients gs with
  | [] => True
  | _ :: _ =>
      exists table,
        _generate_current_lut
          (set_index gs ((current_gradient_index gs + delta) mod n))
        = Ok (mk (active gs) (opacity gs)
                 ((current_gradient_index gs + delta) mod n)
                 (gradients gs) (Some table))
        /\ lut_in_sync (mk (active gs) (opacity gs)
                           ((current_gradient_index gs + delta) mod n)
                           (gradients gs) (Some table))
  end.
Proof.
  intros HV _ n. destruct (gradients gs) as [|g0 gl] eqn:G; [exact I|].
  assert (0 < n) by (unfold n; simpl; lia).
  pose proof (Z.mod_pos_bound (current_gradient_index gs + delta) n
                ltac:(lia)) as Hm.
  destruct (generate_in_sync
              (set_index gs ((current_gradient_index gs + delta) mod n)))
    as (table & E & S).
  - unfold set_index; cbn [gradients]. now rewrite G.
  - unfold set_index; cbn [gradients current_gradient_index].
    rewrite G. exact Hm.
  - exists table. unfold set_index in *.
    cbn [gradients current_gradient_index active opacity] in *.
    rewrite G in *. split; assumption.
Qed.

End TableInSync.

(* ===================================================================== *)
(** ** Every call of the effect                                           *)
(* ===================================================================== *)

Section ApiCalls.

Variable gray : pixel -> Z.

Ltac branch :=
  match goal with
  | |- context [if ?b then _ else _] => destruct b eqn:?
  | |- context [match ?l with [] => _ | _ :: _ => _ end] => destruct l eqn:?
  | |- context [match ?r with Ok _ => _ | Raise _ => _ end] =>
      destruct r eqn:?
  end.

Lemma api_inv_init (loaded : list GradientOverlaySimple.gradient) :
  api_inv (KiAlt.init loaded).
Proof. unfold api_inv, KiAlt.init; simpl. repeat split; lia. Qed.

(** The state [process_frame] leaves: the controls and the gradient
    system are untouched and the counter does not decrease. *)
Lemma process_frame_state (self : KiAlt.t) (fr : option frame) :
  let self' := fst (KiAlt.process_frame gray self fr) in
  KiAlt.active self' = KiAlt.active self
  /\ KiAlt.pixel_width self' = KiAlt.pixel_width self
  /\ KiAlt.min_pixel_width self' = KiAlt.min_pixel_width self
  /\ KiAlt.max_pixel_width self' = KiAlt.max_pixel_width self
  /\ KiAlt.time_multiplier self' = KiAlt.time_multiplier self
  /\ KiAlt.gradient_opacity self' = KiAlt.gradient_opacity self
  /\ KiAlt.gradient_system self' = KiAlt.gradient_system self
  /\ (KiAlt.global_frame_counter self' = KiAlt.global_frame_counter self
      \/ KiAlt.global_frame_counter self'
         = KiAlt.global_frame_counter self + 1).
Proof.
  unfold KiAlt.process_frame, KiAlt.process_frame_with.
  destruct fr as [f|]; [|cbn; tauto].
  destruct (KiAlt.active self) eqn:A; cbn [negb]; [|cbn; tauto].
  unfold pymod.
  cbn [KiAlt.pixel_width KiAlt.set_global_frame_counter
       KiAlt.global_frame_counter KiAlt.time_multiplier].
  destruct (KiAlt.pixel_width self =? 0); [cbn; tauto|].
  destruct (shape_of f) as [height width] eqn:Hshape.
  assert (0 <= height /\ 0 <= width) as [Hh Hw].
  { unfold shape_of in Hshape. inversion Hshape. destruct f; lia. }
  destruct (direct_mask_outcome
              (KiAlt.set_global_frame_counter self
                 (KiAlt.global_frame_counter self + 1)) height width
              (((KiAlt.global_frame_counter self + 1)
                * KiAlt.time_multiplier self) mod KiAlt.pixel_width self)
              (KiAlt.pixel_width self)
              ((KiAlt.global_frame_counter self + 1)
               * KiAlt.time_multiplier self) Hh Hw)
    as (self' & m & -> & _ & _ & E1 & E2 & E3 & E4 & E5 & E6 & E7 & E8).
  cbn [fst]. cbn in E1, E2, E3, E4, E5, E6, E7, E8.
  rewrite E1, E2, E3, E4, E5, E6, E7, E8. tauto.
Qed.

Lemma api_inv_key (self : KiAlt.t) (key : Z) :
  api_inv self -> api_inv (fst (KiAlt.handle_key_press self key)).
Proof.
  intros (Hmin & Hmax & Hrange & Hmul & Hop & Hc).
  unfold KiAlt.handle_key_press, KiAlt.step_gradient, KiAlt.set_parameter.
  cbn [String.eqb Ascii.eqb Bool.eqb fst snd].
  repeat branch;
    unfold api_inv;
    cbn [fst KiAlt.min_pixel_width KiAlt.max_pixel_width KiAlt.pixel_width
         KiAlt.gradient_opacity KiAlt.set_active KiAlt.set_pixel_width
         KiAlt.set_global_frame_counter KiAlt.set_time_multiplier
         KiAlt.time_multiplier KiAlt.global_frame_counter
         KiAlt.set_gradient_opacity KiAlt.set_gradient_system py_int] in *;
    rewrite ?Hmin, ?Hmax;
    repeat split; lia.
Qed.

Lemma api_inv_set (self : KiAlt.t) (name : string) (value : pyval) :
  api_inv self -> api_inv (fst (KiAlt.set_parameter self name value)).
Proof.
  intros (Hmin & Hmax & Hrange & Hmul & Hop & Hc).
  unfold KiAlt.set_parameter.
  repeat branch;
    unfold api_inv;
    cbn [fst KiAlt.min_pixel_width KiAlt.max_pixel_width KiAlt.pixel_width
         KiAlt.gradient_opacity KiAlt.set_active KiAlt.set_pixel_width
         KiAlt.set_global_frame_counter KiAlt.time_multiplier
         KiAlt.global_frame_counter] in *;
    rewrite ?Hmin, ?Hmax;
    repeat split; lia.
Qed.

Lemma api_inv_call (self : KiAlt.t) (c : KiAltApi.call) :
  api_inv self -> api_inv (KiAltApi.apply_call gray self c).
Proof.
  intros H. destruct c as [key|name value| | |fr]; cbn [KiAltApi.apply_call].
  - now apply api_inv_key.
  - now apply api_inv_set.
  - destruct H as (Hmin & Hmax & _). unfold api_inv, KiAlt.reset; simpl.
    repeat split; try assumption; lia.
  - exact H.
  - destruct H as (Hmin & Hmax & Hrange & Hmul & Hop & Hc).
    destruct (process_frame_state self fr)
      as (_ & E2 & E3 & E4 & E5 & E6 & _ & E8).
    unfold api_inv. rewrite E2, E3, E4, E5, E6.
    repeat split; try assumption; lia.
Qed.

Lemma api_inv_calls (cs : list KiAltApi.call) (self : KiAlt.t) :
  api_inv self -> api_inv (KiAltApi.apply_calls gray self cs).
Proof.
  unfold KiAltApi.apply_calls. revert self.
  induction cs as [|c cs IH]; intros self H; simpl; [assumption|].
  apply IH. now apply api_inv_call.
Qed.

End ApiCalls.

(** X5.  Whatever is called on the effect after its creation, in any
    order -- key presses, [set_parameter] with any name and value,
    [reset], [cleanup], [process_frame] on any frame -- the pitch stays in
    [9, 199], so its half-pitch is positive and the pitch is never the
    zero divisor of [process_frame]; the speed multiplier stays at least
    1, the see-saw opacity in [-100, 100], and the frame counter
    non-negative. *)
Theorem kialt_calls_keep_controls_in_range
  (gray : pixel -> Z) (loaded : list GradientOverlaySimple.gradient)
  (cs : list KiAltApi.call) :
  let self := KiAltApi.apply_calls gray (KiAlt.init loaded) cs in
  9 <= KiAlt.pixel_width self <= 199
  /\ 0 < (KiAlt.pixel_width self - 1) / 2
  /\ 1 <= KiAlt.time_multiplier self
  /\ -100 <= KiAlt.gradient_opacity self <= 100
  /\ 0 <= KiAlt.global_frame_counter self.
Proof.
  intros self.
  destruct (api_inv_calls gray cs (KiAlt.init loaded) (api_inv_init loaded))
    as (_ & _ & Hrange & Hmul & Hop & Hc).
  fold self in Hrange, Hmul, Hop, Hc.
  repeat split; try lia.
  apply Z.div_str_pos. lia.
Qed.

(* ===================================================================== *)
(** ** The gradient table across calls                                    *)
(* ===================================================================== *)

(** The gradients an effect was created with are still loaded and the
    table is the table of the selected one. *)
Section TableAcrossCalls.

Variable gray : pixel -> Z.
Variable loaded : list GradientOverlaySimple.gradient.
Hypothesis Hloaded : Forall valid_gradient loaded.

Let synced (self : KiAlt.t) : Prop :=
  GradientOverlaySimple.gradients (KiAlt.gradient_system self) = loaded
  /\ lut_in_sync (KiAlt.gradient_system self).

Lemma synced_init : synced (KiAlt.init loaded).
Proof.
  unfold synced, KiAlt.init. cbn [KiAlt.gradient_system].
  destruct (init_in_sync loaded Hloaded) as [S G]. now split.
Qed.

Lemma synced_step (self : KiAlt.t) (delta : Z) :
  synced self -> synced (fst (KiAlt.step_gradient self delta)).
Proof.
  intros [G S]. unfold KiAlt.step_gradient.
  pose proof (step_in_sync (KiAlt.gradient_system self) delta) as H.
  rewrite G in H. specialize (H Hloaded S). rewrite <- G in H.
  destruct (GradientOverlaySimple.gradients (KiAlt.gradient_system self))
    as [|g0 gl] eqn:E.
  - cbn [fst]. split; [now rewrite E|exact S].
  - destruct H as (table & -> & S').
    cbn [fst]. split; [|exact S'].
    cbn [KiAlt.gradient_system KiAlt.set_gradient_system
         GradientOverlaySimple.gradients]. exact G.
Qed.

Lemma synced_key (self : KiAlt.t) (key : Z) :
  synced self -> synced (fst (KiAlt.handle_key_press self key)).
Proof.
  intros H. unfold KiAlt.handle_key_press.
  repeat match goal with
         | |- context [if ?b then _ else _] => destruct b eqn:?
         end;
    try (now apply synced_step);
    unfold KiAlt.set_parameter;
    cbn [String.eqb Ascii.eqb Bool.eqb fst];
    repeat match goal with
           | |- context [if ?b then _ else _] => destruct b eqn:?
           end;
    exact H.
Qed.

Lemma synced_set (self : KiAlt.t) (name : string) (value : pyval) :
  synced self -> synced (fst (KiAlt.set_parameter self name value)).
Proof.
  intros H. unfold KiAlt.set_parameter.
  repeat match goal with
         | |- context [if ?b then _ else _] => destruct b eqn:?
         end; exact H.
Qed.

Lemma synced_call (self : KiAlt.t) (c : KiAltApi.call) :
  synced self -> synced (KiAltApi.apply_call gray self c).
Proof.
  intros H. destruct c as [key|name value| | |fr]; cbn [KiAltApi.apply_call].
  - now apply synced_key.
  - now apply synced_set.
  - exact H.
  - exact H.
  - destruct (process_frame_state gray self fr)
      as (_ & _ & _ & _ & _ & _ & E & _).
    unfold synced. rewrite E. exact H.
Qed.

Lemma synced_calls (cs : list KiAltApi.call) (self : KiAlt.t) :
  synced self -> synced (KiAltApi.apply_calls gray self cs).
Proof.
  unfold KiAltApi.apply_calls. revert self.
  induction cs as [|c cs IH]; intros self H; simpl; [assumption|].
  apply IH. now apply synced_call.
Qed.

Lemma reachable_synced (cs : list KiAltApi.call) :
  let self := KiAltApi.apply_calls gray (KiAlt.init loaded) cs in
  GradientOverlaySimple.gradients (KiAlt.gradient_system self) = loaded
  /\ lut_in_sync (KiAlt.gradient_system self).
Proof. apply synced_calls, synced_init. Qed.

(** The table of a synchronised system of valid gradients has three
    channels per row. *)
Lemma synced_table_valid (self : KiAlt.t) (table : GradientOverlaySimple.lut) :
  synced self ->
  GradientOverlaySimple.current_gradient_lut (KiAlt.gradient_system self)
  = Some table ->
  valid_table table.
Proof.
  intros [G S] T. unfold lut_in_sync in S.
  destruct (GradientOverlaySimple.gradients (KiAlt.gradient_system self))
    as [|g0 gl] eqn:E; [congruence|].
  destruct S as (_ & g & table' & N & B & T').
  rewrite T in T'. inversion T'; subst table'.
  assert (valid_gradient g) as [Hne Hc].
  { rewrite <- G in Hloaded. rewrite Forall_forall in Hloaded.
    apply Hloaded. eapply nth_error_In; eauto. }
  now destruct (build_lut_valid_table _ _ Hne Hc B).
Qed.

Lemma reachable_frame (cs : list KiAltApi.call) (f : frame) :
  valid_frame f -> empty f = false ->
  let self := KiAltApi.apply_calls gray (KiAlt.init loaded) cs in
  exists out,
    snd (KiAlt.process_frame gray self (Some f)) = Ok (Some out)
    /\ valid_frame out
    /\ shape_of out = shape_of f
    /\ (KiAlt.active self = false -> out = f).
Proof.
  intros Hf He self.
  destruct (KiAlt.active self) eqn:A.
  - destruct (api_inv_calls gray cs (KiAlt.init loaded)
                (api_inv_init loaded)) as (_ & _ & Hrange & _).
    fold self in Hrange.
    destruct (process_frame_valid gray self f A) as (out & E & V & Sh & _).
    + lia.
    + exact Hf.
    + exact He.
    + intros table. apply synced_table_valid.
      apply synced_calls, synced_init.
    + exists out. split; [exact E|]. split; [exact V|]. split; [exact Sh|].
      intros; discriminate.
  - exists f. unfold KiAlt.process_frame, KiAlt.process_frame_with.
    rewrite A. cbn [negb snd]. split; [reflexivity|].
    split; [exact Hf|]. split; reflexivity.
Qed.

End TableAcrossCalls.

(** X6.  For an effect created with valid gradients (every gradient has
    a stop, and every stop a colour of at least three channels), whatever
    is called on it afterwards, the same gradients stay loaded and the
    table in use is the table built from the gradient the index selects:
    keys 2 and 3 never leave a stale or missing table, and no other call
    touches it. *)
Theorem kialt_table_follows_selected_gradient
  (gray : pixel -> Z) (loaded : list GradientOverlaySimple.gradient)
  (cs : list KiAltApi.call) :
  Forall valid_gradient loaded ->
  let self := KiAltApi.apply_calls gray (KiAlt.init loaded) cs in
  GradientOverlaySimple.gradients (KiAlt.gradient_system self) = loaded
  /\ lut_in_sync (KiAlt.gradient_system self).
Proof. intros H. now apply reachable_synced. Qed.

Lemma kialt_table_follows_selected_gradient_witness :
  let self :=
    KiAltApi.apply_calls (fun _ => 0) (KiAlt.init [flat_gradient; red_gradient])
      [KiAltApi.KeyPress 3; KiAltApi.ProcessFrame (Some [[[7; 8; 9]]]);
       KiAltApi.Reset; KiAltApi.KeyPress 2; KiAltApi.KeyPress 2] in
  GradientOverlaySimple.gradients (KiAlt.gradient_system self)
  = [flat_gradient; red_gradient]
  /\ lut_in_sync (KiAlt.gradient_system self).
Proof.
  apply (kialt_table_follows_selected_gradient
           (fun _ => 0) [flat_gradient; red_gradient]).
  repeat constructor; try discriminate; cbn; lia.
Defined.

(** X7.  For an effect created with valid gradients, after any sequence
    of calls, [process_frame] on a valid frame that holds at least one
    pixel does not raise: it returns a valid frame of the same shape, and
    the frame itself while the effect is switched off. *)
Theorem kialt_reachable_process_frame_succeeds
  (gray : pixel -> Z) (loaded : list GradientOverlaySimple.gradient)
  (cs : list KiAltApi.call) (f : frame) :
  Forall valid_gradient loaded ->
  valid_frame f -> empty f = false ->
  let self := KiAltApi.apply_calls gray (KiAlt.init loaded) cs in
  exists out,
    snd (KiAlt.process_frame gray self (Some f)) = Ok (Some out)
    /\ valid_frame out
    /\ shape_of out = shape_of f
    /\ (KiAlt.active self = false -> out = f).
Proof. intros H. now apply reachable_frame. Qed.

Lemma kialt_reachable_process_frame_succeeds_witness :
  exists out,
    snd (KiAlt.process_frame (fun _ => 0)
           (KiAltApi.apply_calls (fun _ => 0)
              (KiAlt.init [flat_gradient; red_gradient])
              [KiAltApi.KeyPress 3; KiAltApi.KeyPress 0;
               KiAltApi.ProcessFrame None; KiAltApi.Cleanup])
           (Some [[[7; 8; 9]; [0; 0; 0]]])) = Ok (Some out)
    /\ shape_of out = (1, 2).
Proof.
  destruct (kialt_reachable_process_frame_succeeds
              (fun _ => 0) [flat_gradient; red_gradient]
              [KiAltApi.KeyPress 3; KiAltApi.KeyPress 0;
               KiAltApi.ProcessFrame None; KiAltApi.Cleanup]
              [[[7; 8; 9]; [0; 0; 0]]])
    as (out & R & _ & S & _).
  - repeat constructor; try discriminate; cbn; lia.
  - split; repeat constructor; discriminate.
  - reflexivity.
  - exists out. split; [exact R|exact S].
Defined.

(* ===================================================================== *)
(** ** The gradient overlay's own calls                                   *)
(* ===================================================================== *)

Section OverlayCalls.

Import GradientOverlaySimple.

Ltac branch :=
  match goal with
  | |- context [if ?b then _ else _] => destruct b eqn:?
  end.

(** A rebuild changes the table only. *)
Lemma generate_fields (gs gs' : t) :
  _generate_current_lut gs = Ok gs' ->
  active gs' = active gs /\ opacity gs' = opacity gs
  /\ current_gradient_index gs' = current_gradient_index gs
  /\ gradients gs' = gradients gs.
Proof.
  unfold _generate_current_lut. destruct (gradients gs) as [|g0 gl] eqn:G.
  - intros E. inversion E; subst. repeat split; try reflexivity. exact G.
  - destruct (getitem (g0 :: gl) (current_gradient_index gs)) as [g|e];
      cbn [bind]; [|discriminate].
    destruct (build_lut (stops g)) as [table|e]; cbn [bind]; [|discriminate].
    intros E. inversion E; subst. cbn. repeat split; reflexivity.
Qed.

Lemma init_fields (loaded : list gradient) :
  opacity (init loaded) = 50 /\ gradients (init loaded) = loaded
  /\ active (init loaded) = true.
Proof.
  unfold init.
  destruct (_generate_current_lut (mk true 50 0 loaded None)) as [gs'|e] eqn:E.
  - apply generate_fields in E as (A & O & _ & G). cbn in *. tauto.
  - cbn. tauto.
Qed.

Lemma overlay_step_fields (self : t) (delta : Z) :
  let self' := fst (GradientOverlay.step_gradient self delta) in
  active self' = active self /\ opacity self' = opacity self
  /\ gradients self' = gradients self.
Proof.
  unfold GradientOverlay.step_gradient.
  destruct (gradients self) as [|g0 gl] eqn:G; [cbn; now rewrite G|].
  match goal with
  | |- context [_generate_current_lut ?s] =>
      destruct (_generate_current_lut s) as [gs'|e] eqn:E
  end.
  - apply generate_fields in E as (A & O & _ & G').
    cbn [fst]. rewrite A, O, G'. unfold set_index. cbn. now rewrite G.
  - cbn [fst]. unfold set_index. cbn. now rewrite G.
Qed.

Lemma overlay_set_fields (self : t) (name : string) (value : pyval) :
  0 <= opacity self <= 100 ->
  let self' := fst (GradientOverlay.set_parameter self name value) in
  0 <= opacity self' <= 100 /\ gradients self' = gradients self.
Proof.
  intros H. unfold GradientOverlay.set_parameter.
  repeat branch;
    try (destruct (overlay_step_fields self 1) as (_ & -> & ->);
         now split);
    try (destruct (overlay_step_fields self (-1)) as (_ & -> & ->);
         now split);
    cbn [fst GradientOverlay.set_active GradientOverlay.set_opacity
         opacity gradients]; split; try reflexivity; lia.
Qed.

Lemma overlay_key_fields (self : t) (key : Z) :
  0 <= opacity self <= 100 ->
  let self' := fst (GradientOverlay.handle_key_press self key) in
  0 <= opacity self' <= 100 /\ gradients self' = gradients self.
Proof.
  intros H. unfold GradientOverlay.handle_key_press, GradientOverlay.forward.
  repeat branch; cbn [fst];
    try (now apply overlay_set_fields); now split.
Qed.

Lemma overlay_calls_fields (cs : list GradientOverlay.call) (self : t) :
  0 <= opacity self <= 100 ->
  let self' := GradientOverlay.apply_calls self cs in
  0 <= opacity self' <= 100 /\ gradients self' = gradients self.
Proof.
  unfold GradientOverlay.apply_calls. revert self.
  induction cs as [|c cs IH]; intros self H; simpl; [now split|].
  destruct c as [name value|key]; cbn [GradientOverlay.apply_call].
  - destruct (overlay_set_fields self name value H) as [O G].
    destruct (IH _ O) as [O' G']. split; [exact O'|congruence].
  - destruct (overlay_key_fields self key H) as [O G].
    destruct (IH _ O) as [O' G']. split; [exact O'|congruence].
Qed.

(** With valid gradients the table follows the index and no call
    raises. *)
Variable loaded : list gradient.
Hypothesis Hloaded : Forall valid_gradient loaded.

Let synced (self : t) : Prop := gradients self = loaded /\ lut_in_sync self.

Lemma overlay_step_synced (self : t) (delta : Z) :
  synced self ->
  synced (fst (GradientOverlay.step_gradient self delta))
  /\ snd (GradientOverlay.step_gradient self delta) = Ok true.
Proof.
  intros [G S]. unfold GradientOverlay.step_gradient.
  pose proof (step_in_sync self delta) as H.
  rewrite G in H. specialize (H Hloaded S). rewrite <- G in H.
  destruct (gradients self) as [|g0 gl] eqn:E.
  - cbn [fst snd]. split; [|reflexivity]. split; [now rewrite E|exact S].
  - destruct H as (table & -> & S'). cbn [fst snd].
    split; [|reflexivity]. split; [|exact S']. cbn [gradients]. exact G.
Qed.

Lemma overlay_set_synced (self : t) (name : string) (value : pyval) :
  synced self ->
  synced (fst (GradientOverlay.set_parameter self name value))
  /\ exists b, snd (GradientOverlay.set_parameter self name value) = Ok b.
Proof.
  intros H. unfold GradientOverlay.set_parameter.
  repeat branch;
    try (destruct (overlay_step_synced self 1 H) as [S ->];
         split; [exact S|eauto]);
    try (destruct (overlay_step_synced self (-1) H) as [S ->];
         split; [exact S|eauto]);
    cbn [fst snd]; (split; [exact H|eauto]).
Qed.

Lemma overlay_key_synced (self : t) (key : Z) :
  synced self ->
  synced (fst (GradientOverlay.handle_key_press self key))
  /\ exists b, snd (GradientOverlay.handle_key_press self key) = Ok b.
Proof.
  intros H. unfold GradientOverlay.handle_key_press, GradientOverlay.forward.
  repeat branch; cbn [fst snd];
    try match goal with
        | |- context [GradientOverlay.set_parameter self ?n ?v] =>
            destruct (overlay_set_synced self n v H) as [S [b ->]];
            split; [exact S|cbn [bind]; eauto]
        end.
  split; [exact H|eauto].
Qed.

Lemma overlay_calls_synced (cs : list GradientOverlay.call) (self : t) :
  synced self -> synced (GradientOverlay.apply_calls self cs).
Proof.
  unfold GradientOverlay.apply_calls. revert self.
  induction cs as [|c cs IH]; intros self H; simpl; [exact H|].
  apply IH. destruct c as [name value|key]; cbn [GradientOverlay.apply_call].
  - now apply overlay_set_synced.
  - now apply overlay_key_synced.
Qed.

Lemma overlay_init_synced : synced (init loaded).
Proof. destruct (init_in_sync loaded Hloaded). now split. Qed.

Lemma overlay_reachable (cs : list GradientOverlay.call) :
  lut_in_sync (GradientOverlay.apply_calls (init loaded) cs).
Proof. apply overlay_calls_synced, overlay_init_synced. Qed.


Variable cvtColor_BGR2GRAY : pixel -> Z.
Variable addWeighted :
  frame -> PrimFloat.float -> frame -> PrimFloat.float -> Z -> frame.
Hypothesis Hgray : forall px, 0 <= cvtColor_BGR2GRAY px <= 255.



End OverlayCalls.

(** X8.  Whatever is called on a gradient overlay after its creation
    ([set_parameter] with any name and value, [handle_key_press] with
    any key), its opacity stays in [0, 100] and the gradients it loaded
    stay loaded, also when a rebuild of the table raises. *)
Theorem overlay_calls_keep_opacity_in_range
  (loaded : list GradientOverlaySimple.gradient)
  (cs : list GradientOverlay.call) :
  let self := GradientOverlay.apply_calls
                (GradientOverlaySimple.init loaded) cs in
  0 <= GradientOverlaySimple.opacity self <= 100
  /\ GradientOverlaySimple.gradients self = loaded.
Proof.
  intros self. destruct (init_fields loaded) as (O & G & _).
  destruct (overlay_calls_fields cs (GradientOverlaySimple.init loaded))
    as [O' G']; [lia|].
  split; [exact O'|]. unfold self. congruence.
Qed.

(** X9.  For a gradient overlay created with valid gradients, after any
    sequence of [set_parameter] and [handle_key_press] calls the index
    selects a loaded gradient and the table is the table built from that
    gradient: ['next_gradient'] and ['prev_gradient'] always rebuild it,
    and no other branch touches it. *)
Theorem overlay_table_follows_selected_gradient
  (loaded : list GradientOverlaySimple.gradient)
  (cs : list GradientOverlay.call) :
  Forall valid_gradient loaded ->
  lut_in_sync
    (GradientOverlay.apply_calls (GradientOverlaySimple.init loaded) cs).
Proof. intros H. now apply overlay_reachable. Qed.

Lemma overlay_table_follows_selected_gradient_witness :
  lut_in_sync
    (GradientOverlay.apply_calls
       (GradientOverlaySimple.init [flat_gradient; red_gradient])
       [GradientOverlay.KeyPress 3; GradientOverlay.KeyPress 0;
        GradientOverlay.SetParameter "prev_gradient"%string (VBool true)]).
Proof.
  apply (overlay_table_follows_selected_gradient
           [flat_gradient; red_gradient]).
  repeat constructor; try discriminate; cbn; lia.
Defined.



(* ===================================================================== *)
(** ** Edges of the interpolation                                         *)
(* ===================================================================== *)

Section InterpolationEdges.

Import GradientOverlaySimple.

Lemma interpolate_empty (pos : Q) :
  _interpolate_gradient_color [] pos = Raise IndexError.
Proof. reflexivity. Qed.

Lemma build_lut_empty : build_lut [] = Raise IndexError.
Proof. reflexivity. Qed.

Lemma getitem_minus_1 {A} (l : list A) (d : A) :
  l <> [] -> getitem l (-1) = Ok (last l d).
Proof.
  intros Hl. destruct (exists_last Hl) as (l' & a & ->).
  rewrite last_last. unfold getitem. cbn [Z.ltb Z.compare].
  rewrite length_app; simpl length.
  destruct (Z.ltb_spec (-1 + Z.of_nat (length l' + 1)) 0); [lia|].
  replace (Z.to_nat (-1 + Z.of_nat (length l' + 1))) with (length l' + 0)%nat
    by lia.
  now rewrite nth_error_app2, Nat.add_0_r, Nat.sub_diag by lia.
Qed.

(** The loop compares the position with every stop but the first, and
    falls through when all of them lie before it. *)
Lemma find_surrounding_past (stops : list color_stop) (pos : Q) :
  Forall (fun s => (position s < pos)%Q) (tl stops) ->
  find_surrounding stops pos = Ok None.
Proof.
  induction stops as [|s1 [|s2 rest] IH]; intros H; try reflexivity.
  cbn [tl] in H. inversion H as [|? ? H2 Hrest]; subst.
  cbn [find_surrounding].
  destruct (Qle_bool pos (position s2)) eqn:E.
  - apply Qle_bool_iff in E. exfalso. exact (Qlt_not_le _ _ H2 E).
  - apply IH. exact Hrest.
Qed.

Lemma interpolate_past (stops : list color_stop) (pos : Q) (d : color_stop) :
  stops <> [] ->
  Forall (fun s => (position s < clamp01 pos)%Q) (tl stops) ->
  _interpolate_gradient_color stops pos
  = Ok (firstn 3 (color (last stops d))).
Proof.
  intros Hne H. unfold _interpolate_gradient_color.
  rewrite (find_surrounding_past _ _ H). cbn [bind].
  now rewrite (getitem_minus_1 stops d Hne).
Qed.

Lemma Qtrunc_between (v : Q) (a b : Z) :
  0 <= a -> (inject_Z a <= v <= inject_Z b)%Q -> a <= Qtrunc v <= b.
Proof.
  intros Ha [H1 H2]. unfold Qle in H1, H2; simpl in H1, H2.
  rewrite Z.mul_1_r in H1, H2. unfold Qtrunc.
  rewrite Z.quot_div_nonneg by nia. split.
  - apply Z.div_le_lower_bound; lia.
  - apply Z.div_le_upper_bound; lia.
Qed.

(** Between two stops in order, a channel moves from the first stop's
    value to the second's without leaving the interval they span. *)
Lemma lerp_between (c1 c2 : Z) (t : Q) :
  0 <= c1 <= 255 -> 0 <= c2 <= 255 -> (0 <= t <= 1)%Q ->
  Z.min c1 c2
  <= Qtrunc (clip_0_255 (inject_Z c1 + t * inject_Z (c2 - c1)))
  <= Z.max c1 c2.
Proof.
  intros H1 H2 Ht.
  assert (inject_Z (Z.min c1 c2)
          <= inject_Z c1 + t * inject_Z (c2 - c1)
          <= inject_Z (Z.max c1 c2))%Q as Hv.
  { unfold Z.sub. rewrite inject_Z_plus, inject_Z_opp.
    assert (inject_Z (Z.min c1 c2) <= inject_Z c1)%Q
      by (rewrite <- Zle_Qle; lia).
    assert (inject_Z (Z.min c1 c2) <= inject_Z c2)%Q
      by (rewrite <- Zle_Qle; lia).
    assert (inject_Z c1 <= inject_Z (Z.max c1 c2))%Q
      by (rewrite <- Zle_Qle; lia).
    assert (inject_Z c2 <= inject_Z (Z.max c1 c2))%Q
      by (rewrite <- Zle_Qle; lia).
    split; nra. }
  assert (clip_0_255 (inject_Z c1 + t * inject_Z (c2 - c1))
          = (inject_Z c1 + t * inject_Z (c2 - c1))%Q) as ->.
  { unfold clip_0_255.
    assert (0 <= inject_Z (Z.min c1 c2))%Q
      by (change 0%Q with (inject_Z 0); rewrite <- Zle_Qle; lia).
    assert (inject_Z (Z.max c1 c2) <= 255)%Q
      by (change 255%Q with (inject_Z 255); rewrite <- Zle_Qle; lia).
    destruct (Qltb _ 0) eqn:E0.
    - apply Qltb_true in E0. exfalso. nra.
    - destruct (Qltb 255 _) eqn:E1; [|reflexivity].
      apply Qltb_true in E1. exfalso. nra. }
  apply Qtrunc_between; [lia|exact Hv].
Qed.

Lemma interpolate_channels_between (s1 s2 : color_stop) (pos : Q) :
  valid_color (color s1) -> valid_color (color s2) ->
  (position s1 < position s2)%Q ->
  (position s1 <= pos <= position s2)%Q ->
  exists c,
    interpolate_channels s1 s2
      ((pos - position s1) / (position s2 - position s1))
    = Ok c
    /\ length c = 3%nat
    /\ forall j v v1 v2,
         nth_error c j = Some v ->
         nth_error (color s1) j = Some v1 ->
         nth_error (color s2) j = Some v2 ->
         Z.min v1 v2 <= v <= Z.max v1 v2.
Proof.
  intros V1 V2 Hlt Hpos.
  destruct (valid_color_shape _ V1) as (r1 & g1 & b1 & tl1 & E1 & ? & ? & ?).
  destruct (valid_color_shape _ V2) as (r2 & g2 & b2 & tl2 & E2 & ? & ? & ?).
  rewrite (interpolate_channels_shape s1 s2 _ _ _ _ _ _ _ _ _ E1 E2).
  eexists. split; [reflexivity|]. split; [reflexivity|].
  assert (0 <= (pos - position s1) / (position s2 - position s1) <= 1)%Q
    as Ht.
  { assert (0 < position s2 - position s1)%Q as Hd by nra.
    split.
    - apply Qle_shift_div_l; [exact Hd|]. nra.
    - apply Qle_shift_div_r; [exact Hd|]. nra. }
  rewrite E1, E2.
  intros [|[|[|j]]] v v1 v2 Hv Hv1 Hv2; cbn in Hv, Hv1, Hv2;
    try (destruct j; discriminate);
    inversion Hv; inversion Hv1; inversion Hv2; subst;
    now apply lerp_between.
Qed.

(** A rebuild for a gradient without stops raises, and [step_gradient]
    has stored the index by then. *)
Lemma generate_empty_raises (gs : t) (g : gradient) :
  0 <= current_gradient_index gs ->
  nth_error (gradients gs) (Z.to_nat (current_gradient_index gs)) = Some g ->
  stops g = [] ->
  _generate_current_lut gs = Raise IndexError.
Proof.
  intros Hi N E. unfold _generate_current_lut.
  destruct (gradients gs) as [|g0 gl] eqn:G.
  - destruct (Z.to_nat (current_gradient_index gs)); discriminate.
  - destruct (getitem_nth (g0 :: gl) (current_gradient_index gs))
      as (a & -> & N').
    + split; [exact Hi|].
      assert (nth_error (g0 :: gl) (Z.to_nat (current_gradient_index gs))
              <> None) as N2 by congruence.
      apply nth_error_Some in N2. lia.
    + assert (a = g) as -> by congruence. cbn [bind]. now rewrite E.
Qed.

Lemma step_onto_empty (self : KiAlt.t) (delta : Z) (g : gradient) :
  let gs := KiAlt.gradient_system self in
  let i := (current_gradient_index gs + delta)
             mod Z.of_nat (length (gradients gs)) in
  nth_error (gradients gs) (Z.to_nat i) = Some g ->
  stops g = [] ->
  KiAlt.step_gradient self delta
  = (KiAlt.set_gradient_system self (set_index gs i), Raise IndexError).
Proof.
  intros gs i N E. unfold KiAlt.step_gradient. fold gs.
  destruct (gradients gs) as [|g0 gl] eqn:G.
  - destruct (Z.to_nat i); discriminate.
  - fold i.
    rewrite (generate_empty_raises (set_index gs i) g); try reflexivity.
    + unfold set_index; cbn [current_gradient_index]. unfold i.
      apply Z.mod_pos_bound. simpl. lia.
    + unfold set_index; cbn [current_gradient_index gradients].
      now rewrite G.
    + exact E.
Qed.

End InterpolationEdges.

(** X11.  A position past every stop but the first takes the first
    three channels of the last stop's colour: the loop of
    [_interpolate_gradient_color] never compares the position with the
    first stop's, so a gradient of a single stop has one colour
    everywhere. *)
Theorem positions_past_the_stops_take_last_colour
  (stops : list GradientOverlaySimple.color_stop) (pos : Q)
  (d : GradientOverlaySimple.color_stop) :
  stops <> [] ->
  Forall (fun s => (GradientOverlaySimple.position s
                    < GradientOverlaySimple.clamp01 pos)%Q) (tl stops) ->
  GradientOverlaySimple._interpolate_gradient_color stops pos
  = Ok (firstn 3 (GradientOverlaySimple.color (last stops d))).
Proof. apply interpolate_past. Qed.

Lemma positions_past_the_stops_take_last_colour_witness :
  GradientOverlaySimple._interpolate_gradient_color
    [GradientOverlaySimple.mk_stop 0 [1; 2; 3; 255];
     GradientOverlaySimple.mk_stop (1 # 2) [40; 50; 60; 255]] (3 # 4)
  = Ok [40; 50; 60].
Proof.
  apply (positions_past_the_stops_take_last_colour
           [GradientOverlaySimple.mk_stop 0 [1; 2; 3; 255];
            GradientOverlaySimple.mk_stop (1 # 2) [40; 50; 60; 255]]
           (3 # 4) (GradientOverlaySimple.mk_stop 0 [])).
  - discriminate.
  - repeat constructor.
Defined.

(** X12.  Between two stops whose positions are in order, each of the
    three channels [interpolate] computes lies between the two stops'
    values of that channel: the clip to [0, 255] and the [int()]
    truncation never leave that interval. *)
Theorem interpolated_channels_stay_between
  (s1 s2 : GradientOverlaySimple.color_stop) (pos : Q) :
  valid_color (GradientOverlaySimple.color s1) ->
  valid_color (GradientOverlaySimple.color s2) ->
  (GradientOverlaySimple.position s1 < GradientOverlaySimple.position s2)%Q ->
  (GradientOverlaySimple.position s1 <= pos
   <= GradientOverlaySimple.position s2)%Q ->
  exists c,
    GradientOverlaySimple.interpolate_channels s1 s2
      ((pos - GradientOverlaySimple.position s1)
       / (GradientOverlaySimple.position s2
          - GradientOverlaySimple.position s1))
    = Ok c
    /\ length c = 3%nat
    /\ forall j v v1 v2,
         nth_error c j = Some v ->
         nth_error (GradientOverlaySimple.color s1) j = Some v1 ->
         nth_error (GradientOverlaySimple.color s2) j = Some v2 ->
         Z.min v1 v2 <= v <= Z.max v1 v2.
Proof. apply interpolate_channels_between. Qed.

Lemma interpolated_channels_stay_between_witness :
  exists c,
    GradientOverlaySimple.interpolate_channels
      (GradientOverlaySimple.mk_stop 0 [0; 100; 255; 255])
      (GradientOverlaySimple.mk_stop 1 [255; 50; 255; 255])
      (((1 # 3) - 0) / (1 - 0))
    = Ok c /\ length c = 3%nat.
Proof.
  destruct (interpolated_channels_stay_between
              (GradientOverlaySimple.mk_stop 0 [0; 100; 255; 255])
              (GradientOverlaySimple.mk_stop 1 [255; 50; 255; 255])
              (1 # 3))
    as (c & E & L & _).
  - split; [cbn; lia|]. repeat constructor; lia.
  - split; [cbn; lia|]. repeat constructor; lia.
  - reflexivity.
  - split; discriminate.
  - exists c. split; [exact E|exact L].
Defined.

(** X13.  Stepping with key 2 or 3 onto a gradient that has no stops
    raises ['IndexError'] out of [handle_key_press] (from [stops[-1]]),
    and the effect is left with the index already advanced and the
    previous gradient's table still in place. *)
Theorem step_onto_gradient_without_stops_raises
  (self : KiAlt.t) (delta : Z) (g : GradientOverlaySimple.gradient) :
  let gs := KiAlt.gradient_system self in
  let i := (GradientOverlaySimple.current_gradient_index gs + delta)
             mod Z.of_nat (length (GradientOverlaySimple.gradients gs)) in
  nth_error (GradientOverlaySimple.gradients gs) (Z.to_nat i) = Some g ->
  GradientOverlaySimple.stops g = [] ->
  KiAlt.step_gradient self delta
  = (KiAlt.set_gradient_system self (GradientOverlaySimple.set_index gs i),
     Raise IndexError).
Proof. apply step_onto_empty. Qed.

Lemma step_onto_gradient_without_stops_raises_witness :
  let self :=
    KiAlt.init [flat_gradient; GradientOverlaySimple.mk_gradient []] in
  snd (KiAlt.handle_key_press self 3) = Raise IndexError
  /\ GradientOverlaySimple.current_gradient_index
       (KiAlt.gradient_system (fst (KiAlt.handle_key_press self 3))) = 1
  /\ GradientOverlaySimple.current_gradient_lut
       (KiAlt.gradient_system (fst (KiAlt.handle_key_press self 3)))
     = GradientOverlaySimple.current_gradient_lut (KiAlt.gradient_system self).
Proof.
  intros self.
  pose proof (step_onto_gradient_without_stops_raises
                self 1 (GradientOverlaySimple.mk_gradient [])
                eq_refl eq_refl) as H.
  change (KiAlt.handle_key_press self 3) with (KiAlt.step_gradient self 1).
  rewrite H. repeat split.
Defined.

(* ===================================================================== *)
(** ** Stepping the gradient forth and back                               *)
(* ===================================================================== *)

Section StepRoundTrip.

Import GradientOverlaySimple.

Lemma in_sync_unique (gs1 gs2 : t) :
  gradients gs1 = gradients gs2 ->
  gradients gs1 <> [] ->
  current_gradient_index gs1 = current_gradient_index gs2 ->
  lut_in_sync gs1 -> lut_in_sync gs2 ->
  current_gradient_lut gs1 = current_gradient_lut gs2.
Proof.
  intros G Hne I S1 S2. unfold lut_in_sync in S1, S2.
  rewrite <- G in S2. rewrite <- I in S2.
  destruct (gradients gs1) as [|g0 gl]; [congruence|].
  destruct S1 as (_ & g & table & N & B & ->).
  destruct S2 as (_ & g' & table' & N' & B' & ->).
  congruence.
Qed.

Lemma mod_step_back (i n d : Z) :
  0 <= i < n -> ((i + d) mod n - d) mod n = i.
Proof.
  intros H.
  rewrite Zminus_mod_idemp_l.
  replace (i + d - d) with i by lia. now apply Z.mod_small.
Qed.

Lemma kialt_step_back (self : KiAlt.t) (d : Z) :
  Forall valid_gradient (gradients (KiAlt.gradient_system self)) ->
  lut_in_sync (KiAlt.gradient_system self) ->
  fst (KiAlt.step_gradient (fst (KiAlt.step_gradient self d)) (- d)) = self.
Proof.
  intros HV S.
  destruct self as [a c p mn mx tm op im cf gs]. cbn [KiAlt.gradient_system] in *.
  unfold KiAlt.step_gradient at 2. cbn [KiAlt.gradient_system].
  pose proof (step_in_sync gs d HV S) as H1.
  destruct (gradients gs) as [|g0 gl] eqn:G.
  - cbn [fst]. unfold KiAlt.step_gradient. cbn [KiAlt.gradient_system].
    now rewrite G.
  - destruct H1 as (t1 & E1 & S1). rewrite E1. cbn [fst].
    unfold KiAlt.step_gradient, KiAlt.set_gradient_system.
    cbn [KiAlt.gradient_system KiAlt.active KiAlt.global_frame_counter
         KiAlt.pixel_width KiAlt.min_pixel_width KiAlt.max_pixel_width
         KiAlt.time_multiplier KiAlt.gradient_opacity KiAlt.invert_mask
         KiAlt.cached_frame_size gradients].
    set (gs1 := mk (active gs) (opacity gs)
                   ((current_gradient_index gs + d)
                      mod Z.of_nat (length (g0 :: gl)))
                   (g0 :: gl) (Some t1)) in *.
    assert (Forall valid_gradient (gradients gs1)) as HV1
      by (unfold gs1; cbn [gradients]; exact HV).
    pose proof (step_in_sync gs1 (- d) HV1 S1) as H2.
    unfold gs1 in H2 at 1. cbn [gradients] in H2.
    destruct H2 as (t2 & E2 & S2).
    change (gradients gs1) with (g0 :: gl) in E2, S2.
    rewrite E2. cbn [fst]. f_equal.
    assert (0 <= current_gradient_index gs < Z.of_nat (length (g0 :: gl)))
      as Hi.
    { unfold lut_in_sync in S. rewrite G in S. apply S. }
    assert ((current_gradient_index gs1 + - d)
              mod Z.of_nat (length (g0 :: gl))
            = current_gradient_index gs) as Hidx.
    { unfold gs1; cbn [current_gradient_index].
      rewrite Z.add_opp_r. now apply mod_step_back. }
    rewrite Hidx in *.
    assert (Some t2 = current_gradient_lut gs) as T.
    { apply (in_sync_unique
               (mk (active gs1) (opacity gs1) (current_gradient_index gs)
                   (g0 :: gl) (Some t2)) gs);
        cbn [gradients current_gradient_index]; try assumption.
      - now rewrite G.
      - discriminate.
      - reflexivity. }
    rewrite T. unfold gs1; cbn [active opacity].
    destruct gs; cbn in *. now subst.
Qed.

End StepRoundTrip.

(** X14.  With valid gradients loaded and the table in step with the
    index, key 3 followed by key 2 (and key 2 followed by key 3) gives
    the effect back exactly as it was: the same index and the same
    table, and nothing else changed. *)
Theorem gradient_keys_undo_each_other (self : KiAlt.t) :
  Forall valid_gradient
    (GradientOverlaySimple.gradients (KiAlt.gradient_system self)) ->
  lut_in_sync (KiAlt.gradient_system self) ->
  fst (KiAlt.handle_key_press (fst (KiAlt.handle_key_press self 3)) 2) = self
  /\ fst (KiAlt.handle_key_press (fst (KiAlt.handle_key_press self 2)) 3)
     = self.
Proof.
  intros HV S. split.
  - exact (kialt_step_back self 1 HV S).
  - exact (kialt_step_back self (-1) HV S).
Qed.

Lemma gradient_keys_undo_each_other_witness :
  let self := KiAlt.init [flat_gradient; red_gradient; flat_gradient] in
  fst (KiAlt.handle_key_press (fst (KiAlt.handle_key_press self 3)) 2) = self
  /\ fst (KiAlt.handle_key_press (fst (KiAlt.handle_key_press self 2)) 3)
     = self.
Proof.
  apply (gradient_keys_undo_each_other
           (KiAlt.init [flat_gradient; red_gradient; flat_gradient])).
  - unfold KiAlt.init. cbn [KiAlt.gradient_system].
    rewrite (proj1 (proj2 (init_fields _))).
    repeat constructor; try discriminate; cbn; lia.
  - unfold KiAlt.init. cbn [KiAlt.gradient_system].
    apply init_in_sync.
    repeat constructor; try discriminate; cbn; lia.
Defined.
